(** * FashionDetector: rate limiter, search state store and search pipeline

    A shallow embedding of the Python sources

      - [src/middleware/rate_limiter.py]         module [RateLimiter]
      - [src/models/search.py]                   module [Models]
      - [src/services/search_state_service.py]   modules [StoreState],
                                                 [SearchState], [StateService]
      - [src/services/vision_service.py]         module [VisionService]
      - [src/repositories/search_repository.py]  module [SearchRepository]
      - [src/services/scraper_service.py]        module [ScraperService]
      - [src/services/search_service.py]         module [SearchService]
      - [src/routers/searches.py]                module [Router]

    followed by the properties of the design document, proved or refuted
    on it. The definitions come first, the lemmas after them.

    Conventions.
    - [time.time()] returns seconds as a float; a reading is modelled as an
      exact rational ([Q]), and [int(x)] as truncation towards zero.
    - [datetime.now()] has microsecond resolution; a reading is modelled as
      an integer number of microseconds ([Z]). A duration in milliseconds,
      [int((b - a).total_seconds() * 1000)], is computed as Python computes
      it, in double precision: [binary64] rounds an exact result to the
      nearest float.
    - A state file is written with [open(filepath, "w")] and [json.dump]:
      a write succeeds, fails at [open] (the file is as it was) or fails
      after [open] (the file is cut off and holds no record). A file that
      is missing or cut off is read as [None].
    - A Python [dict] used as a map is a [gmap]; reading a missing key of a
      [defaultdict(list)] creates it with the empty list.
    - Coroutines run one step after the other ([await] on a coroutine runs
      it to its end); module [Runtime] gives the state-and-exception monad
      they are written in. What the program does not control (the disk, the
      clock, the outcome of each call on a collaborator) is a parameter. *)

From Stdlib Require Import ZArith QArith Qround Qpower Lqa Lia List Bool String Ascii.
From stdpp Require Import base gmap strings list pretty.

Import ListNotations.

(* ================================================================== *)
(** * Python helpers                                                    *)
(* ================================================================== *)

(** [int(x)] on a float: truncation towards zero. *)
Definition py_int (x : Q) : Z := Z.quot (Qnum x) (Z.pos (Qden x)).

(** The nearest integer, a tie going to the even one. *)
Definition round_half_even (x : Q) : Z :=
  let f := Qfloor x in
  match Qcompare (x - inject_Z f) (1 # 2) with
  | Lt => f
  | Gt => (f + 1)%Z
  | Eq => if Z.even f then f else (f + 1)%Z
  end.

(** The binary exponent of a positive number [q]: the [e] with
    [2 ^ e <= q < 2 ^ (e + 1)]. *)
Definition exponent (q : Q) : Z :=
  let e := (Z.log2 (Qnum q) - Z.log2 (Z.pos (Qden q)))%Z in
  if Qle_bool (2 ^ e) q then e else (e - 1)%Z.

(** A positive number rounded to 53 significant bits. *)
Definition round_positive (q : Q) : Q :=
  let e := exponent q in
  inject_Z (round_half_even (q * 2 ^ (52 - e))) * 2 ^ (e - 52).

(** The [float] nearest to [q]: IEEE 754 binary64, rounding to nearest, ties
    to even. This is what the division of two integers and the product of
    two floats give of the exact result. The exponent is not bounded: the
    durations of a [datetime] stay far from overflow and underflow. *)
Definition binary64 (q : Q) : Q :=
  match Qcompare q 0 with
  | Eq => 0
  | Gt => round_positive q
  | Lt => - round_positive (- q)
  end.

(** [a < b] on timestamps, as a boolean. *)
Definition Qltb (a b : Q) : bool := negb (Qle_bool b a).

(** Number of entries of [l] satisfying [p]: [len([x for x in l if p(x)])]. *)
Definition count {A} (p : A -> bool) (l : list A) : nat :=
  length (List.filter p l).

(* ================================================================== *)
(** * The rate limiter ([src/middleware/rate_limiter.py])               *)
(* ================================================================== *)

Module RateLimiter.

(** Constructor arguments of [RateLimiter]. *)
Record Config := {
  anonymous_limit : Z;
  authenticated_limit : Z;
  window_size : Z;
  block_time : Z
}.

(** The defaults of [__init__]. *)
Definition default_config : Config :=
  {| anonymous_limit := 10; authenticated_limit := 100;
     window_size := 3600; block_time := 3600 |}.

(** What the middleware reads of a request: the URL path, the client
    address as [_get_client_ip] derives it, and the [Authorization]
    header. *)
Record Request := {
  path : string;
  client_ip : string;
  authorization : option string
}.

(** [self.request_records] and [self.blocked_clients]. *)
Record State := {
  request_records : gmap string (list Q);
  blocked_clients : gmap string Q
}.

Definition init : State :=
  {| request_records := ∅; blocked_clients := ∅ |}.

(** Reading [d[k]] of a [defaultdict(list)]: the value, and the
    dictionary with the key created when it was missing. *)
Definition dd_get (d : gmap string (list Q)) (k : string)
  : list Q * gmap string (list Q) :=
  match d !! k with
  | Some l => (l, d)
  | None => ([], <[k := []]> d)
  end.

Definition _should_rate_limit (p : string) : bool :=
  String.prefix "/api/searches" p.

Definition _is_authenticated (req : Request) : bool :=
  match authorization req with
  | Some auth_header => String.prefix "Bearer " auth_header
  | None => false
  end.

Definition limit_for (cfg : Config) (is_authenticated : bool) : Z :=
  if is_authenticated then authenticated_limit cfg else anonymous_limit cfg.

Definition _is_client_blocked (st : State) (ip : string) (now : Q)
  : (bool * Z) * State :=
  match blocked_clients st !! ip with
  | Some unblock_time =>
      if Qle_bool unblock_time now then
        ((false, 0%Z),
         {| request_records := request_records st;
            blocked_clients := delete ip (blocked_clients st) |})
      else ((true, py_int (unblock_time - now)), st)
  | None => ((false, 0%Z), st)
  end.

(** The comprehension of [_check_rate_limit]. *)
Definition prune (window_start : Q) (l : list Q) : list Q :=
  List.filter (fun timestamp => Qltb window_start timestamp) l.

Definition _check_rate_limit (cfg : Config) (st : State) (ip : string)
    (req : Request) (now : Q) : (bool * Z) * State :=
  let window_start := (now - inject_Z (window_size cfg))%Q in
  let records1 :=
    match request_records st !! ip with
    | Some l => <[ip := prune window_start l]> (request_records st)
    | None => request_records st
    end in
  let is_authenticated := _is_authenticated req in
  let limit := limit_for cfg is_authenticated in
  let '(l, records2) := dd_get records1 ip in
  let request_count := Z.of_nat (length l) in
  if (limit <=? request_count)%Z then
    ((true, block_time cfg),
     {| request_records := records2;
        blocked_clients :=
          <[ip := (now + inject_Z (block_time cfg))%Q]> (blocked_clients st) |})
  else
    ((false, 0%Z),
     {| request_records := records2; blocked_clients := blocked_clients st |}).

Definition _record_request (st : State) (ip : string) (now : Q) : State :=
  let '(l, records1) := dd_get (request_records st) ip in
  {| request_records := <[ip := l ++ [now]]> records1;
     blocked_clients := blocked_clients st |}.

(** The two answers of [dispatch]: the request goes on to [call_next], or
    the 429 response of [_rate_limit_response] with its [retry_after]. *)
Inductive Response :=
| Forwarded
| TooManyRequests (retry_after : Z).

(** One request with the three clock readings its handling takes (one per
    locked section). *)
Record Arrival := {
  request : Request;
  t_block : Q;
  t_check : Q;
  t_record : Q
}.

Definition dispatch (cfg : Config) (st : State) (a : Arrival)
  : Response * State :=
  let req := request a in
  if _should_rate_limit (path req) then
    let ip := client_ip req in
    let '((is_blocked, retry_after), st1) := _is_client_blocked st ip (t_block a) in
    if is_blocked then (TooManyRequests retry_after, st1)
    else
      let '((limit_exceeded, retry_after), st2) :=
        _check_rate_limit cfg st1 ip req (t_check a) in
      if limit_exceeded then (TooManyRequests retry_after, st2)
      else (Forwarded, _record_request st2 ip (t_record a))
  else (Forwarded, st).

(** The part of [dispatch] that follows the block check: the window check
    and, when it passes, the recording of the request. *)
Definition window_check (cfg : Config) (st : State) (a : Arrival)
  : Response * State :=
  let ip := client_ip (request a) in
  let '((limit_exceeded, retry_after), st2) :=
    _check_rate_limit cfg st ip (request a) (t_check a) in
  if limit_exceeded then (TooManyRequests retry_after, st2)
  else (Forwarded, _record_request st2 ip (t_record a)).

(** An accepted request, as [_record_request] registered it. *)
Record Accepted := {
  acc_ip : string;
  acc_auth : bool;
  acc_time : Q
}.

Definition accepted_of (a : Arrival) (r : Response) : list Accepted :=
  match r with
  | Forwarded =>
      if _should_rate_limit (path (request a)) then
        [ {| acc_ip := client_ip (request a);
             acc_auth := _is_authenticated (request a);
             acc_time := t_record a |} ]
      else []
  | TooManyRequests _ => []
  end.

(** A sequence of requests handled one after the other: the final state,
    and the accepted requests in the order of their acceptance. *)
Fixpoint run (cfg : Config) (st : State) (log : list Accepted)
    (arrivals : list Arrival) : State * list Accepted :=
  match arrivals with
  | [] => (st, log)
  | a :: rest =>
      let '(r, st') := dispatch cfg st a in
      run cfg st' (log ++ accepted_of a r) rest
  end.

(** The answers to a sequence of requests handled one after the other. *)
Fixpoint responses (cfg : Config) (st : State) (arrivals : list Arrival)
  : list Response :=
  match arrivals with
  | [] => []
  | a :: rest =>
      let '(r, st') := dispatch cfg st a in
      r :: responses cfg st' rest
  end.

(** The clock never runs backwards: readings from [last] on. *)
Fixpoint clock_monotone (last : Q) (arrivals : list Arrival) : Prop :=
  match arrivals with
  | [] => True
  | a :: rest =>
      (last <= t_block a)%Q /\ (t_block a <= t_check a)%Q /\
      (t_check a <= t_record a)%Q /\ clock_monotone (t_record a) rest
  end.

(** Accepted requests of client [ip] in class [auth]. *)
Definition of_client (ip : string) (auth : bool) (x : Accepted) : bool :=
  String.eqb (acc_ip x) ip && Bool.eqb (acc_auth x) auth.

(** The two half-open windows of [w] seconds starting at [t]. *)
Definition in_window_oc (t : Q) (w : Z) (ts : Q) : bool :=
  Qltb t ts && Qle_bool ts (t + inject_Z w).

Definition in_window_co (t : Q) (w : Z) (ts : Q) : bool :=
  Qle_bool t ts && Qltb ts (t + inject_Z w).

(** The closed window of [w] seconds starting at [t]. *)
Definition in_window_cc (t : Q) (w : Z) (ts : Q) : bool :=
  Qle_bool t ts && Qle_bool ts (t + inject_Z w).

(** The timestamps [self.request_records] holds for [ip] ([[]] when the
    key is missing). *)
Definition records_of (st : State) (ip : string) : list Q :=
  default [] (request_records st !! ip).

(** The timestamps of the accepted requests of [ip], whatever the class. *)
Definition ts_of (ip : string) (log : list Accepted) : list Q :=
  map acc_time (List.filter (fun x => String.eqb (acc_ip x) ip) log).

(** Invariant 1: from [last - window_size] on, the stored timestamps of a
    client are those of its accepted requests. *)
Definition synced (cfg : Config) (last : Q) (st : State) (log : list Accepted)
  : Prop :=
  forall ip b, (last - inject_Z (window_size cfg) <= b)%Q ->
    count (Qltb b) (records_of st ip) = count (Qltb b) (ts_of ip log).

(** Invariant 2: when a request was accepted, it and the requests of the
    same client accepted before it and less than [window_size] seconds
    earlier were at most the limit of its class. *)
Definition quota_ok (cfg : Config) (log : list Accepted) : Prop :=
  forall pre e post, log = pre ++ e :: post ->
    (Z.of_nat (count (Qltb (acc_time e - inject_Z (window_size cfg)))
                     (ts_of (acc_ip e) (pre ++ [e])))
     <= limit_for cfg (acc_auth e))%Z.


(** The answers given to the requests of client [ip] in a sequence of
    requests handled one after the other. *)
Fixpoint responses_of (cfg : Config) (st : State) (ip : string)
    (arrivals : list Arrival) : list Response :=
  match arrivals with
  | [] => []
  | a :: rest =>
      let '(r, st') := dispatch cfg st a in
      if String.eqb (client_ip (request a)) ip
      then r :: responses_of cfg st' ip rest
      else responses_of cfg st' ip rest
  end.

(** The state after a sequence of requests. *)
Definition state_after (cfg : Config) (st : State) (arrivals : list Arrival)
  : State :=
  fst (run cfg st [] arrivals).

(** No stored timestamp is later than [last], and a block entry lies at
    least [block_time] after every stored timestamp of its client. *)
Definition block_covers (cfg : Config) (last : Q) (st : State) : Prop :=
  (forall ip ts, In ts (records_of st ip) -> (ts <= last)%Q) /\
  (forall ip u ts, blocked_clients st !! ip = Some u ->
     In ts (records_of st ip) -> (ts + inject_Z (block_time cfg) <= u)%Q).

(** [str.isspace] on the characters a header can hold (code points below
    256): tab to carriage return, the separators 28 to 31, the space, and
    the code points 133 and 160. *)
Definition isspace (c : ascii) : bool :=
  let n := nat_of_ascii c in
  ((9 <=? n) && (n <=? 13)) || ((28 <=? n) && (n <=? 32))
  || (n =? 133) || (n =? 160).

(** [s.split(",")[0]]: what precedes the first comma. *)
Fixpoint first_field (s : string) : string :=
  match s with
  | EmptyString => EmptyString
  | String c rest =>
      if Ascii.eqb c ","%char then EmptyString else String c (first_field rest)
  end.

Fixpoint lstrip (s : string) : string :=
  match s with
  | EmptyString => EmptyString
  | String c rest => if isspace c then lstrip rest else s
  end.

Fixpoint rstrip (s : string) : string :=
  match s with
  | EmptyString => EmptyString
  | String c rest =>
      match rstrip rest with
      | EmptyString => if isspace c then EmptyString else String c EmptyString
      | r => String c r
      end
  end.

(** [s.strip()]. *)
Definition strip (s : string) : string := rstrip (lstrip s).

(** [_get_client_ip]: [forwarded_for] is the [X-Forwarded-For] header,
    [client_host] is [request.client.host] when [request.client] is set. *)
Definition _get_client_ip (forwarded_for : option string)
    (client_host : option string) : string :=
  match forwarded_for with
  | Some (String c rest) => strip (first_field (String c rest))
  | _ =>
      match client_host with
      | Some host => host
      | None => "unknown"
      end
  end.

(** Has no comma; begins, ends with no whitespace. *)
Fixpoint has_comma (s : string) : bool :=
  match s with
  | EmptyString => false
  | String c rest => Ascii.eqb c ","%char || has_comma rest
  end.

Definition starts_with_space (s : string) : bool :=
  match s with
  | EmptyString => false
  | String c _ => isspace c
  end.

Fixpoint ends_with_space (s : string) : bool :=
  match s with
  | EmptyString => false
  | String c EmptyString => isspace c
  | String _ rest => ends_with_space rest
  end.


(** What [dispatch] does with the data of the client of a request alone:
    its stored timestamps [l] and its block entry [b]. *)
Definition client_step (cfg : Config) (a : Arrival) (l : list Q) (b : option Q)
  : Response * (list Q * option Q) :=
  let pruned := prune (t_check a - inject_Z (window_size cfg)) l in
  let checked :=
    if (limit_for cfg (_is_authenticated (request a)) <=? Z.of_nat (length pruned))%Z
    then (TooManyRequests (block_time cfg),
          (pruned, Some (t_check a + inject_Z (block_time cfg))%Q))
    else (Forwarded, (pruned ++ [t_record a], None)) in
  if _should_rate_limit (path (request a)) then
    match b with
    | Some u =>
        if Qle_bool u (t_block a) then checked
        else (TooManyRequests (py_int (u - t_block a)), (l, b))
    | None => checked
    end
  else (Forwarded, (l, b)).

End RateLimiter.

(** The requests of the scenarios below: anonymous, from one address, on
    the submission path, handled at the instant [t]. *)
Definition anon_at (t : Q) : RateLimiter.Arrival :=
  {| RateLimiter.request :=
       {| RateLimiter.path := "/api/searches/";
          RateLimiter.client_ip := "10.0.0.7";
          RateLimiter.authorization := None |};
     RateLimiter.t_block := t;
     RateLimiter.t_check := t;
     RateLimiter.t_record := t |}.

(** A status poll of the same client, handled at the instant [t]. *)
Definition poll_at (t : Q) : RateLimiter.Arrival :=
  {| RateLimiter.request :=
       {| RateLimiter.path := "/api/searches/id-1";
          RateLimiter.client_ip := "10.0.0.7";
          RateLimiter.authorization := None |};
     RateLimiter.t_block := t;
     RateLimiter.t_check := t;
     RateLimiter.t_record := t |}.

(** A limiter with the default window and block time and an anonymous limit
    of one request. *)
Definition one_per_hour : RateLimiter.Config :=
  {| RateLimiter.anonymous_limit := 1; RateLimiter.authenticated_limit := 100;
     RateLimiter.window_size := 3600; RateLimiter.block_time := 3600 |}.

(** The state after a first request at second 0 (accepted) and a second
    one at second 1 (denied, the client blocked until second 3601). *)
Definition blocked_until_3601 : RateLimiter.State :=
  snd (RateLimiter.dispatch one_per_hour
         (snd (RateLimiter.dispatch one_per_hour RateLimiter.init (anon_at 0)))
         (anon_at 1)).

(** A request of another client, handled at the instant [t]. *)
Definition other_at (t : Q) : RateLimiter.Arrival :=
  {| RateLimiter.request :=
       {| RateLimiter.path := "/api/searches/";
          RateLimiter.client_ip := "10.0.0.8";
          RateLimiter.authorization := None |};
     RateLimiter.t_block := t;
     RateLimiter.t_check := t;
     RateLimiter.t_record := t |}.


(* ================================================================== *)
(** * The data model ([src/models/search.py])                           *)
(* ================================================================== *)

Module Models.

Inductive StoreEnum := ZALANDO | MODIVO | ASOS.

(** [store.value]. *)
Definition value (store : StoreEnum) : string :=
  match store with
  | ZALANDO => "zalando"
  | MODIVO => "modivo"
  | ASOS => "asos"
  end.

(** [list(StoreEnum)]. *)
Definition all_stores : list StoreEnum := [ZALANDO; MODIVO; ASOS].

Record SearchResponse := {
  search_id : string;
  status : string;
  estimated_time_seconds : Z;
  timestamp : Z
}.

Record AttributeRecognition := {
  name : string;
  value_ : string;
  confidence : Q
}.

Record ProductAttribute := {
  color : option string;
  pattern : option string;
  cut : option string;
  brand : option string
}.

Record ProductAlternative := {
  alt_color : string;
  alt_url : string
}.

Record Product := {
  title : string;
  store : string;
  url : string;
  similarity_score : Q;
  attributes : ProductAttribute;
  alternatives : list ProductAlternative
}.

(** What the handlers read of a FastAPI [UploadFile]: the declared content
    type and what [read()] gives ([None] when reading raises). *)
Record UploadFile := {
  filename : string;
  content_type : option string;
  read : option (list Byte.byte)
}.

End Models.

(* ================================================================== *)
(** * The persisted record (the JSON file of one search)                *)
(* ================================================================== *)

Module StoreState.
(** One entry of ["stores_searched"]. *)
Record t := {
  name : string;
  status : string;
  time_ms : Z
}.
End StoreState.

Module SearchState.
(** The dictionary [initialize_search] builds and the [update_*] methods
    rewrite. Times are microseconds; [end_time] is [None] until a terminal
    status is written. *)
Record t := {
  search_id : string;
  status : string;
  start_time : Z;
  end_time : option Z;
  elapsed_time_ms : Z;
  stores_searched : list StoreState.t;
  attributes_recognized : list Models.AttributeRecognition;
  result_count : Z
}.
End SearchState.

(* ================================================================== *)
(** * Sequential execution with exceptions                              *)
(* ================================================================== *)

Module Runtime.

Inductive Exn :=
| HTTPException (status_code : Z) (detail : string)
| Exception (message : string).

(** How a call ends: it returns a value or raises. *)
Inductive Result (A : Type) :=
| Ok (a : A)
| Raise (e : Exn).
Arguments Ok {A} a.
Arguments Raise {A} e.

(** The calls [process_search] makes on its collaborators, in the order it
    makes them. *)
Inductive Call :=
| CallInitializeSearch (search_id : string) (stores : list string)
| CallSaveImage (search_id : string)
| CallAnalyze (image_url : string)
| CallUpdateAttributes (attributes : list Models.AttributeRecognition)
| CallSaveAttributesBatch (analysis_time_ms : Z)
| CallUpdateStoreStatus (store : string) (status : string) (time_ms : Z)
| CallSearchStore (store : string) (attributes : list Models.AttributeRecognition)
| CallSaveStoreSearch (store : string) (search_performed : bool)
| CallUpdateResultCount (count : Z)
| CallUpdateSearchStatus (status : string)
| CallSaveSearchMetrics (result_count : Z).

(** A task handed to [BackgroundTasks.add_task]: the arguments of
    [process_search]. *)
Record Task := {
  task_image : Models.UploadFile;
  task_stores : list Models.StoreEnum;
  task_search_id : string
}.

(** What the program changes: the records the state files hold (by search
    identifier), the identifiers whose state file was cut off by a failed
    write and holds no record, the number of file operations and of clock
    readings made so far, the calls made on collaborators, and the
    background tasks scheduled. *)
Record World := {
  files : gmap string SearchState.t;
  cut_off : gset string;
  io_ops : nat;
  clock_reads : nat;
  calls : list Call;
  background : list Task
}.

Definition empty_world : World :=
  {| files := ∅; cut_off := ∅; io_ops := 0; clock_reads := 0; calls := [];
     background := [] |}.

(** What the program does not control: whether the [n]-th file operation
    succeeds; when it is a write that fails, whether it fails after
    [open(filepath, "w")] has truncated or created the file; and what the
    [n]-th reading of [datetime.now()] is. *)
Record Sys := {
  io_ok : nat -> bool;
  opened : nat -> bool;
  now_us : nat -> Z
}.

Definition M (A : Type) : Type := World -> Result A * World.

#[global] Instance M_ret : MRet M := fun A a w => (Ok a, w).

#[global] Instance M_bind : MBind M := fun A B f m w =>
  match m w with
  | (Ok a, w') => f a w'
  | (Raise e, w') => (Raise e, w')
  end.

(** [try: m except Exception as e: ...]: the outcome of [m] as a value. *)
Definition attempt {A} (m : M A) : M (Result A) := fun w =>
  let '(r, w') := m w in (Ok r, w').

(** [try: m except Exception: handler]. *)
Definition try_except {A} (m : M A) (handler : Exn -> M A) : M A := fun w =>
  match m w with
  | (Ok a, w') => (Ok a, w')
  | (Raise e, w') => handler e w'
  end.

(** A call on a collaborator whose outcome is given. *)
Definition lift {A} (r : Result A) : M A := fun w => (r, w).

Definition log_call (c : Call) : M unit := fun w =>
  (Ok tt, {| files := files w; cut_off := cut_off w; io_ops := io_ops w;
             clock_reads := clock_reads w; calls := calls w ++ [c];
             background := background w |}).

(** [datetime.now()]. *)
Definition now (sys : Sys) : M Z := fun w =>
  (Ok (now_us sys (clock_reads w)),
   {| files := files w; cut_off := cut_off w; io_ops := io_ops w;
      clock_reads := S (clock_reads w); calls := calls w;
      background := background w |}).

(** [int((b - a).total_seconds() * 1000)] on two clock readings, in
    microseconds: [total_seconds()] divides the microseconds of the
    difference by [10**6] into a float, the product with [1000] is rounded
    to a float again, and [int] truncates it. (For a difference of 1.001 s
    the result is 1000.) *)
Definition elapsed_ms (a b : Z) : Z :=
  py_int (binary64 (binary64 (inject_Z (b - a) / inject_Z 1000000)
                    * inject_Z 1000)).

(** Truth value of an optional string: [None] and the empty string are
    false. *)
Definition truthy (s : option string) : bool :=
  match s with
  | Some EmptyString => false
  | Some _ => true
  | None => false
  end.

(** [triple P m Q E]: started in a world satisfying [P], the computation
    [m] ends in a world satisfying [Q a] when it returns [a], and in one
    satisfying [E e] when it raises [e]. *)
Definition triple {A} (P : World -> Prop) (m : M A)
    (Q : A -> World -> Prop) (E : Exn -> World -> Prop) : Prop :=
  forall w, P w ->
    match m w with
    | (Ok a, w') => Q a w'
    | (Raise e, w') => E e w'
    end.

(** [m] keeps [I], however it ends. *)
Definition keeps {A} (I : World -> Prop) (m : M A) : Prop :=
  triple I m (fun _ => I) (fun _ => I).

(** [m] never raises. *)
Definition total {A} (m : M A) : Prop :=
  forall w, exists a, fst (m w) = Ok a.

End Runtime.

(* ================================================================== *)
(** * The state store ([src/services/search_state_service.py])          *)
(* ================================================================== *)

Module StateService.
Import Runtime.

Inductive SearchStatus := PROCESSING | COMPLETED | FAILED.

(** [status.value]. *)
Definition value (status : SearchStatus) : string :=
  match status with
  | PROCESSING => "processing"
  | COMPLETED => "completed"
  | FAILED => "failed"
  end.

(** What a write of [state] under [search_id], the [n]-th file operation,
    leaves of the records and of the cut-off files: the record when it
    succeeds; no record and a cut-off file when it fails after the file
    was opened for writing; what there was when [open] itself fails. *)
Definition written_files (sys : Sys) (n : nat) (search_id : string)
    (state : SearchState.t) (records : gmap string SearchState.t)
  : gmap string SearchState.t :=
  if io_ok sys n then <[search_id := state]> records
  else if opened sys n then delete search_id records
  else records.

Definition written_cut_off (sys : Sys) (n : nat) (search_id : string)
    (cut : gset string) : gset string :=
  if io_ok sys n then cut ∖ {[search_id]}
  else if opened sys n then {[search_id]} ∪ cut
  else cut.

(** [_save_state]: [open(filepath, "w")], then [json.dump]; a failure of
    either is logged and swallowed. *)
Definition _save_state (sys : Sys) (search_id : string) (state : SearchState.t)
  : M unit := fun w =>
  (Ok tt,
   {| files := written_files sys (io_ops w) search_id state (files w);
      cut_off := written_cut_off sys (io_ops w) search_id (cut_off w);
      io_ops := S (io_ops w);
      clock_reads := clock_reads w; calls := calls w;
      background := background w |}).

(** [_load_state]: [None] when the file does not exist, when it holds no
    record (a cut-off file: [json.load] raises) and when reading it fails;
    the failures are logged and swallowed. Only the reading of a file that
    holds a record is an operation whose outcome is open. *)
Definition _load_state (sys : Sys) (search_id : string)
  : M (option SearchState.t) := fun w =>
  match files w !! search_id with
  | None => (Ok None, w)
  | Some state =>
      (Ok (if io_ok sys (io_ops w) then Some state else None),
       {| files := files w; cut_off := cut_off w; io_ops := S (io_ops w);
          clock_reads := clock_reads w; calls := calls w;
          background := background w |})
  end.

Definition initialize_search (sys : Sys) (search_id : string)
    (stores : list string) : M unit :=
  let stores_state :=
    map (fun store => {| StoreState.name := store;
                         StoreState.status := value PROCESSING;
                         StoreState.time_ms := 0 |}) stores in
  start ← now sys;
  _save_state sys search_id
    {| SearchState.search_id := search_id;
       SearchState.status := value PROCESSING;
       SearchState.start_time := start;
       SearchState.end_time := None;
       SearchState.elapsed_time_ms := 0;
       SearchState.stores_searched := stores_state;
       SearchState.attributes_recognized := [];
       SearchState.result_count := 0 |}.

Definition set_status (state : SearchState.t) (status : string) : SearchState.t :=
  {| SearchState.search_id := SearchState.search_id state;
     SearchState.status := status;
     SearchState.start_time := SearchState.start_time state;
     SearchState.end_time := SearchState.end_time state;
     SearchState.elapsed_time_ms := SearchState.elapsed_time_ms state;
     SearchState.stores_searched := SearchState.stores_searched state;
     SearchState.attributes_recognized := SearchState.attributes_recognized state;
     SearchState.result_count := SearchState.result_count state |}.

Definition set_end (state : SearchState.t) (end_ : Z) : SearchState.t :=
  {| SearchState.search_id := SearchState.search_id state;
     SearchState.status := SearchState.status state;
     SearchState.start_time := SearchState.start_time state;
     SearchState.end_time := Some end_;
     SearchState.elapsed_time_ms := elapsed_ms (SearchState.start_time state) end_;
     SearchState.stores_searched := SearchState.stores_searched state;
     SearchState.attributes_recognized := SearchState.attributes_recognized state;
     SearchState.result_count := SearchState.result_count state |}.

Definition set_stores (state : SearchState.t) (stores : list StoreState.t)
  : SearchState.t :=
  {| SearchState.search_id := SearchState.search_id state;
     SearchState.status := SearchState.status state;
     SearchState.start_time := SearchState.start_time state;
     SearchState.end_time := SearchState.end_time state;
     SearchState.elapsed_time_ms := SearchState.elapsed_time_ms state;
     SearchState.stores_searched := stores;
     SearchState.attributes_recognized := SearchState.attributes_recognized state;
     SearchState.result_count := SearchState.result_count state |}.

Definition set_attributes (state : SearchState.t)
    (attributes : list Models.AttributeRecognition) : SearchState.t :=
  {| SearchState.search_id := SearchState.search_id state;
     SearchState.status := SearchState.status state;
     SearchState.start_time := SearchState.start_time state;
     SearchState.end_time := SearchState.end_time state;
     SearchState.elapsed_time_ms := SearchState.elapsed_time_ms state;
     SearchState.stores_searched := SearchState.stores_searched state;
     SearchState.attributes_recognized := attributes;
     SearchState.result_count := SearchState.result_count state |}.

Definition set_result_count (state : SearchState.t) (count : Z) : SearchState.t :=
  {| SearchState.search_id := SearchState.search_id state;
     SearchState.status := SearchState.status state;
     SearchState.start_time := SearchState.start_time state;
     SearchState.end_time := SearchState.end_time state;
     SearchState.elapsed_time_ms := SearchState.elapsed_time_ms state;
     SearchState.stores_searched := SearchState.stores_searched state;
     SearchState.attributes_recognized := SearchState.attributes_recognized state;
     SearchState.result_count := count |}.

Definition is_terminal (status : SearchStatus) : bool :=
  match status with
  | COMPLETED | FAILED => true
  | PROCESSING => false
  end.

Definition update_search_status (sys : Sys) (search_id : string)
    (status : SearchStatus) : M unit :=
  loaded ← _load_state sys search_id;
  match loaded with
  | None => mret tt
  | Some state =>
      let state1 := set_status state (value status) in
      state2 ← (if is_terminal status
                then end_ ← now sys; mret (set_end state1 end_)
                else mret state1);
      _save_state sys search_id state2
  end.

(** The loop of [update_store_status]: the first entry named [store] gets
    the status and the time, and the loop breaks. *)
Fixpoint update_first (store : string) (status : string) (time_ms : Z)
    (entries : list StoreState.t) : list StoreState.t :=
  match entries with
  | [] => []
  | store_state :: rest =>
      if String.eqb (StoreState.name store_state) store then
        {| StoreState.name := StoreState.name store_state;
           StoreState.status := status;
           StoreState.time_ms := time_ms |} :: rest
      else store_state :: update_first store status time_ms rest
  end.

Definition update_store_status (sys : Sys) (search_id : string)
    (store : string) (status : SearchStatus) (time_ms : Z) : M unit :=
  loaded ← _load_state sys search_id;
  match loaded with
  | None => mret tt
  | Some state =>
      _save_state sys search_id
        (set_stores state
           (update_first store (value status) time_ms
              (SearchState.stores_searched state)))
  end.

Definition update_attributes (sys : Sys) (search_id : string)
    (attributes : list Models.AttributeRecognition) : M unit :=
  loaded ← _load_state sys search_id;
  match loaded with
  | None => mret tt
  | Some state => _save_state sys search_id (set_attributes state attributes)
  end.

Definition update_result_count (sys : Sys) (search_id : string) (count : Z)
  : M unit :=
  loaded ← _load_state sys search_id;
  match loaded with
  | None => mret tt
  | Some state => _save_state sys search_id (set_result_count state count)
  end.

(** [SearchStatusResponse]. *)
Record SearchStatusResponse := {
  resp_search_id : string;
  resp_status : string;
  resp_elapsed_time_ms : Z;
  resp_stores_searched : list StoreState.t;
  resp_attributes_recognized : list Models.AttributeRecognition;
  resp_result_count : Z;
  resp_timestamp : Z
}.

Definition get_search_status (sys : Sys) (search_id : string)
  : M (option SearchStatusResponse) :=
  loaded ← _load_state sys search_id;
  match loaded with
  | None => mret None
  | Some state =>
      timestamp ← now sys;
      mret (Some {| resp_search_id := SearchState.search_id state;
                    resp_status := SearchState.status state;
                    resp_elapsed_time_ms := SearchState.elapsed_time_ms state;
                    resp_stores_searched := SearchState.stores_searched state;
                    resp_attributes_recognized :=
                      SearchState.attributes_recognized state;
                    resp_result_count := SearchState.result_count state;
                    resp_timestamp := timestamp |})
  end.

(** The response [get_search_status] builds from a record. *)
Definition response_of (state : SearchState.t) (timestamp : Z)
  : SearchStatusResponse :=
  {| resp_search_id := SearchState.search_id state;
     resp_status := SearchState.status state;
     resp_elapsed_time_ms := SearchState.elapsed_time_ms state;
     resp_stores_searched := SearchState.stores_searched state;
     resp_attributes_recognized := SearchState.attributes_recognized state;
     resp_result_count := SearchState.result_count state;
     resp_timestamp := timestamp |}.

(** A status is terminal when it is ["completed"] or ["failed"]. *)
Definition terminal (status : string) : Prop :=
  status = "completed" \/ status = "failed".

(** The record of [search_id] exists and satisfies [R]. *)
Definition record_sat (R : SearchState.t -> Prop) (search_id : string)
    (w : World) : Prop :=
  exists state, files w !! search_id = Some state /\ R state.

(** The file of [search_id] holds no record since the last file operation,
    a write that failed after the file was opened. *)
Definition lost (sys : Sys) (search_id : string) (w : World) : Prop :=
  files w !! search_id = None /\ search_id ∈ cut_off w /\
  io_ok sys (io_ops w - 1) = false /\ opened sys (io_ops w - 1) = true.

(** The record of [search_id] satisfies [R], unless its file has just been
    cut off. *)
Definition tracked (sys : Sys) (R : SearchState.t -> Prop) (search_id : string)
    (w : World) : Prop :=
  record_sat R search_id w \/ lost sys search_id w.

(** [R] survives every rewriting the [update_*] methods do. *)
Definition stable (R : SearchState.t -> Prop) : Prop :=
  forall state, R state ->
    (forall s, R (set_status state s)) /\
    (forall e, R (set_end state e)) /\
    (forall n s t,
       R (set_stores state (update_first n s t (SearchState.stores_searched state)))) /\
    (forall a, R (set_attributes state a)) /\
    (forall c, R (set_result_count state c)).

(** What a read-modify-write of an existing record leaves: nothing but the
    counter when the read fails, and what the write of the rewritten
    record leaves otherwise. *)
Definition rewritten (sys : Sys) (search_id : string) (state' : SearchState.t)
    (reads : nat) (w : World) : World :=
  if io_ok sys (io_ops w) then
    {| files := written_files sys (S (io_ops w)) search_id state' (files w);
       cut_off := written_cut_off sys (S (io_ops w)) search_id (cut_off w);
       io_ops := S (S (io_ops w));
       clock_reads := (reads + clock_reads w)%nat;
       calls := calls w; background := background w |}
  else
    {| files := files w; cut_off := cut_off w; io_ops := S (io_ops w);
       clock_reads := clock_reads w;
       calls := calls w; background := background w |}.

(** The store names of a record. *)
Definition store_names (state : SearchState.t) : list string :=
  map StoreState.name (SearchState.stores_searched state).

End StateService.

(* ================================================================== *)
(** * The analyzer ([src/services/vision_service.py])                   *)
(* ================================================================== *)

Module VisionService.
Import Runtime.

(** [analyze_clothing_image]. [api_key] is [self.api_key]; [start_time] and
    [end_time] are the two clock readings; [request] is how the guarded
    block (reading the image, the HTTP request, [raise_for_status], parsing
    the answer) ends: with the parsed attributes, or with an exception. *)
Definition analyze_clothing_image (api_key : option string)
    (start_time end_time : Z) (request : Result (list Models.AttributeRecognition))
  : Result (list Models.AttributeRecognition * Z) :=
  if negb (truthy api_key) then Ok ([], 0%Z)
  else
    match request with
    | Ok attributes => Ok (attributes, elapsed_ms start_time end_time)
    | Raise e => Ok ([], elapsed_ms start_time end_time)
    end.

End VisionService.

(* ================================================================== *)
(** * The metrics repository ([src/repositories/search_repository.py])  *)
(* ================================================================== *)

Module SearchRepository.
Import Runtime.

(** The three methods [process_search] calls. [pool] tells whether the
    connection pool exists; [execute] is how the database statement ends.
    Each method catches every exception and answers with a boolean. *)
Definition save_store_search (pool : bool) (execute : Result unit) : Result bool :=
  if negb pool then Ok false
  else match execute with Ok _ => Ok true | Raise _ => Ok false end.

Definition save_search_metrics (pool : bool) (execute : Result unit)
  : Result bool :=
  if negb pool then Ok false
  else match execute with Ok _ => Ok true | Raise _ => Ok false end.

(** [save_attributes_batch]. The statements are those of
    [save_attribute_recognition], which catches its own exceptions and
    answers with a boolean the batch does not read: a statement that fails
    leaves the answer [True]. [transaction] is how the rest of the [try]
    block ends, the acquiring of the connection and the transaction
    around the loop. *)
Definition save_attributes_batch (pool : bool)
    (attributes : list Models.AttributeRecognition) (transaction : Result unit)
  : Result bool :=
  match attributes with
  | [] => Ok true
  | _ :: _ =>
      if negb pool then Ok false
      else match transaction with Ok _ => Ok true | Raise _ => Ok false end
  end.

End SearchRepository.

(* ================================================================== *)
(** * The scraper ([src/services/scraper_service.py])                   *)
(* ================================================================== *)

Module ScraperService.
Import Runtime.

(** [next((attr.value for attr in attributes if attr.name == key), ...)]:
    the value of the first attribute named [key], if there is one. *)
Definition first_value (key : string)
    (attributes : list Models.AttributeRecognition) : option string :=
  Models.value_
    <$> List.find (fun attr => String.eqb (Models.name attr) key) attributes.

(** [{"zalando": 3, "modivo": 2, "asos": 4}.get(store, 1)]. *)
Definition result_count (store : string) : nat :=
  if String.eqb store "zalando" then 3
  else if String.eqb store "modivo" then 2
  else if String.eqb store "asos" then 4
  else 1.

Definition alt_colors (color : string) : list string :=
  if negb (String.eqb color "blue") then ["blue"; "black"; "white"]
  else ["red"; "green"; "black"].

(** The body of the loop [for i in range(result_count)]. The similarity is
    the decimal the source writes; the rounding of the floating-point
    subtraction is not modelled and nothing below depends on it. *)
Definition product (store : string)
    (attributes : list Models.AttributeRecognition) (i : nat) : Models.Product :=
  let color := default "unknown" (first_value "color" attributes) in
  let pattern := default "solid" (first_value "pattern" attributes) in
  let cut := default "regular" (first_value "cut" attributes) in
  let brand := first_value "brand" attributes in
  let similarity := ((95 # 100) - inject_Z (Z.of_nat i) * (5 # 100))%Q in
  {| Models.title :=
       (if truthy brand then default EmptyString brand else "Brand")
       +:+ " " +:+ color +:+ " " +:+ pattern +:+ " " +:+ cut +:+ " shirt";
     Models.store := store;
     Models.url := "https://" +:+ store +:+ ".example.com/product" +:+ pretty i;
     Models.similarity_score := similarity;
     Models.attributes :=
       {| Models.color := Some color; Models.pattern := Some pattern;
          Models.cut := Some cut; Models.brand := brand |};
     Models.alternatives :=
       map (fun alt_color =>
              {| Models.alt_color := alt_color;
                 Models.alt_url :=
                   "https://" +:+ store +:+ ".example.com/product" +:+ pretty i
                   +:+ "/color/" +:+ alt_color |})
           (take 2 (alt_colors color)) |}.

Definition _simulate_search_results (store : string)
    (attributes : list Models.AttributeRecognition) : list Models.Product :=
  map (product store attributes) (seq 0 (result_count store)).

(** [search_store]: after the simulated delay, the simulated results. *)
Definition search_store (store : string)
    (attributes : list Models.AttributeRecognition) (search_id : string)
  : list Models.Product :=
  _simulate_search_results store attributes.

(** [search_multiple_stores]: the results gathered in the order of
    [stores], then the dictionary comprehension over [zip(stores, results)],
    a later entry replacing an earlier one with the same key. *)
Definition search_multiple_stores (stores : list string)
    (attributes : list Models.AttributeRecognition) (search_id : string)
  : gmap string (list Models.Product) :=
  let results := map (fun store => search_store store attributes search_id)
                     stores in
  fold_left (fun d sr => <[fst sr := snd sr]> d) (combine stores results) ∅.

End ScraperService.

(* ================================================================== *)
(** * The search pipeline ([src/services/search_service.py])            *)
(* ================================================================== *)

Module SearchService.
Import Runtime StateService.

(** The collaborators of one search, by the way each of their calls ends.
    [SearchService] receives them by injection (the tests inject mocks), so
    a call may end in any way: it returns or it raises.
    [search_store_result i store] is the outcome of the [i]-th call of
    [scraper_service.search_store], made for [store];
    [save_store_search_result i performed] that of the call of
    [repository.save_store_search] in iteration [i]. *)
Record Env := {
  sys : Sys;
  uuid4 : string;
  save_image_result : Result (option string);
  analyze_result : Result (list Models.AttributeRecognition * Z);
  search_store_result : nat -> string -> Result (list Models.Product);
  save_attributes_batch_result : Result bool;
  save_store_search_result : nat -> bool -> Result bool;
  save_search_metrics_result : Result bool
}.

Definition valid_types : list string := ["image/jpeg"; "image/png"].

Definition in_types (content_type : option string) : bool :=
  match content_type with
  | Some t => existsb (String.eqb t) valid_types
  | None => false
  end.

(** [len(content) / (1024 * 1024) > 10]: the division by a power of two is
    exact, so the test is one on the length. *)
Definition too_large (content : list Byte.byte) : bool :=
  (10 * (1024 * 1024) <? Z.of_nat (length content))%Z.

Definition validate_image (image : Models.UploadFile) : bool * string :=
  if negb (in_types (Models.content_type image)) then
    (false, "Invalid image format. Only JPEG/PNG accepted.")
  else
    match Models.read image with
    | Some content =>
        if too_large content then
          (false, "Image too large. Maximum size is 10 MB.")
        else (true, EmptyString)
    | None => (false, "Error processing image file.")
    end.

(** [save_image]. [s3_bucket] is [self.s3_bucket]; [stored] tells whether
    the upload (or the local write) went through. Every failure is caught
    and answered with [None]. *)
Definition save_image (s3_bucket : option string) (stored : bool)
    (image : Models.UploadFile) (search_id : string)
  : Result (option string) :=
  let ext := if decide (Models.content_type image = Some "image/jpeg")
             then "jpg" else "png" in
  let filename := search_id +:+ "." +:+ ext in
  if negb stored then Ok None
  else
    match s3_bucket with
    | Some (String c b) =>
        Ok (Some ("https://" +:+ String c b +:+ ".s3.amazonaws.com/uploads/" +:+ filename))
    | _ => Ok (Some ("temp/" +:+ filename))
    end.

(** The [except] block of the loop body. *)
Definition mark_store_failed (env : Env) (search_id : string) (i : nat)
    (store_name : string) : M unit :=
  log_call (CallUpdateStoreStatus store_name (value FAILED) 0);;
  update_store_status (sys env) search_id store_name FAILED 0;;
  log_call (CallSaveStoreSearch store_name false);;
  _ ← lift (save_store_search_result env i false);
  mret tt.

(** The loop [for store in stores] of [process_search], from iteration [i]
    on; the result is [total_results]. ([store_results] is written and
    never read; it is left out.) *)
Fixpoint search_stores (env : Env) (search_id : string)
    (attributes : list Models.AttributeRecognition) (start_search_time : Z)
    (i : nat) (stores : list Models.StoreEnum) (total_results : Z) : M Z :=
  match stores with
  | [] => mret total_results
  | store :: rest =>
      let store_name := Models.value store in
      searched ← attempt (
        log_call (CallUpdateStoreStatus store_name (value PROCESSING) 0);;
        update_store_status (sys env) search_id store_name PROCESSING 0;;
        log_call (CallSearchStore store_name attributes);;
        lift (search_store_result env i store_name));
      total_results' ←
        match searched with
        | Ok products =>
            let total_results1 := (total_results + Z.of_nat (length products))%Z in
            recorded ← attempt (
              t ← now (sys env);
              let store_search_time_ms := elapsed_ms start_search_time t in
              log_call (CallUpdateStoreStatus store_name (value COMPLETED)
                          store_search_time_ms);;
              update_store_status (sys env) search_id store_name COMPLETED
                store_search_time_ms;;
              log_call (CallSaveStoreSearch store_name true);;
              _ ← lift (save_store_search_result env i true);
              mret tt);
            match recorded with
            | Ok _ => mret total_results1
            | Raise _ =>
                mark_store_failed env search_id i store_name;;
                mret total_results1
            end
        | Raise _ =>
            mark_store_failed env search_id i store_name;;
            mret total_results
        end;
      search_stores env search_id attributes start_search_time (S i) rest
        total_results'
  end.

(** What [process_search] does after the image was saved. *)
Definition analyze_and_search (env : Env) (stores : list Models.StoreEnum)
    (search_id : string) (image_url : string) : M unit :=
  log_call (CallAnalyze image_url);;
  '(attributes, analysis_time_ms) ← lift (analyze_result env);
  log_call (CallUpdateAttributes attributes);;
  update_attributes (sys env) search_id attributes;;
  log_call (CallSaveAttributesBatch analysis_time_ms);;
  _ ← lift (save_attributes_batch_result env);
  start_search_time ← now (sys env);
  total_results ← search_stores env search_id attributes start_search_time
                    0 stores 0;
  _ ← now (sys env);
  log_call (CallUpdateResultCount total_results);;
  update_result_count (sys env) search_id total_results;;
  log_call (CallUpdateSearchStatus (value COMPLETED));;
  update_search_status (sys env) search_id COMPLETED;;
  _ ← now (sys env);
  log_call (CallSaveSearchMetrics total_results);;
  _ ← lift (save_search_metrics_result env);
  mret tt.

(** The [try] block of [process_search]. *)
Definition process_search_body (env : Env) (image : Models.UploadFile)
    (stores : list Models.StoreEnum) (search_id : string) : M unit :=
  let store_names := map Models.value stores in
  log_call (CallInitializeSearch search_id store_names);;
  initialize_search (sys env) search_id store_names;;
  log_call (CallSaveImage search_id);;
  image_url ← lift (save_image_result env);
  if negb (truthy image_url) then
    log_call (CallUpdateSearchStatus (value FAILED));;
    update_search_status (sys env) search_id FAILED
  else analyze_and_search env stores search_id (default EmptyString image_url).

Definition process_search (env : Env) (image : Models.UploadFile)
    (stores : list Models.StoreEnum) (search_id : string) : M unit :=
  _ ← now (sys env);
  try_except (process_search_body env image stores search_id)
    (fun e =>
       log_call (CallUpdateSearchStatus (value FAILED));;
       update_search_status (sys env) search_id FAILED).

(** [get_timestamp]. *)
Definition get_timestamp (env : Env) : M Z := now (sys env).

(** The last thing done to the state files was a write that cut the file
    of the record off, or a call of [update_search_status] with a terminal
    status on an existing record. *)
Definition settled (env : Env) (search_id : string) (w : World) : Prop :=
  lost (sys env) search_id w \/
  exists w1 status,
    is_terminal status = true /\
    record_sat (fun _ => True) search_id w1 /\
    files w = files (snd (update_search_status (sys env) search_id status w1)) /\
    cut_off w = cut_off (snd (update_search_status (sys env) search_id status w1)) /\
    io_ops w = io_ops (snd (update_search_status (sys env) search_id status w1)).

(** What the record shows: name and status of each entry. *)
Definition view (entries : list StoreState.t) : list (string * string) :=
  map (fun e => (StoreState.name e, StoreState.status e)) entries.

(** [update_first], on what the record shows. *)
Fixpoint set_first (store status : string) (v : list (string * string))
  : list (string * string) :=
  match v with
  | [] => []
  | (n, s) :: rest =>
      if String.eqb n store then (n, status) :: rest
      else (n, s) :: set_first store status rest
  end.

(** The status the record shows for a store: that of the first entry with
    its name. *)
Definition shown (store : string) (state : SearchState.t) : option string :=
  snd <$> List.find (fun e => String.eqb (fst e) store)
                    (view (SearchState.stores_searched state)).

(** How the [i]-th store search ended, as a sub-status, and how many
    products it returned. *)
Definition verdict (env : Env) (i : nat) (store_name : string) : string :=
  match search_store_result env i store_name with
  | Ok _ => value COMPLETED
  | Raise _ => value FAILED
  end.

Definition found (env : Env) (i : nat) (store_name : string) : Z :=
  match search_store_result env i store_name with
  | Ok products => Z.of_nat (length products)
  | Raise _ => 0
  end.

(** Products returned by the searches from iteration [i] on. *)
Fixpoint tally (env : Env) (i : nat) (stores : list Models.StoreEnum) : Z :=
  match stores with
  | [] => 0
  | store :: rest => (found env i (Models.value store) + tally env (S i) rest)%Z
  end.

(** What the record shows after the iterations from [i] on. *)
Fixpoint verdicts (env : Env) (i : nat) (stores : list Models.StoreEnum)
    (v : list (string * string)) : list (string * string) :=
  match stores with
  | [] => v
  | store :: rest =>
      verdicts env (S i) rest
        (set_first (Models.value store) (verdict env i (Models.value store)) v)
  end.

(** The verdict of the last search made for [store] from iteration [i] on
    ([acc] when there is none). *)
Fixpoint last_verdict (env : Env) (i : nat) (stores : list Models.StoreEnum)
    (store : string) (acc : option string) : option string :=
  match stores with
  | [] => acc
  | s :: rest =>
      last_verdict env (S i) rest store
        (if String.eqb (Models.value s) store
         then Some (verdict env i store) else acc)
  end.

(** A call without its time. *)
Definition untimed (c : Call) : Call :=
  match c with
  | CallUpdateStoreStatus store status _ => CallUpdateStoreStatus store status 0
  | CallSaveAttributesBatch _ => CallSaveAttributesBatch 0
  | _ => c
  end.

(** The calls of iteration [i], without their times. *)
Definition iteration_calls (env : Env)
    (attributes : list Models.AttributeRecognition) (i : nat)
    (store_name : string) : list Call :=
  [ CallUpdateStoreStatus store_name (value PROCESSING) 0;
    CallSearchStore store_name attributes;
    CallUpdateStoreStatus store_name (verdict env i store_name) 0;
    CallSaveStoreSearch store_name
      (match search_store_result env i store_name with
       | Ok _ => true | Raise _ => false end) ].

Fixpoint loop_calls (env : Env) (attributes : list Models.AttributeRecognition)
    (i : nat) (stores : list Models.StoreEnum) : list Call :=
  match stores with
  | [] => []
  | store :: rest =>
      iteration_calls env attributes i (Models.value store)
      ++ loop_calls env attributes (S i) rest
  end.

(** The world holds the record [state] for [search_id], and the calls made
    so far are [made], times apart. *)
Definition at_ (search_id : string) (state : SearchState.t) (made : list Call)
    (w : World) : Prop :=
  files w !! search_id = Some state /\ map untimed (calls w) = made.

Definition is_search (c : Call) : bool :=
  match c with
  | CallSearchStore _ _ => true
  | _ => false
  end.

(** The calls of a search that completes, times apart. *)
Definition completed_calls (env : Env) (search_id : string)
    (stores : list Models.StoreEnum) (image_url : string)
    (attributes : list Models.AttributeRecognition) : list Call :=
  [ CallInitializeSearch search_id (map Models.value stores);
    CallSaveImage search_id;
    CallAnalyze image_url;
    CallUpdateAttributes attributes;
    CallSaveAttributesBatch 0 ]
  ++ loop_calls env attributes 0 stores
  ++ [ CallUpdateResultCount (tally env 0 stores);
       CallUpdateSearchStatus (value COMPLETED);
       CallSaveSearchMetrics (tally env 0 stores) ].

(** One entry per store, with the verdict of its search. *)
Fixpoint verdict_view (env : Env) (i : nat) (stores : list Models.StoreEnum)
  : list (string * string) :=
  match stores with
  | [] => []
  | store :: rest =>
      (Models.value store, verdict env i (Models.value store))
      :: verdict_view env (S i) rest
  end.

(** The products returned by the stores whose entry is ["completed"]: the
    [i]-th entry counts what the [i]-th search returned. *)
Fixpoint completed_sum (env : Env) (i : nat) (entries : list StoreState.t) : Z :=
  match entries with
  | [] => 0
  | e :: rest =>
      ((if String.eqb (StoreState.status e) (value COMPLETED)
        then found env i (StoreState.name e) else 0)
       + completed_sum env (S i) rest)%Z
  end.

(** The same collaborators, with other outcomes of the store searches. *)
Definition with_searches (env : Env)
    (f : nat -> string -> Result (list Models.Product)) : Env :=
  {| sys := sys env;
     uuid4 := uuid4 env;
     save_image_result := save_image_result env;
     analyze_result := analyze_result env;
     search_store_result := f;
     save_attributes_batch_result := save_attributes_batch_result env;
     save_store_search_result := save_store_search_result env;
     save_search_metrics_result := save_search_metrics_result env |}.

(** The record of a search once [process_search] has run, and the status
    it shows for a store. *)
Definition final_record (env : Env) (image : Models.UploadFile)
    (stores : list Models.StoreEnum) (search_id : string) (w : World)
  : option SearchState.t :=
  files (snd (process_search env image stores search_id w)) !! search_id.

Definition final_shown (env : Env) (image : Models.UploadFile)
    (stores : list Models.StoreEnum) (search_id : string) (w : World)
    (store : string) : option string :=
  final_record env image stores search_id w ≫= shown store.

(** The calls [process_search] made, times apart. *)
Definition final_calls (env : Env) (image : Models.UploadFile)
    (stores : list Models.StoreEnum) (search_id : string) (w : World)
  : list Call :=
  map untimed (calls (snd (process_search env image stores search_id w))).

(** The repository answers every call, as [SearchRepository] does. *)
Definition repository_answers (env : Env) : Prop :=
  (exists b, save_attributes_batch_result env = Ok b) /\
  (forall i performed, exists b, save_store_search_result env i performed = Ok b) /\
  (exists b, save_search_metrics_result env = Ok b).

(** Every operation on the state files succeeds. *)
Definition disk_works (env : Env) : Prop :=
  forall n, io_ok (sys env) n = true.

(** [SearchService.get_search_status]. *)
Definition get_search_status (env : Env) (search_id : string)
  : M (option SearchStatusResponse) :=
  StateService.get_search_status (sys env) search_id.

(** The record [initialize_search] writes at the clock reading [start]. *)
Definition initial_record (search_id : string) (stores : list Models.StoreEnum)
    (start : Z) : SearchState.t :=
  {| SearchState.search_id := search_id;
     SearchState.status := value PROCESSING;
     SearchState.start_time := start;
     SearchState.end_time := None;
     SearchState.elapsed_time_ms := 0;
     SearchState.stores_searched :=
       map (fun store => {| StoreState.name := store;
                            StoreState.status := value PROCESSING;
                            StoreState.time_ms := 0 |})
           (map Models.value stores);
     SearchState.attributes_recognized := [];
     SearchState.result_count := 0 |}.

(** The image is saved and the analyzer answers. *)
Definition analysed (env : Env) : Prop :=
  exists image_url attributes analysis_time_ms,
    save_image_result env = Ok (Some image_url) /\
    truthy (Some image_url) = true /\
    analyze_result env = Ok (attributes, analysis_time_ms).

(** The calls of a search that fails, times apart: the analyzer is called
    when the image was saved, and no store is searched. *)
Definition analyze_calls (env : Env) : list Call :=
  match save_image_result env with
  | Ok image_url =>
      if truthy image_url then [CallAnalyze (default EmptyString image_url)]
      else []
  | Raise _ => []
  end.

Definition failed_calls (env : Env) (search_id : string)
    (stores : list Models.StoreEnum) : list Call :=
  [ CallInitializeSearch search_id (map Models.value stores);
    CallSaveImage search_id ]
  ++ analyze_calls env
  ++ [ CallUpdateSearchStatus (value FAILED) ].

End SearchService.

(* ================================================================== *)
(** * The submission endpoint ([src/routers/searches.py])               *)
(* ================================================================== *)

Module Router.
Import Runtime.

Definition add_task (task : Task) : M unit := fun w =>
  (Ok tt, {| files := files w; cut_off := cut_off w; io_ops := io_ops w;
             clock_reads := clock_reads w; calls := calls w;
             background := background w ++ [task] |}).

(** [create_search]. [stores] is the optional form field. *)
Definition create_search (env : SearchService.Env) (image : Models.UploadFile)
    (stores : option (list Models.StoreEnum)) : M Models.SearchResponse :=
  let '(is_valid, error_message) := SearchService.validate_image image in
  if negb is_valid then lift (Raise (HTTPException 400 error_message))
  else
    let search_id := SearchService.uuid4 env in
    let stores :=
      match stores with
      | Some (s :: l) => s :: l
      | _ => Models.all_stores
      end in
    add_task {| task_image := image; task_stores := stores;
                task_search_id := search_id |};;
    timestamp ← SearchService.get_timestamp env;
    mret {| Models.search_id := search_id;
            Models.status := "processing";
            Models.estimated_time_seconds := 10;
            Models.timestamp := timestamp |}.

(** The answer FastAPI sends for the route ([status_code=202]). *)
Inductive HttpResponse :=
| Json (status_code : Z) (body : Models.SearchResponse)
| Error (status_code : Z) (detail : string).

Definition respond (r : Result Models.SearchResponse) : HttpResponse :=
  match r with
  | Ok body => Json 202 body
  | Raise (HTTPException status_code detail) => Error status_code detail
  | Raise (Exception _) => Error 500 "Internal Server Error"
  end.

(** The scheduled tasks run once the response is sent. *)
Fixpoint run_tasks (env : SearchService.Env) (tasks : list Task) : M unit :=
  match tasks with
  | [] => mret tt
  | task :: rest =>
      attempt (SearchService.process_search env (task_image task)
                 (task_stores task) (task_search_id task));;
      run_tasks env rest
  end.

(** [get_search_status], the route [GET /searches/{search_id}]. *)
Definition get_search_status (env : SearchService.Env) (search_id : string)
  : M StateService.SearchStatusResponse :=
  status ← SearchService.get_search_status env search_id;
  match status with
  | None =>
      lift (Raise (HTTPException 404
                     ("Search with ID " +:+ search_id +:+ " not found")))
  | Some status => mret status
  end.

End Router.

(* ================================================================== *)
(** * Scenarios                                                         *)
(* ================================================================== *)

Module Scenario.
Import Runtime.

(** A disk that works and a clock that advances one second per reading. *)
Definition reliable : Sys :=
  {| io_ok := fun _ => true; opened := fun _ => false;
     now_us := fun n => (Z.of_nat n * 1000000)%Z |}.

(** The record [initialize_search] writes for the stores zalando and asos
    at second 0. *)
Definition fresh_record : SearchState.t :=
  {| SearchState.search_id := "id-1";
     SearchState.status := "processing";
     SearchState.start_time := 0;
     SearchState.end_time := None;
     SearchState.elapsed_time_ms := 0;
     SearchState.stores_searched :=
       [ {| StoreState.name := "zalando"; StoreState.status := "processing";
            StoreState.time_ms := 0 |};
         {| StoreState.name := "asos"; StoreState.status := "processing";
            StoreState.time_ms := 0 |} ];
     SearchState.attributes_recognized := [];
     SearchState.result_count := 0 |}.

Definition fresh_world : World :=
  snd (StateService.initialize_search reliable "id-1" ["zalando"; "asos"]
         empty_world).

(** A disk whose [k]-th operation fails, a write at [open]. *)
Definition failing_at (k : nat) : Sys :=
  {| io_ok := fun n => negb (Nat.eqb n k);
     opened := fun _ => false;
     now_us := fun n => (Z.of_nat n * 1000000)%Z |}.


Definition jpeg : Models.UploadFile :=
  {| Models.filename := "shirt.jpg";
     Models.content_type := Some "image/jpeg";
     Models.read := Some [Byte.xff; Byte.xd8; Byte.xff] |}.

Definition pdf : Models.UploadFile :=
  {| Models.filename := "shirt.pdf";
     Models.content_type := Some "application/pdf";
     Models.read := Some [Byte.x25] |}.

Definition a_product (store : string) : Models.Product :=
  {| Models.title := "Brand red solid slim shirt";
     Models.store := store;
     Models.url := "https://example.com/product";
     Models.similarity_score := 95 # 100;
     Models.attributes :=
       {| Models.color := Some "red"; Models.pattern := Some "solid";
          Models.cut := Some "slim"; Models.brand := None |};
     Models.alternatives := [] |}.

(** As many products as [_simulate_search_results] returns for a store. *)
Definition simulated (store : string) : list Models.Product :=
  repeat (a_product store)
    (if String.eqb store "zalando" then 3
     else if String.eqb store "modivo" then 2
     else if String.eqb store "asos" then 4
     else 1).

Definition red : list Models.AttributeRecognition :=
  [ {| Models.name := "color"; Models.value_ := "red";
       Models.confidence := 95 # 100 |} ].

(** The services of the repository, given the disk and clock and the
    outcomes of the store searches: images are saved locally, the analyzer
    has a key and its request succeeds after 1.5 s, the repository has no
    database connection. *)
Definition services (sys : Sys)
    (searches : nat -> string -> Result (list Models.Product))
  : SearchService.Env :=
  {| SearchService.sys := sys;
     SearchService.uuid4 := "id-1";
     SearchService.save_image_result :=
       SearchService.save_image None true jpeg "id-1";
     SearchService.analyze_result :=
       VisionService.analyze_clothing_image (Some "sk-test") 0 1500000 (Ok red);
     SearchService.search_store_result := searches;
     SearchService.save_attributes_batch_result :=
       SearchRepository.save_attributes_batch false red (Ok tt);
     SearchService.save_store_search_result :=
       fun _ _ => SearchRepository.save_store_search false (Ok tt);
     SearchService.save_search_metrics_result :=
       SearchRepository.save_search_metrics false (Ok tt) |}.

(** Every store search returns the simulated products. *)
Definition all_found : nat -> string -> Result (list Models.Product) :=
  fun _ store => Ok (simulated store).

(** The second store search raises. *)
Definition second_raises : nat -> string -> Result (list Models.Product) :=
  fun i store =>
    if Nat.eqb i 1 then Raise (Exception "connection reset")
    else Ok (simulated store).

(** The first store search raises. *)
Definition first_raises : nat -> string -> Result (list Models.Product) :=
  fun i store =>
    if Nat.eqb i 0 then Raise (Exception "connection reset")
    else Ok (simulated store).

(** An injected repository whose [save_store_search] raises when it is
    called with [search_performed = performed], and answers otherwise. *)
Definition save_raises_for (performed : bool) : nat -> bool -> Result bool :=
  fun _ search_performed =>
    if Bool.eqb search_performed performed
    then Raise (Exception "connection lost")
    else Ok true.

(** The same collaborators, with another [save_store_search]. *)
Definition with_store_records (env : SearchService.Env)
    (f : nat -> bool -> Result bool) : SearchService.Env :=
  {| SearchService.sys := SearchService.sys env;
     SearchService.uuid4 := SearchService.uuid4 env;
     SearchService.save_image_result := SearchService.save_image_result env;
     SearchService.analyze_result := SearchService.analyze_result env;
     SearchService.search_store_result := SearchService.search_store_result env;
     SearchService.save_attributes_batch_result :=
       SearchService.save_attributes_batch_result env;
     SearchService.save_store_search_result := f;
     SearchService.save_search_metrics_result :=
       SearchService.save_search_metrics_result env |}.

(** A limiter with a limit of two requests in ten seconds for anonymous
    clients. *)
Definition two_in_ten : RateLimiter.Config :=
  {| RateLimiter.anonymous_limit := 2; RateLimiter.authenticated_limit := 3;
     RateLimiter.window_size := 10; RateLimiter.block_time := 5 |}.

(** The analyzer has no API key. *)
Definition without_key (env : SearchService.Env) : SearchService.Env :=
  {| SearchService.sys := SearchService.sys env;
     SearchService.uuid4 := SearchService.uuid4 env;
     SearchService.save_image_result := SearchService.save_image_result env;
     SearchService.analyze_result :=
       VisionService.analyze_clothing_image None 0 1500000 (Ok red);
     SearchService.search_store_result := SearchService.search_store_result env;
     SearchService.save_attributes_batch_result :=
       SearchService.save_attributes_batch_result env;
     SearchService.save_store_search_result :=
       SearchService.save_store_search_result env;
     SearchService.save_search_metrics_result :=
       SearchService.save_search_metrics_result env |}.

End Scenario.

(* ================================================================== *)
(** * The services as the application builds them                       *)
(* ================================================================== *)

Module App.
Import Runtime.

(** What the application does not decide in one search: the disk and the
    clock, whether the local write of the image goes through, the API key
    of the analyzer, the two clock readings of the analysis and how its
    request ends, whether the repository has a connection pool, how the
    transaction of the attributes ends and how the statements of the
    store searches and of the metrics end. *)
Record Outside := {
  out_sys : Sys;
  stored : bool;
  api_key : option string;
  analysis_start : Z;
  analysis_end : Z;
  vision_request : Result (list Models.AttributeRecognition);
  pool : bool;
  attributes_transaction : Result unit;
  execute_store : nat -> bool -> Result unit;
  execute_metrics : Result unit
}.

(** What the analyzer answers. *)
Definition analysis (o : Outside)
  : Result (list Models.AttributeRecognition * Z) :=
  VisionService.analyze_clothing_image (api_key o) (analysis_start o)
    (analysis_end o) (vision_request o).

Definition recognized (o : Outside) : list Models.AttributeRecognition :=
  match analysis o with
  | Ok (attributes, _) => attributes
  | Raise _ => []
  end.

(** [get_search_service]: no bucket, the default analyzer, state store and
    scraper, and the repository; seen from the search of [image] under
    [search_id]. *)
Definition get_search_service (o : Outside) (image : Models.UploadFile)
    (search_id : string) : SearchService.Env :=
  {| SearchService.sys := out_sys o;
     SearchService.uuid4 := search_id;
     SearchService.save_image_result :=
       SearchService.save_image None (stored o) image search_id;
     SearchService.analyze_result := analysis o;
     SearchService.search_store_result :=
       fun _ store => Ok (ScraperService.search_store store (recognized o) search_id);
     SearchService.save_attributes_batch_result :=
       SearchRepository.save_attributes_batch (pool o) (recognized o)
         (attributes_transaction o);
     SearchService.save_store_search_result :=
       fun i performed =>
         SearchRepository.save_store_search (pool o) (execute_store o i performed);
     SearchService.save_search_metrics_result :=
       SearchRepository.save_search_metrics (pool o) (execute_metrics o) |}.

(** The products the simulated scraper returns for a list of stores. *)
Definition simulated_total (stores : list Models.StoreEnum) : Z :=
  Z.of_nat (list_sum (map (fun s => ScraperService.result_count (Models.value s))
                          stores)).

(** A development machine: the disk works, the image is written, there is
    no API key and no database. *)
Definition development : Outside :=
  {| out_sys := Scenario.reliable;
     stored := true;
     api_key := None;
     analysis_start := 0;
     analysis_end := 0;
     vision_request := Raise (Exception "no request is made");
     pool := false;
     attributes_transaction := Raise (Exception "no pool");
     execute_store := fun _ _ => Raise (Exception "no pool");
     execute_metrics := Raise (Exception "no pool") |}.

(** The same machine when the image cannot be written. *)
Definition unwritable : Outside :=
  {| out_sys := Scenario.reliable;
     stored := false;
     api_key := None;
     analysis_start := 0;
     analysis_end := 0;
     vision_request := Raise (Exception "no request is made");
     pool := false;
     attributes_transaction := Raise (Exception "no pool");
     execute_store := fun _ _ => Raise (Exception "no pool");
     execute_metrics := Raise (Exception "no pool") |}.

End App.

(* ================================================================== *)
(** * Lemmas on the helpers                                             *)
(* ================================================================== *)

Lemma Qltb_lt (a b : Q) : Qltb a b = true <-> (a < b)%Q.
Proof.
  unfold Qltb. rewrite negb_true_iff. split.
  - intros H. destruct (Qlt_le_dec a b) as [Hlt|Hle]; [exact Hlt|].
    apply Qle_bool_iff in Hle. congruence.
  - intros H. destruct (Qle_bool b a) eqn:E; [|reflexivity].
    apply Qle_bool_iff in E. lra.
Qed.

Lemma Qltb_ge (a b : Q) : Qltb a b = false <-> (b <= a)%Q.
Proof.
  unfold Qltb. rewrite negb_false_iff. apply Qle_bool_iff.
Qed.

Lemma count_app {A} (p : A -> bool) (l1 l2 : list A) :
  count p (l1 ++ l2) = (count p l1 + count p l2)%nat.
Proof. unfold count. rewrite List.filter_app, length_app. reflexivity. Qed.

Lemma count_le {A} (p q : A -> bool) (l : list A) :
  (forall x, In x l -> p x = true -> q x = true) ->
  (count p l <= count q l)%nat.
Proof.
  unfold count. induction l as [|x l IH]; intros H; simpl; [lia|].
  assert (IH' : (length (List.filter p l) <= length (List.filter q l))%nat).
  { apply IH. intros y Hy. apply H. right. exact Hy. }
  destruct (p x) eqn:Ep.
  - rewrite (H x (or_introl eq_refl) Ep). simpl. lia.
  - destruct (q x); simpl; lia.
Qed.

Lemma count_filter {A} (p q : A -> bool) (l : list A) :
  count p (List.filter q l) = count (fun x => q x && p x) l.
Proof.
  unfold count. induction l as [|x l IH]; simpl; [reflexivity|].
  destruct (q x); simpl; [destruct (p x); simpl; congruence | exact IH].
Qed.

Lemma count_map {A B} (f : A -> B) (p : B -> bool) (l : list A) :
  count p (map f l) = count (fun x => p (f x)) l.
Proof.
  unfold count. induction l as [|x l IH]; simpl; [reflexivity|].
  destruct (p (f x)); simpl; congruence.
Qed.

Lemma count_ext {A} (p q : A -> bool) (l : list A) :
  (forall x, In x l -> p x = q x) -> count p l = count q l.
Proof.
  intros H. apply Nat.le_antisymm; apply count_le; intros x Hx E;
    [rewrite <- (H x Hx) | rewrite (H x Hx)]; exact E.
Qed.

(** The last element of a list satisfying [p], if any. *)
Lemma last_satisfying {A} (p : A -> bool) (l : list A) :
  count p l = 0%nat \/
  exists pre e post, l = pre ++ e :: post /\ p e = true /\ count p post = 0%nat.
Proof.
  induction l as [|x l IH] using rev_ind; [left; reflexivity|].
  destruct (p x) eqn:Ex.
  - right. exists l, x, []. repeat split; [exact Ex].
  - destruct IH as [H0 | (pre & e & post & -> & He & Hpost)].
    + left. rewrite count_app, H0. unfold count. simpl. rewrite Ex. reflexivity.
    + right. exists pre, e, (post ++ [x]). split; [|split; [exact He|]].
      * rewrite <- app_assoc. reflexivity.
      * rewrite count_app, Hpost. unfold count. simpl. rewrite Ex. reflexivity.
Qed.

(* ================================================================== *)
(** * Rate limiter: the sliding window                                  *)
(* ================================================================== *)

Section RateLimiterWindow.
Import RateLimiter.

Variable cfg : Config.

Lemma dd_get_value (d : gmap string (list Q)) (k : string) :
  fst (dd_get d k) = default [] (d !! k).
Proof. unfold dd_get. destruct (d !! k); reflexivity. Qed.

Lemma dd_get_lookup (d : gmap string (list Q)) (k k' : string) :
  default [] (snd (dd_get d k) !! k') = default [] (d !! k').
Proof.
  unfold dd_get. destruct (d !! k) eqn:E; simpl; [reflexivity|].
  destruct (decide (k = k')) as [<-|Hne].
  - rewrite lookup_insert_eq, E. reflexivity.
  - rewrite lookup_insert_ne by exact Hne. reflexivity.
Qed.

Lemma blocked_records (st : State) (ip : string) (now : Q) :
  request_records (snd (_is_client_blocked st ip now)) = request_records st.
Proof.
  unfold _is_client_blocked. destruct (blocked_clients st !! ip); [|reflexivity].
  destruct (Qle_bool q now); reflexivity.
Qed.

(** What [_check_rate_limit] answers and leaves in [request_records]. *)
Lemma check_spec (st : State) (ip : string) (req : Request) (now : Q) :
  let pruned := prune (now - inject_Z (window_size cfg)) (records_of st ip) in
  let '((exceeded, retry), st') := _check_rate_limit cfg st ip req now in
  exceeded = (limit_for cfg (_is_authenticated req) <=? Z.of_nat (length pruned))%Z /\
  retry = (if exceeded then block_time cfg else 0%Z) /\
  (forall ip', records_of st' ip' =
               if decide (ip = ip') then pruned else records_of st ip') /\
  blocked_clients st' =
    (if exceeded then <[ip := (now + inject_Z (block_time cfg))%Q]> (blocked_clients st)
     else blocked_clients st).
Proof.
  unfold _check_rate_limit, records_of.
  set (ws := (now - inject_Z (window_size cfg))%Q).
  set (r1 := match request_records st !! ip with
             | Some l => <[ip := prune ws l]> (request_records st)
             | None => request_records st end).
  assert (H1 : forall ip', default [] (r1 !! ip') =
      if decide (ip = ip') then prune ws (default [] (request_records st !! ip))
      else default [] (request_records st !! ip')).
  { intros ip'. subst r1. destruct (request_records st !! ip) eqn:E.
    - destruct (decide (ip = ip')) as [<-|Hne].
      + rewrite lookup_insert_eq. reflexivity.
      + rewrite lookup_insert_ne by exact Hne. reflexivity.
    - destruct (decide (ip = ip')) as [<-|Hne]; [rewrite E|]; reflexivity. }
  pose proof (dd_get_value r1 ip) as Hv. pose proof (dd_get_lookup r1 ip) as Hl.
  destruct (dd_get r1 ip) as [l r2]. simpl in Hv, Hl. simpl.
  assert (Hlen : l = prune ws (default [] (request_records st !! ip))).
  { rewrite Hv, H1. destruct (decide (ip = ip)); congruence. }
  rewrite <- Hlen.
  destruct (limit_for cfg (_is_authenticated req) <=? Z.of_nat (length l))%Z;
    simpl; (repeat split; [intros ip'; rewrite Hl, H1, <- Hlen; reflexivity]).
Qed.

Lemma record_spec (st : State) (ip : string) (now : Q) (ip' : string) :
  records_of (_record_request st ip now) ip' =
  if decide (ip = ip') then records_of st ip ++ [now] else records_of st ip'.
Proof.
  unfold _record_request, records_of.
  pose proof (dd_get_value (request_records st) ip) as Hv.
  pose proof (dd_get_lookup (request_records st) ip ip') as Hl.
  destruct (dd_get (request_records st) ip) as [l r1]. simpl in *.
  destruct (decide (ip = ip')) as [<-|Hne].
  - rewrite lookup_insert_eq. simpl. congruence.
  - rewrite lookup_insert_ne by exact Hne. exact Hl.
Qed.


Lemma count_prune (ws b : Q) (l : list Q) :
  (ws <= b)%Q -> count (Qltb b) (prune ws l) = count (Qltb b) l.
Proof.
  intros Hb. unfold prune. rewrite count_filter. apply count_ext.
  intros x _. destruct (Qltb b x) eqn:E; [|apply andb_false_r].
  apply Qltb_lt in E. rewrite andb_true_r. apply Qltb_lt. lra.
Qed.

Lemma count_gt_antitone (b b' : Q) (l : list Q) :
  (b <= b')%Q -> (count (Qltb b') l <= count (Qltb b) l)%nat.
Proof.
  intros Hb. apply count_le. intros x _ E.
  apply Qltb_lt in E. apply Qltb_lt. lra.
Qed.

Lemma ts_of_app (ip : string) (l1 l2 : list Accepted) :
  ts_of ip (l1 ++ l2) = ts_of ip l1 ++ ts_of ip l2.
Proof. unfold ts_of. rewrite List.filter_app, map_app. reflexivity. Qed.

Lemma synced_later (last last' : Q) (st : State) (log : list Accepted) :
  (last <= last')%Q -> synced cfg last st log -> synced cfg last' st log.
Proof. intros Hle H ip b Hb. apply H. lra. Qed.

Lemma synced_init (last : Q) : synced cfg last init [].
Proof. intros ip b _. reflexivity. Qed.

Lemma quota_ok_nil : quota_ok cfg [].
Proof. intros pre e post H. destruct pre; discriminate H. Qed.

Lemma quota_ok_snoc (log : list Accepted) (e : Accepted) :
  quota_ok cfg log ->
  (Z.of_nat (count (Qltb (acc_time e - inject_Z (window_size cfg)))
                   (ts_of (acc_ip e) (log ++ [e])))
   <= limit_for cfg (acc_auth e))%Z ->
  quota_ok cfg (log ++ [e]).
Proof.
  intros Hq He pre e' post Heq.
  destruct post as [|x post _] using rev_ind.
  - apply app_inj_tail in Heq as [-> ->]. exact He.
  - change (pre ++ e' :: post ++ [x]) with (pre ++ (e' :: post) ++ [x]) in Heq.
    rewrite app_assoc in Heq. apply app_inj_tail in Heq as [-> _].
    apply (Hq pre e' post eq_refl).
Qed.

(** One request keeps both invariants. *)
Lemma dispatch_invariant (last : Q) (st : State) (log : list Accepted)
    (a : Arrival) :
  synced cfg last st log -> quota_ok cfg log ->
  (last <= t_block a)%Q -> (t_block a <= t_check a)%Q ->
  (t_check a <= t_record a)%Q ->
  synced cfg (t_record a) (snd (dispatch cfg st a))
         (log ++ accepted_of a (fst (dispatch cfg st a))) /\
  quota_ok cfg (log ++ accepted_of a (fst (dispatch cfg st a))).
Proof.
  intros Hs Hq H1 H2 H3. unfold dispatch, accepted_of.
  destruct (_should_rate_limit (path (request a))) eqn:Hp; simpl.
  2:{ rewrite app_nil_r. split; [|exact Hq].
      apply (synced_later last); [lra | exact Hs]. }
  set (ip := client_ip (request a)).
  pose proof (blocked_records st ip (t_block a)) as Hb.
  destruct (_is_client_blocked st ip (t_block a)) as [[blk ra] st1].
  simpl in Hb.
  assert (Hs1 : synced cfg last st1 log).
  { intros ip' b Hb'. unfold records_of. rewrite Hb. apply Hs. exact Hb'. }
  destruct blk; simpl.
  { rewrite app_nil_r. split; [|exact Hq].
    apply (synced_later last); [lra | exact Hs1]. }
  pose proof (check_spec st1 ip (request a) (t_check a)) as Hc.
  destruct (_check_rate_limit cfg st1 ip (request a) (t_check a))
    as [[exc ra2] st2].
  simpl in Hc. destruct Hc as (Hexc & _ & Hrec & _).
  assert (Hs2 : synced cfg (t_check a) st2 log).
  { intros ip' b Hb'. rewrite Hrec. destruct (decide (ip = ip')) as [<-|Hne].
    - rewrite count_prune by exact Hb'. apply Hs1. lra.
    - apply Hs1. lra. }
  destruct exc; simpl.
  { rewrite app_nil_r. split; [|exact Hq].
    apply (synced_later (t_check a)); [lra | exact Hs2]. }
  set (e := {| acc_ip := ip; acc_auth := _is_authenticated (request a);
               acc_time := t_record a |}).
  split.
  - intros ip' b Hb'. rewrite record_spec, ts_of_app.
    destruct (decide (ip = ip')) as [<-|Hne].
    + rewrite !count_app. f_equal; [apply Hs2; lra|].
      unfold ts_of. simpl. rewrite String.eqb_refl. reflexivity.
    + unfold ts_of at 2. simpl.
      destruct (String.eqb_spec ip ip') as [E|_]; [contradiction|].
      simpl. rewrite app_nil_r. apply Hs2. lra.
  - apply quota_ok_snoc; [exact Hq|]. simpl.
    rewrite ts_of_app, count_app.
    assert (Hone : (count (Qltb (t_record a - inject_Z (window_size cfg)))
                          (ts_of ip [e]) <= 1)%nat).
    { unfold ts_of, count. simpl. rewrite String.eqb_refl. simpl.
      destruct (Qltb _ _); simpl; lia. }
    pose proof (count_gt_antitone (t_check a - inject_Z (window_size cfg))
                  (t_record a - inject_Z (window_size cfg)) (ts_of ip log)
                  ltac:(lra)) as Hanti.
    assert (Hsync : count (Qltb (t_check a - inject_Z (window_size cfg)))
                          (ts_of ip log)
                    = length (prune (t_check a - inject_Z (window_size cfg))
                                    (records_of st1 ip))).
    { rewrite <- (Hs1 ip) by lra. reflexivity. }
    symmetry in Hexc. apply Z.leb_gt in Hexc. lia.
Qed.

Lemma run_invariant (arrivals : list Arrival) :
  forall (last : Q) (st : State) (log : list Accepted),
  synced cfg last st log -> quota_ok cfg log ->
  clock_monotone last arrivals ->
  quota_ok cfg (snd (run cfg st log arrivals)).
Proof.
  induction arrivals as [|a rest IH]; intros last st log Hs Hq Hm; simpl.
  - exact Hq.
  - destruct Hm as (H1 & H2 & H3 & Hm).
    destruct (dispatch_invariant last st log a Hs Hq H1 H2 H3) as [Hs' Hq'].
    destruct (dispatch cfg st a) as [r st']. simpl in *.
    apply (IH (t_record a) st' _ Hs' Hq' Hm).
Qed.

(** From invariant 2 to windows: accepted requests of one client that lie
    within [window_size] seconds of each other are at most [bound], when
    [bound] is at least the limit of each of them. *)
Lemma quota_window (log : list Accepted) (ip : string) (bound : Z)
    (p : Accepted -> bool) :
  (0 <= bound)%Z ->
  quota_ok cfg log ->
  (forall x, p x = true ->
     acc_ip x = ip /\ (limit_for cfg (acc_auth x) <= bound)%Z) ->
  (forall x y, p x = true -> p y = true ->
     (acc_time y - inject_Z (window_size cfg) < acc_time x)%Q) ->
  (Z.of_nat (count p log) <= bound)%Z.
Proof.
  intros Hlim Hq Hp Hw.
  destruct (last_satisfying p log) as [H0 | (pre & e & post & -> & He & Hpost)].
  - rewrite H0. exact Hlim.
  - rewrite count_app. change (e :: post) with ([e] ++ post).
    rewrite count_app, Hpost, Nat.add_0_r, <- count_app.
    specialize (Hq pre e post eq_refl).
    destruct (Hp e He) as [Hip Hle]. rewrite Hip in Hq.
    eapply Z.le_trans; [|exact Hle]. eapply Z.le_trans; [|exact Hq].
    apply Nat2Z.inj_le.
    unfold ts_of. rewrite count_map, count_filter. apply count_le.
    intros x _ Hx. destruct (Hp x Hx) as [Hxip _].
    rewrite Hxip, String.eqb_refl. simpl. apply Qltb_lt. apply Hw; assumption.
Qed.

Lemma in_window_oc_spec (t : Q) (w : Z) (ts : Q) :
  in_window_oc t w ts = true <-> (t < ts)%Q /\ (ts <= t + inject_Z w)%Q.
Proof.
  unfold in_window_oc. rewrite andb_true_iff, Qltb_lt, Qle_bool_iff. tauto.
Qed.

Lemma in_window_co_spec (t : Q) (w : Z) (ts : Q) :
  in_window_co t w ts = true <-> (t <= ts)%Q /\ (ts < t + inject_Z w)%Q.
Proof.
  unfold in_window_co. rewrite andb_true_iff, Qltb_lt, Qle_bool_iff. tauto.
Qed.

Lemma of_client_spec (ip : string) (auth : bool) (x : Accepted) :
  of_client ip auth x = true <-> acc_ip x = ip /\ acc_auth x = auth.
Proof.
  unfold of_client. rewrite andb_true_iff, String.eqb_eq.
  split; intros [H1 H2]; split; try exact H1.
  - apply Bool.eqb_prop. exact H2.
  - rewrite H2. apply Bool.eqb_reflx.
Qed.

(** A denied check records nothing. *)
Lemma denied_not_recorded (st : State) (a : Arrival) :
  let ip := client_ip (request a) in
  let pruned := prune (t_check a - inject_Z (window_size cfg)) (records_of st ip) in
  _should_rate_limit (path (request a)) = true ->
  fst (fst (_is_client_blocked st ip (t_block a))) = false ->
  (limit_for cfg (_is_authenticated (request a)) <= Z.of_nat (length pruned))%Z ->
  fst (dispatch cfg st a) = TooManyRequests (block_time cfg) /\
  accepted_of a (fst (dispatch cfg st a)) = [] /\
  records_of (snd (dispatch cfg st a)) ip = pruned.
Proof.
  intros ip pruned Hp Hb Hlim. unfold dispatch. rewrite Hp. fold ip.
  pose proof (blocked_records st ip (t_block a)) as Hrec.
  destruct (_is_client_blocked st ip (t_block a)) as [[blk ra] st1].
  simpl in Hb, Hrec. subst blk.
  pose proof (check_spec st1 ip (request a) (t_check a)) as Hc.
  destruct (_check_rate_limit cfg st1 ip (request a) (t_check a))
    as [[exc ra2] st2].
  simpl in Hc. destruct Hc as (Hexc & Hra & Hrec2 & _).
  assert (Hsame : records_of st1 ip = records_of st ip).
  { unfold records_of. rewrite Hrec. reflexivity. }
  rewrite Hsame in Hexc, Hrec2. fold pruned in Hexc, Hrec2.
  apply Z.leb_le in Hlim. rewrite Hlim in Hexc. subst exc ra2. simpl.
  repeat split. rewrite Hrec2. destruct (decide (ip = ip)); congruence.
Qed.

End RateLimiterWindow.

(** C1, as the code has it. Sliding-window quota. For every sequence of
    requests handled one after the other by a fresh limiter with
    non-negative limits, under a clock that never runs backwards, every
    client [ip] and every instant [t]:
    - the accepted requests of [ip] in one class (anonymous or
      bearer-authenticated) whose timestamps lie in the window
      [(t, t + window_size]] are at most the limit of that class, and so are
      those in the window [[t, t + window_size)];
    - all accepted requests of [ip] in such a window are at most the
      larger of the two limits;
    - a check that finds the pruned list at or above the limit answers
      429 with [block_time], and leaves the pruned list as it is: no
      timestamp is recorded for the denied request. *)
Theorem sliding_window_quota (cfg : RateLimiter.Config)
    (arrivals : list RateLimiter.Arrival) (start : Q)
    (ip : string) (auth : bool) (t : Q) :
  (0 <= RateLimiter.anonymous_limit cfg)%Z ->
  (0 <= RateLimiter.authenticated_limit cfg)%Z ->
  RateLimiter.clock_monotone start arrivals ->
  let w := RateLimiter.window_size cfg in
  let log := snd (RateLimiter.run cfg RateLimiter.init [] arrivals) in
  (Z.of_nat (count (fun x => RateLimiter.of_client ip auth x &&
                             RateLimiter.in_window_oc t w (RateLimiter.acc_time x)) log)
   <= RateLimiter.limit_for cfg auth)%Z /\
  (Z.of_nat (count (fun x => RateLimiter.of_client ip auth x &&
                             RateLimiter.in_window_co t w (RateLimiter.acc_time x)) log)
   <= RateLimiter.limit_for cfg auth)%Z /\
  (Z.of_nat (count (fun x => String.eqb (RateLimiter.acc_ip x) ip &&
                             RateLimiter.in_window_oc t w (RateLimiter.acc_time x)) log)
   <= Z.max (RateLimiter.anonymous_limit cfg) (RateLimiter.authenticated_limit cfg))%Z /\
  (forall (st : RateLimiter.State) (a : RateLimiter.Arrival),
     let ip' := RateLimiter.client_ip (RateLimiter.request a) in
     let pruned := RateLimiter.prune (RateLimiter.t_check a - inject_Z w)
                     (RateLimiter.records_of st ip') in
     RateLimiter._should_rate_limit (RateLimiter.path (RateLimiter.request a)) = true ->
     fst (fst (RateLimiter._is_client_blocked st ip' (RateLimiter.t_block a))) = false ->
     (RateLimiter.limit_for cfg (RateLimiter._is_authenticated (RateLimiter.request a))
      <= Z.of_nat (length pruned))%Z ->
     fst (RateLimiter.dispatch cfg st a) = RateLimiter.TooManyRequests (RateLimiter.block_time cfg) /\
     RateLimiter.accepted_of a (fst (RateLimiter.dispatch cfg st a)) = [] /\
     RateLimiter.records_of (snd (RateLimiter.dispatch cfg st a)) ip' = pruned).
Proof.
  intros Hanon Hauth Hmono w log.
  assert (Hq : RateLimiter.quota_ok cfg log).
  { apply (run_invariant cfg arrivals start RateLimiter.init []);
      [apply synced_init | apply quota_ok_nil | exact Hmono]. }
  assert (Hlim : (0 <= RateLimiter.limit_for cfg auth)%Z).
  { destruct auth; assumption. }
  split; [|split; [|split]].
  - apply (quota_window cfg log ip); [exact Hlim | exact Hq | |].
    + intros x Hx. apply andb_true_iff in Hx as [Hx _].
      apply of_client_spec in Hx as [-> ->]. split; [reflexivity | lia].
    + intros x y Hx Hy.
      apply andb_true_iff in Hx as [_ Hx]. apply andb_true_iff in Hy as [_ Hy].
      apply in_window_oc_spec in Hx, Hy. fold w. lra.
  - apply (quota_window cfg log ip); [exact Hlim | exact Hq | |].
    + intros x Hx. apply andb_true_iff in Hx as [Hx _].
      apply of_client_spec in Hx as [-> ->]. split; [reflexivity | lia].
    + intros x y Hx Hy.
      apply andb_true_iff in Hx as [_ Hx]. apply andb_true_iff in Hy as [_ Hy].
      apply in_window_co_spec in Hx, Hy. fold w. lra.
  - apply (quota_window cfg log ip); [lia | exact Hq | |].
    + intros x Hx. apply andb_true_iff in Hx as [Hx _].
      apply String.eqb_eq in Hx. split; [exact Hx|].
      unfold RateLimiter.limit_for. destruct (RateLimiter.acc_auth x); lia.
    + intros x y Hx Hy.
      apply andb_true_iff in Hx as [_ Hx]. apply andb_true_iff in Hy as [_ Hy].
      apply in_window_oc_spec in Hx, Hy. fold w. lra.
  - intros st a. apply (denied_not_recorded cfg st a).
Qed.

(** C1, at a concrete input: limit 2 for anonymous clients, a window of 10
    seconds, four requests of one client at seconds 1, 2, 3 and 4; the
    third finds two timestamps, is denied and is not recorded. *)
Lemma sliding_window_quota_witness :
  let cfg := {| RateLimiter.anonymous_limit := 2;
                RateLimiter.authenticated_limit := 3;
                RateLimiter.window_size := 10;
                RateLimiter.block_time := 5 |} in
  let arrivals := [anon_at 1; anon_at 2; anon_at 3; anon_at 4] in
  let st2 := fst (RateLimiter.run cfg RateLimiter.init [] [anon_at 1; anon_at 2]) in
  RateLimiter.clock_monotone 0 arrivals /\
  (Z.of_nat (count (fun x => RateLimiter.of_client "10.0.0.7" false x &&
                             RateLimiter.in_window_oc 0 10 (RateLimiter.acc_time x))
                   (snd (RateLimiter.run cfg RateLimiter.init [] arrivals)))
   <= 2)%Z /\
  fst (RateLimiter.dispatch cfg st2 (anon_at 3)) = RateLimiter.TooManyRequests 5 /\
  RateLimiter.records_of (snd (RateLimiter.dispatch cfg st2 (anon_at 3))) "10.0.0.7"
    = RateLimiter.prune (3 - inject_Z 10) (RateLimiter.records_of st2 "10.0.0.7").
Proof.
  intros cfg arrivals st2.
  assert (Hm : RateLimiter.clock_monotone 0 arrivals).
  { simpl. unfold Qle. simpl. lia. }
  pose proof (sliding_window_quota cfg arrivals 0 "10.0.0.7" false 0
                ltac:(simpl; lia) ltac:(simpl; lia) Hm) as (H1 & _ & _ & H4).
  split; [exact Hm|]. split; [exact H1|].
  destruct (H4 st2 (anon_at 3)) as (Hr & _ & Hrec).
  - reflexivity.
  - vm_compute. reflexivity.
  - vm_compute. intros H. discriminate H.
  - split; [exact Hr | exact Hrec].
Defined.

(** The scenario of the design document: with the default limits, the
    eleventh request of an anonymous client within the hour is rejected
    with the block time, and a twelfth one thirty minutes later with what
    remains of it. *)
Example eleventh_request_is_rejected :
  RateLimiter.responses RateLimiter.default_config RateLimiter.init
    (map (fun n => anon_at (inject_Z n)) [1; 2; 3; 4; 5; 6; 7; 8; 9; 10; 11; 1811]%Z)
  = repeat RateLimiter.Forwarded 10
    ++ [RateLimiter.TooManyRequests 3600; RateLimiter.TooManyRequests 1800].
Proof. vm_compute. reflexivity. Qed.

(** The window is half-open: with a limit of one request per hour, a
    request exactly [window_size] seconds after an accepted one is accepted
    too, the comprehension keeping [timestamp > window_start] only. *)
Example request_one_window_later_is_accepted :
  RateLimiter.responses one_per_hour RateLimiter.init [anon_at 0; anon_at 3600]
  = [RateLimiter.Forwarded; RateLimiter.Forwarded].
Proof. vm_compute. reflexivity. Qed.

(** C1 as stated fails, in two ways.
    - On the closed window [[now - window_size, now]] of the design
      document: with a limit of one request per hour, the requests at
      seconds 0 and 3600 are both accepted, two in the window
      [[0, 3600]].
    - When the clock steps back: with a limit of two requests in ten
      seconds, the requests at seconds 100, 101 and 111 are accepted, the
      last one pruning the first two from the list; the clock then reads
      102, and the request is accepted against the one timestamp left:
      three accepted requests have their timestamps in [(92, 102]]. *)
Lemma quota_exceeded_on_closed_window_and_backward_clock :
  let log := snd (RateLimiter.run one_per_hour RateLimiter.init []
                    [anon_at 0; anon_at 3600]) in
  let log' := snd (RateLimiter.run Scenario.two_in_ten RateLimiter.init []
                     [anon_at 100; anon_at 101; anon_at 111; anon_at 102]) in
  RateLimiter.clock_monotone 0 [anon_at 0; anon_at 3600] /\
  map RateLimiter.acc_time log = [0; 3600]%Q /\
  count (fun x => RateLimiter.of_client "10.0.0.7" false x &&
                  RateLimiter.in_window_cc 0 3600 (RateLimiter.acc_time x)) log
    = 2%nat /\
  RateLimiter.limit_for one_per_hour false = 1%Z /\
  map RateLimiter.acc_time log' = [100; 101; 111; 102]%Q /\
  count (fun x => RateLimiter.of_client "10.0.0.7" false x &&
                  RateLimiter.in_window_oc 92 10 (RateLimiter.acc_time x)) log'
    = 3%nat /\
  RateLimiter.limit_for Scenario.two_in_ten false = 2%Z.
Proof.
  intros log log'. split; [simpl; unfold Qle; simpl; lia|].
  vm_compute. repeat split; reflexivity.
Qed.

(* ================================================================== *)
(** * Rate limiter: blocking                                            *)
(* ================================================================== *)

Section RateLimiterBlock.
Import RateLimiter.

Lemma py_int_floor (x : Q) : (0 <= x)%Q -> py_int x = Qfloor x.
Proof.
  intros Hx. destruct x as [n d]. unfold py_int, Qfloor. simpl.
  apply Z.quot_div_nonneg; [|lia].
  unfold Qle in Hx. simpl in Hx. lia.
Qed.

Lemma py_int_bounds (x : Q) :
  (0 <= x)%Q -> (inject_Z (py_int x) <= x)%Q /\ (x < inject_Z (py_int x) + 1)%Q.
Proof.
  intros Hx. rewrite (py_int_floor x Hx). split; [apply Qfloor_le|].
  pose proof (Qlt_floor x) as H. rewrite inject_Z_plus in H. exact H.
Qed.

Lemma py_int_mono (x y : Q) :
  (0 <= x)%Q -> (x <= y)%Q -> (py_int x <= py_int y)%Z.
Proof.
  intros Hx Hxy. rewrite (py_int_floor x Hx), (py_int_floor y) by lra.
  apply Qfloor_resp_le. exact Hxy.
Qed.

Lemma py_int_whole (x : Q) (n : Z) :
  (0 <= x)%Q -> (x == inject_Z n)%Q -> py_int x = n.
Proof.
  intros Hx Hn. rewrite (py_int_floor x Hx), (Qfloor_comp _ _ Hn).
  apply Qfloor_Z.
Qed.

Lemma blocked_still (st : State) (ip : string) (u now : Q) :
  blocked_clients st !! ip = Some u -> (now < u)%Q ->
  _is_client_blocked st ip now = ((true, py_int (u - now)), st).
Proof.
  intros Hb Hlt. unfold _is_client_blocked. rewrite Hb.
  destruct (Qle_bool u now) eqn:E; [|reflexivity].
  apply Qle_bool_iff in E. lra.
Qed.

Lemma blocked_expired (st : State) (ip : string) (u now : Q) :
  blocked_clients st !! ip = Some u -> (u <= now)%Q ->
  _is_client_blocked st ip now =
    ((false, 0%Z), {| request_records := request_records st;
                      blocked_clients := delete ip (blocked_clients st) |}).
Proof.
  intros Hb Hle. unfold _is_client_blocked. rewrite Hb.
  apply Qle_bool_iff in Hle. rewrite Hle. reflexivity.
Qed.

End RateLimiterBlock.

(** C6, as the code has it. For a request [a] of client [ip] on the
    rate-limited path:
    - a check that finds the client at or above its limit answers
      [(True, block_time)] and sets the block entry to [now + block_time];
    - while the entry [u] exists and [now < u], the request is denied, the
      state is left as it is, and [retry_after] is [u - now] truncated to
      whole seconds ([int(unblock_time - now)]): it is [u - now] itself when
      that is a whole number, and it never grows as time passes;
    - once [now >= u] the entry is removed and the request goes on to the
      window check. *)
Theorem block_lifecycle (cfg : RateLimiter.Config) (st : RateLimiter.State)
    (a : RateLimiter.Arrival) (u : Q) :
  let ip := RateLimiter.client_ip (RateLimiter.request a) in
  let req := RateLimiter.request a in
  RateLimiter._should_rate_limit (RateLimiter.path req) = true ->
  (forall now : Q,
     (RateLimiter.limit_for cfg (RateLimiter._is_authenticated req)
      <= Z.of_nat (length (RateLimiter.prune
                             (now - inject_Z (RateLimiter.window_size cfg))
                             (RateLimiter.records_of st ip))))%Z ->
     fst (RateLimiter._check_rate_limit cfg st ip req now)
       = (true, RateLimiter.block_time cfg) /\
     RateLimiter.blocked_clients
       (snd (RateLimiter._check_rate_limit cfg st ip req now)) !! ip
       = Some (now + inject_Z (RateLimiter.block_time cfg))%Q) /\
  (RateLimiter.blocked_clients st !! ip = Some u ->
   (RateLimiter.t_block a < u)%Q ->
   let retry := py_int (u - RateLimiter.t_block a) in
   RateLimiter.dispatch cfg st a = (RateLimiter.TooManyRequests retry, st) /\
   (inject_Z retry <= u - RateLimiter.t_block a)%Q /\
   (u - RateLimiter.t_block a < inject_Z retry + 1)%Q /\
   (forall n : Z, (u - RateLimiter.t_block a == inject_Z n)%Q -> retry = n) /\
   (forall later : Q, (RateLimiter.t_block a <= later)%Q -> (later < u)%Q ->
      (py_int (u - later) <= retry)%Z)) /\
  (RateLimiter.blocked_clients st !! ip = Some u ->
   (u <= RateLimiter.t_block a)%Q ->
   let st1 := {| RateLimiter.request_records := RateLimiter.request_records st;
                 RateLimiter.blocked_clients :=
                   delete ip (RateLimiter.blocked_clients st) |} in
   RateLimiter._is_client_blocked st ip (RateLimiter.t_block a)
     = ((false, 0%Z), st1) /\
   RateLimiter.blocked_clients st1 !! ip = None /\
   RateLimiter.dispatch cfg st a = RateLimiter.window_check cfg st1 a).
Proof.
  intros ip req Hp. split; [|split].
  - intros now Hlim.
    pose proof (check_spec cfg st ip req now) as Hc.
    destruct (RateLimiter._check_rate_limit cfg st ip req now)
      as [[exc ra] st2].
    simpl in Hc. destruct Hc as (Hexc & Hra & _ & Hblk).
    apply Z.leb_le in Hlim. rewrite Hlim in Hexc. subst exc ra. simpl.
    split; [reflexivity|]. rewrite Hblk. apply lookup_insert_eq.
  - intros Hb Hlt retry.
    assert (Hpos : (0 <= u - RateLimiter.t_block a)%Q) by lra.
    destruct (py_int_bounds _ Hpos) as [Hlo Hhi].
    split; [|split; [exact Hlo|split; [exact Hhi|split]]].
    + unfold RateLimiter.dispatch. subst ip req. rewrite Hp.
      rewrite (blocked_still st _ u _ Hb Hlt). reflexivity.
    + intros n Hn. apply py_int_whole; assumption.
    + intros later H1 H2. apply py_int_mono; lra.
  - intros Hb Hle st1. split; [|split].
    + apply (blocked_expired st ip u _ Hb Hle).
    + simpl. apply lookup_delete_eq.
    + unfold RateLimiter.dispatch, RateLimiter.window_check.
      subst st1 ip req. rewrite Hp.
      rewrite (blocked_expired st _ u _ Hb Hle). reflexivity.
Qed.

(** C6, at concrete inputs, for the client blocked until second 3601: the
    second request, at second 1, was answered with [block_time] and set the
    block entry; a third request at second 2 is denied with the remaining
    3599 seconds; a request at second 3601 removes the entry and goes on
    to the window check. *)
Lemma block_lifecycle_witness :
  let st1 := snd (RateLimiter.dispatch one_per_hour RateLimiter.init
                    (anon_at 0)) in
  let req := RateLimiter.request (anon_at 1) in
  RateLimiter._should_rate_limit "/api/searches/" = true /\
  fst (RateLimiter._check_rate_limit one_per_hour st1 "10.0.0.7" req 1)
    = (true, 3600%Z) /\
  RateLimiter.blocked_clients blocked_until_3601 !! "10.0.0.7"
    = Some (1 + inject_Z 3600)%Q /\
  (2 < 1 + inject_Z 3600)%Q /\
  RateLimiter.dispatch one_per_hour blocked_until_3601
    (anon_at 2)
    = (RateLimiter.TooManyRequests (py_int (1 + inject_Z 3600 - 2)),
       blocked_until_3601) /\
  (1 + inject_Z 3600 <= 3601)%Q /\
  RateLimiter.dispatch one_per_hour blocked_until_3601
    (anon_at 3601)
    = RateLimiter.window_check one_per_hour
        {| RateLimiter.request_records :=
             RateLimiter.request_records blocked_until_3601;
           RateLimiter.blocked_clients :=
             delete "10.0.0.7"
               (RateLimiter.blocked_clients blocked_until_3601) |}
        (anon_at 3601).
Proof.
  intros st1 req.
  assert (Hp : RateLimiter._should_rate_limit "/api/searches/" = true)
    by reflexivity.
  assert (Hb : RateLimiter.blocked_clients blocked_until_3601
                 !! "10.0.0.7" = Some (1 + inject_Z 3600)%Q)
    by (vm_compute; reflexivity).
  assert (Hlt : (2 < 1 + inject_Z 3600)%Q) by (vm_compute; reflexivity).
  assert (Hle : (1 + inject_Z 3600 <= 3601)%Q)
    by (vm_compute; intros H; discriminate H).
  split; [exact Hp|]. split.
  { refine (proj1 (proj1 (block_lifecycle one_per_hour st1
                            (anon_at 1) 0%Q Hp) 1%Q _)).
    vm_compute. intros H. discriminate H. }
  split; [exact Hb|]. split; [exact Hlt|]. split.
  { exact (proj1 (proj1 (proj2 (block_lifecycle one_per_hour
             blocked_until_3601 (anon_at 2)
             (1 + inject_Z 3600) Hp)) Hb Hlt)). }
  split; [exact Hle|].
  exact (proj2 (proj2 (proj2 (proj2 (block_lifecycle one_per_hour
           blocked_until_3601 (anon_at 3601)
           (1 + inject_Z 3600) Hp)) Hb Hle))).
Defined.

(** C6 as stated fails: at second 3/2 the client blocked until second 3601
    is denied with [retry_after = 3599], while [unblock_time - now] is
    3599.5 seconds. *)
Lemma retry_after_is_truncated :
  RateLimiter.blocked_clients blocked_until_3601 !! "10.0.0.7" = Some (1 + inject_Z 3600)%Q /\
  ((3 # 2) < 1 + inject_Z 3600)%Q /\
  fst (RateLimiter.dispatch one_per_hour blocked_until_3601 (anon_at (3 # 2)))
    = RateLimiter.TooManyRequests 3599 /\
  ~ (inject_Z 3599 == (1 + inject_Z 3600) - (3 # 2))%Q.
Proof.
  split; [vm_compute; reflexivity|].
  split; [vm_compute; reflexivity|].
  split; [vm_compute; reflexivity|].
  intros H. vm_compute in H. discriminate H.
Qed.

(* ================================================================== *)
(** * Reasoning rules for sequential code                               *)
(* ================================================================== *)

Section Rules.
Import Runtime.

Lemma triple_ret {A} (P : World -> Prop) (a : A) Q E :
  (forall w, P w -> Q a w) -> triple P (mret a) Q E.
Proof. intros H w Hw. apply H, Hw. Qed.

Lemma triple_bind {A B} (P : World -> Prop) (m : M A) (f : A -> M B)
    (R : A -> World -> Prop) Q E :
  triple P m R E -> (forall a, triple (R a) (f a) Q E) ->
  triple P (m ≫= f) Q E.
Proof.
  intros Hm Hf w Hw. specialize (Hm w Hw).
  unfold mbind, M_bind. destruct (m w) as [[a|e] w1]; [|exact Hm].
  apply (Hf a w1 Hm).
Qed.

Lemma triple_conseq {A} (P P' : World -> Prop) (m : M A)
    (Q Q' : A -> World -> Prop) (E E' : Exn -> World -> Prop) :
  triple P' m Q' E' ->
  (forall w, P w -> P' w) -> (forall a w, Q' a w -> Q a w) ->
  (forall e w, E' e w -> E e w) ->
  triple P m Q E.
Proof.
  intros Hm HP HQ HE w Hw. specialize (Hm w (HP w Hw)).
  destruct (m w) as [[a|e] w1]; [apply HQ | apply HE]; exact Hm.
Qed.

Lemma triple_lift {A} (P : World -> Prop) (r : Result A) Q E :
  (forall a w, r = Ok a -> P w -> Q a w) ->
  (forall e w, r = Raise e -> P w -> E e w) ->
  triple P (lift r) Q E.
Proof.
  intros HQ HE w Hw. unfold lift. destruct r as [a|e]; [apply HQ | apply HE];
    (reflexivity || exact Hw).
Qed.

Lemma triple_lift_ok {A} (P : World -> Prop) (a : A) E :
  triple P (lift (Ok a)) (fun _ => P) E.
Proof. intros w Hw. exact Hw. Qed.

Lemma triple_lift_eq {A} (P : World -> Prop) (a : A) E :
  triple P (lift (Ok a)) (fun x w => x = a /\ P w) E.
Proof. intros w Hw. split; [reflexivity | exact Hw]. Qed.

Lemma triple_attempt {A} (P : World -> Prop) (m : M A)
    (Q : Result A -> World -> Prop) E :
  triple P m (fun a => Q (Ok a)) (fun e => Q (Raise e)) ->
  triple P (attempt m) Q E.
Proof.
  intros Hm w Hw. specialize (Hm w Hw). unfold attempt.
  destruct (m w) as [[a|e] w1]; exact Hm.
Qed.

Lemma triple_try_except {A} (P : World -> Prop) (m : M A) (h : Exn -> M A)
    Q (E' : Exn -> World -> Prop) E :
  triple P m Q E' -> (forall e, triple (E' e) (h e) Q E) ->
  triple P (try_except m h) Q E.
Proof.
  intros Hm Hh w Hw. specialize (Hm w Hw). unfold try_except.
  destruct (m w) as [[a|e] w1]; [exact Hm|]. apply (Hh e w1 Hm).
Qed.

Lemma keeps_ret {A} (I : World -> Prop) (a : A) : keeps I (mret a).
Proof. apply triple_ret. auto. Qed.

Lemma keeps_bind {A B} (I : World -> Prop) (m : M A) (f : A -> M B) :
  keeps I m -> (forall a, keeps I (f a)) -> keeps I (m ≫= f).
Proof. intros Hm Hf. eapply triple_bind; [exact Hm | exact Hf]. Qed.

Lemma keeps_lift {A} (I : World -> Prop) (r : Result A) : keeps I (lift r).
Proof. apply triple_lift; auto. Qed.

Lemma keeps_attempt {A} (I : World -> Prop) (m : M A) :
  keeps I m -> keeps I (attempt m).
Proof. intros H. apply triple_attempt. exact H. Qed.

Lemma total_ret {A} (a : A) : total (mret a : M A).
Proof. intros w. exists a. reflexivity. Qed.

Lemma total_bind {A B} (m : M A) (f : A -> M B) :
  total m -> (forall a, total (f a)) -> total (m ≫= f).
Proof.
  intros Hm Hf w. destruct (Hm w) as [a Ha].
  unfold mbind, M_bind. destruct (m w) as [r w1]. simpl in Ha. subst r.
  apply Hf.
Qed.

Lemma total_try_except {A} (m : M A) (h : Exn -> M A) :
  (forall e, total (h e)) -> total (try_except m h).
Proof.
  intros Hh w. unfold try_except. destruct (m w) as [[a|e] w1].
  - exists a. reflexivity.
  - apply Hh.
Qed.

Lemma total_log_call (c : Call) : total (log_call c).
Proof. intros w. exists tt. reflexivity. Qed.

Lemma total_now (sys : Sys) : total (now sys).
Proof. intros w. eexists. reflexivity. Qed.

End Rules.

(* ================================================================== *)
(** * The state store                                                   *)
(* ================================================================== *)

Section StateStore.
Import Runtime StateService.

Variable sys : Sys.

Lemma load_missing (search_id : string) (w : World) :
  files w !! search_id = None -> _load_state sys search_id w = (Ok None, w).
Proof. intros H. unfold _load_state. rewrite H. reflexivity. Qed.

Lemma update_search_status_missing search_id status (w : World) :
  files w !! search_id = None ->
  update_search_status sys search_id status w = (Ok tt, w).
Proof.
  intros H. unfold update_search_status, mbind, M_bind.
  rewrite (load_missing _ _ H). reflexivity.
Qed.

Lemma update_store_status_missing search_id store status time_ms (w : World) :
  files w !! search_id = None ->
  update_store_status sys search_id store status time_ms w = (Ok tt, w).
Proof.
  intros H. unfold update_store_status, mbind, M_bind.
  rewrite (load_missing _ _ H). reflexivity.
Qed.

Lemma update_attributes_missing search_id attributes (w : World) :
  files w !! search_id = None ->
  update_attributes sys search_id attributes w = (Ok tt, w).
Proof.
  intros H. unfold update_attributes, mbind, M_bind.
  rewrite (load_missing _ _ H). reflexivity.
Qed.

Lemma update_result_count_missing search_id count (w : World) :
  files w !! search_id = None ->
  update_result_count sys search_id count w = (Ok tt, w).
Proof.
  intros H. unfold update_result_count, mbind, M_bind.
  rewrite (load_missing _ _ H). reflexivity.
Qed.

End StateStore.

(** C9. When no record is persisted for [search_id], each of the four
    mutation methods returns normally and leaves the whole world as it
    was: no record is created, nothing is modified, nothing is raised. *)
Theorem update_of_missing_record_is_noop (sys : Runtime.Sys)
    (search_id store : string) (status : StateService.SearchStatus)
    (time_ms count : Z) (attributes : list Models.AttributeRecognition)
    (w : Runtime.World) :
  Runtime.files w !! search_id = None ->
  StateService.update_search_status sys search_id status w = (Runtime.Ok tt, w) /\
  StateService.update_store_status sys search_id store status time_ms w
    = (Runtime.Ok tt, w) /\
  StateService.update_attributes sys search_id attributes w = (Runtime.Ok tt, w) /\
  StateService.update_result_count sys search_id count w = (Runtime.Ok tt, w).
Proof.
  intros H. repeat split.
  - apply update_search_status_missing, H.
  - apply update_store_status_missing, H.
  - apply update_attributes_missing, H.
  - apply update_result_count_missing, H.
Qed.

(** C9, at a concrete input: no file at all. *)
Lemma update_of_missing_record_is_noop_witness :
  Runtime.files Runtime.empty_world !! "no-such-search" = None /\
  StateService.update_store_status
    {| Runtime.io_ok := fun _ => true; Runtime.opened := fun _ => false;
       Runtime.now_us := fun _ => 0%Z |}
    "no-such-search" "zalando" StateService.COMPLETED 12 Runtime.empty_world
  = (Runtime.Ok tt, Runtime.empty_world).
Proof.
  assert (H : Runtime.files Runtime.empty_world !! "no-such-search" = None)
    by reflexivity.
  split; [exact H|].
  exact (proj1 (proj2 (update_of_missing_record_is_noop
    {| Runtime.io_ok := fun _ => true; Runtime.opened := fun _ => false;
       Runtime.now_us := fun _ => 0%Z |}
    "no-such-search" "zalando" StateService.COMPLETED 12 0 []
    Runtime.empty_world H))).
Defined.

Section StateStoreRecords.
Import Runtime StateService.

Variable sys : Sys.

Lemma update_store_status_eq search_id store status time_ms w state :
  files w !! search_id = Some state ->
  update_store_status sys search_id store status time_ms w =
  (Ok tt, rewritten sys search_id
            (set_stores state (update_first store (value status) time_ms
                                 (SearchState.stores_searched state))) 0 w).
Proof.
  intros H. unfold update_store_status, rewritten, mbind, M_bind, _load_state.
  rewrite H. destruct (io_ok sys (io_ops w)); reflexivity.
Qed.

Lemma update_attributes_eq search_id attributes w state :
  files w !! search_id = Some state ->
  update_attributes sys search_id attributes w =
  (Ok tt, rewritten sys search_id (set_attributes state attributes) 0 w).
Proof.
  intros H. unfold update_attributes, rewritten, mbind, M_bind, _load_state.
  rewrite H. destruct (io_ok sys (io_ops w)); reflexivity.
Qed.

Lemma update_result_count_eq search_id count w state :
  files w !! search_id = Some state ->
  update_result_count sys search_id count w =
  (Ok tt, rewritten sys search_id (set_result_count state count) 0 w).
Proof.
  intros H. unfold update_result_count, rewritten, mbind, M_bind, _load_state.
  rewrite H. destruct (io_ok sys (io_ops w)); reflexivity.
Qed.

Lemma update_search_status_eq search_id status w state :
  files w !! search_id = Some state ->
  update_search_status sys search_id status w =
  (Ok tt,
   if is_terminal status then
     rewritten sys search_id
       (set_end (set_status state (value status)) (now_us sys (clock_reads w)))
       1 w
   else rewritten sys search_id (set_status state (value status)) 0 w).
Proof.
  intros H. unfold update_search_status, rewritten, mbind, M_bind, _load_state.
  rewrite H. destruct (io_ok sys (io_ops w)); destruct status; reflexivity.
Qed.

Lemma rewritten_lookup search_id state' reads w state (id : string) :
  files w !! search_id = Some state ->
  files (rewritten sys search_id state' reads w) !! id = files w !! id \/
  (id = search_id /\
   (files (rewritten sys search_id state' reads w) !! id = Some state' \/
    files (rewritten sys search_id state' reads w) !! id = None)).
Proof.
  intros H. unfold rewritten, written_files.
  destruct (io_ok sys (io_ops w)); simpl; [|left; reflexivity].
  destruct (io_ok sys (S (io_ops w))); simpl.
  - destruct (decide (search_id = id)) as [<-|Hne].
    + right. split; [reflexivity | left; apply lookup_insert_eq].
    + left. apply lookup_insert_ne, Hne.
  - destruct (opened sys (S (io_ops w))); [|left; reflexivity].
    destruct (decide (search_id = id)) as [<-|Hne].
    + right. split; [reflexivity | right; apply lookup_delete_eq].
    + left. apply lookup_delete_ne, Hne.
Qed.

(** What a read-modify-write leaves of the record it rewrites: the old
    record when the read or the [open] of the write fails, the new one when
    the write succeeds, and a cut-off file when the write fails after
    [open]. *)
Lemma rewritten_cases search_id state state' reads w :
  files w !! search_id = Some state ->
  let w' := rewritten sys search_id state' reads w in
  files w' !! search_id = Some state \/
  files w' !! search_id = Some state' \/
  lost sys search_id w'.
Proof.
  intros H w'. subst w'. unfold rewritten, written_files, written_cut_off, lost.
  destruct (io_ok sys (io_ops w)); simpl; [|left; exact H].
  destruct (io_ok sys (S (io_ops w))) eqn:Ew; simpl.
  - right. left. apply lookup_insert_eq.
  - destruct (opened sys (S (io_ops w))) eqn:Eo; [|left; exact H].
    right. right. 
    repeat split; [apply lookup_delete_eq | set_solver].
Qed.

Lemma rewritten_tracked (R : SearchState.t -> Prop) id state state' reads w :
  files w !! id = Some state ->
  R state -> R state' ->
  tracked sys R id (rewritten sys id state' reads w).
Proof.
  intros H Hs Hs'.
  destruct (rewritten_cases id state state' reads w H) as [E|[E|E]].
  - left. exists state. split; assumption.
  - left. exists state'. split; assumption.
  - right. exact E.
Qed.

(** Every [update_*] method keeps a stable property of the record it
    rewrites, for as long as the file is not cut off, whatever the file
    operations do. *)
Lemma keeps_update_store_status R id store status time_ms :
  stable R ->
  keeps (tracked sys R id) (update_store_status sys id store status time_ms).
Proof.
  intros HR w [(state & E & Hs)|Hl].
  - rewrite (update_store_status_eq _ _ _ _ _ _ E).
    apply (rewritten_tracked R id state); [exact E | exact Hs|].
    apply (HR state Hs).
  - rewrite (update_store_status_missing sys _ _ _ _ _ (proj1 Hl)).
    right. exact Hl.
Qed.

Lemma keeps_update_attributes R id attributes :
  stable R -> keeps (tracked sys R id) (update_attributes sys id attributes).
Proof.
  intros HR w [(state & E & Hs)|Hl].
  - rewrite (update_attributes_eq _ _ _ _ E).
    apply (rewritten_tracked R id state); [exact E | exact Hs|].
    apply (HR state Hs).
  - rewrite (update_attributes_missing sys _ _ _ (proj1 Hl)). right. exact Hl.
Qed.

Lemma keeps_update_result_count R id count :
  stable R -> keeps (tracked sys R id) (update_result_count sys id count).
Proof.
  intros HR w [(state & E & Hs)|Hl].
  - rewrite (update_result_count_eq _ _ _ _ E).
    apply (rewritten_tracked R id state); [exact E | exact Hs|].
    apply (HR state Hs).
  - rewrite (update_result_count_missing sys _ _ _ (proj1 Hl)). right. exact Hl.
Qed.

Lemma keeps_update_search_status R id status :
  stable R -> keeps (tracked sys R id) (update_search_status sys id status).
Proof.
  intros HR w [(state & E & Hs)|Hl].
  - rewrite (update_search_status_eq _ _ _ _ E).
    destruct (is_terminal status);
      (apply (rewritten_tracked R id state); [exact E | exact Hs|]).
    + apply (HR (set_status state (value status))). apply (HR state Hs).
    + apply (HR state Hs).
  - rewrite (update_search_status_missing sys _ _ _ (proj1 Hl)). right. exact Hl.
Qed.

Lemma keeps_log_call R id c : keeps (tracked sys R id) (log_call c).
Proof. intros w Hw. exact Hw. Qed.

Lemma keeps_now R id : keeps (tracked sys R id) (now sys).
Proof. intros w Hw. exact Hw. Qed.






End StateStoreRecords.

(* ================================================================== *)
(** * The pipeline keeps the record                                     *)
(* ================================================================== *)

Ltac fold_keeps :=
  lazymatch goal with
  | |- Runtime.triple ?I ?m (fun _ => ?I) (fun _ => ?I) =>
      change (Runtime.keeps I m)
  end.

(** One step through a computation that keeps a stable property [H] of the
    record. *)
Ltac keeps_step_with H :=
  lazymatch goal with
  | |- Runtime.keeps _ (mbind _ _) => apply keeps_bind; [|intros]
  | |- Runtime.keeps _ (mret _) => apply keeps_ret
  | |- Runtime.keeps _ (Runtime.lift _) => apply keeps_lift
  | |- Runtime.keeps _ (Runtime.attempt _) => apply keeps_attempt
  | |- Runtime.keeps _ (Runtime.log_call _) => apply keeps_log_call
  | |- Runtime.keeps _ (Runtime.now _) => apply keeps_now
  | |- Runtime.keeps _ (StateService.update_store_status _ _ _ _ _) =>
      apply keeps_update_store_status; exact H
  | |- Runtime.keeps _ (StateService.update_attributes _ _ _) =>
      apply keeps_update_attributes; exact H
  | |- Runtime.keeps _ (StateService.update_result_count _ _ _) =>
      apply keeps_update_result_count; exact H
  | |- Runtime.keeps _ (StateService.update_search_status _ _ _) =>
      apply keeps_update_search_status; exact H
  | |- Runtime.keeps _ (match ?x with Runtime.Ok _ => _ | Runtime.Raise _ => _ end) =>
      destruct x
  | |- Runtime.keeps _ (let '(_, _) := ?x in _) => destruct x
  end.

Section PipelineKeeps.
Import Runtime StateService SearchService.

Variable env : Env.
Variable R : SearchState.t -> Prop.
Hypothesis R_stable : stable R.

Ltac keeps_step := keeps_step_with R_stable.

Lemma keeps_mark_store_failed (id : string) i store_name :
  keeps (tracked (sys env) R id) (mark_store_failed env id i store_name).
Proof. unfold mark_store_failed. repeat keeps_step. Qed.

Lemma keeps_search_stores (id : string) attributes start stores :
  forall i total,
  keeps (tracked (sys env) R id)
        (search_stores env id attributes start i stores total).
Proof.
  induction stores as [|store rest IH]; intros i total; simpl.
  - apply keeps_ret.
  - apply keeps_bind; [repeat keeps_step|]. intros searched.
    apply keeps_bind; [|intros; apply IH].
    destruct searched as [products|e].
    + apply keeps_bind; [repeat keeps_step|]. intros recorded.
      destruct recorded; repeat keeps_step. apply keeps_mark_store_failed.
    + repeat keeps_step. apply keeps_mark_store_failed.
Qed.

Lemma keeps_analyze_and_search (id : string) stores image_url :
  keeps (tracked (sys env) R id) (analyze_and_search env stores id image_url).
Proof.
  unfold analyze_and_search.
  repeat (keeps_step || apply keeps_search_stores).
Qed.

Lemma keeps_process_search_body image stores search_id :
  (forall start,
     R {| SearchState.search_id := search_id;
          SearchState.status := value PROCESSING;
          SearchState.start_time := start;
          SearchState.end_time := None;
          SearchState.elapsed_time_ms := 0;
          SearchState.stores_searched :=
            map (fun store => {| StoreState.name := store;
                                 StoreState.status := value PROCESSING;
                                 StoreState.time_ms := 0 |})
                (map Models.value stores);
          SearchState.attributes_recognized := [];
          SearchState.result_count := 0 |}) ->
  triple (fun w => io_ok (sys env) (io_ops w) = true)
         (process_search env image stores search_id)
         (fun _ => tracked (sys env) R search_id)
         (fun _ => tracked (sys env) R search_id).
Proof.
  intros Hinit. unfold process_search, process_search_body.
  eapply triple_bind with (R := fun _ w => io_ok (sys env) (io_ops w) = true).
  { intros w Hw. exact Hw. }
  intros _.
  eapply triple_try_except with (E' := fun _ => tracked (sys env) R search_id).
  2:{ intros e. fold_keeps. repeat keeps_step. }
  eapply triple_bind with (R := fun _ w => io_ok (sys env) (io_ops w) = true).
  { intros w Hw. exact Hw. }
  intros _.
  eapply triple_bind with (R := fun _ => tracked (sys env) R search_id).
  { intros w Hw. left. unfold initialize_search, mbind, M_bind, now, _save_state,
      written_files. simpl. rewrite Hw.
    eexists. split; [apply lookup_insert_eq | apply Hinit]. }
  intros _. fold_keeps. repeat keeps_step.
  destruct (negb (truthy a0)); [repeat keeps_step|].
  apply keeps_analyze_and_search.
Qed.

End PipelineKeeps.

Lemma keeps_snd {A} (I : Runtime.World -> Prop) (m : Runtime.M A) (w : Runtime.World) :
  Runtime.keeps I m -> I w -> I (snd (m w)).
Proof.
  intros H Hw. specialize (H w Hw). destruct (m w) as [[a|e] w']; exact H.
Qed.



(* ================================================================== *)
(** * The pipeline ends in a terminal status                            *)
(* ================================================================== *)

Section PipelineSettles.
Import Runtime StateService SearchService.

Variable env : Env.
Variable id : string.

Local Abbreviation followed := (tracked (sys env) (fun _ => True) id).

Lemma trivially_stable : stable (fun _ : SearchState.t => True).
Proof. intros state _. repeat split. Qed.

Ltac keeps_step := keeps_step_with trivially_stable.

Lemma lost_same_files (w w' : World) :
  files w' = files w -> cut_off w' = cut_off w -> io_ops w' = io_ops w ->
  lost (sys env) id w -> lost (sys env) id w'.
Proof. unfold lost. intros -> -> -> H. exact H. Qed.

Lemma settled_same_files (w w' : World) :
  files w' = files w -> cut_off w' = cut_off w -> io_ops w' = io_ops w ->
  settled env id w -> settled env id w'.
Proof.
  intros Hf Hc Hio [Hl|(w1 & status & Ht & Hrec & Hf1 & Hc1 & Hio1)].
  - left. apply (lost_same_files w); assumption.
  - right. exists w1, status. rewrite Hf, Hc, Hio. repeat split; assumption.
Qed.

Lemma settled_record (w : World) : settled env id w -> followed w.
Proof.
  intros [Hl|(w1 & status & Ht & Hrec & Hf & Hc & Hio)]; [right; exact Hl|].
  pose proof (keeps_snd _ _ w1
    (keeps_update_search_status (sys env) _ id status trivially_stable)
    (or_introl Hrec)) as [(st & Hst & _)|Hl].
  - left. exists st. rewrite Hf. split; [exact Hst | exact I].
  - right. unfold lost in *. rewrite Hf, Hc, Hio. exact Hl.
Qed.

(** When the last file operation succeeded, a settled record is terminal:
    that operation was the write of the status update, and the read before
    it had succeeded. *)
Lemma settled_terminal (w : World) :
  settled env id w ->
  io_ok (sys env) (io_ops w - 1) = true ->
  exists state, files w !! id = Some state /\ terminal (SearchState.status state).
Proof.
  intros [(_ & _ & Hl & _)|(w1 & status & Ht & (st & Hst & _) & Hf & _ & Hio)] H1;
    [congruence|].
  rewrite (update_search_status_eq (sys env) id status w1 st Hst) in Hf, Hio.
  rewrite Ht in Hf, Hio. simpl in Hf, Hio.
  unfold rewritten, written_files in Hf, Hio.
  destruct (io_ok (sys env) (io_ops w1)) eqn:Eload; simpl in Hf, Hio.
  - replace (io_ops w - 1)%nat with (S (io_ops w1)) in H1 by lia.
    rewrite H1 in Hf. eexists. rewrite Hf. split; [apply lookup_insert_eq|].
    simpl. destruct status; [discriminate Ht | left | right]; reflexivity.
  - replace (io_ops w - 1)%nat with (io_ops w1) in H1 by lia. congruence.
Qed.

Lemma update_settles (status : SearchStatus) :
  is_terminal status = true ->
  triple followed (update_search_status (sys env) id status)
         (fun _ => settled env id) (fun _ _ => False).
Proof.
  intros Ht w [Hw|Hl].
  - pose proof Hw as (st & Hst & _).
    pose proof (update_search_status_eq (sys env) id status w st Hst) as E.
    destruct (update_search_status (sys env) id status w) as [r w'] eqn:Erun.
    injection E as -> Ew'. right. exists w, status. rewrite Erun. simpl.
    repeat split; [exact Ht | exact Hw].
  - rewrite (update_search_status_missing (sys env) _ _ _ (proj1 Hl)).
    left. exact Hl.
Qed.

Lemma triple_bind_keeps {A B} (I : World -> Prop) (m : M A) (f : A -> M B)
    (Q : B -> World -> Prop) :
  keeps I m -> (forall a, triple I (f a) Q (fun _ => I)) ->
  triple I (m ≫= f) Q (fun _ => I).
Proof. intros Hm Hf. eapply triple_bind; [exact Hm | exact Hf]. Qed.

Lemma fail_settles :
  triple followed
    (log_call (CallUpdateSearchStatus (value FAILED));;
     update_search_status (sys env) id FAILED)
    (fun _ => settled env id) (fun _ _ => False).
Proof.
  eapply triple_bind with (R := fun _ => followed).
  - intros w Hw. exact Hw.
  - intros _. apply update_settles. reflexivity.
Qed.

Lemma analyze_and_search_settles stores image_url :
  triple followed (analyze_and_search env stores id image_url)
         (fun _ => settled env id) (fun _ => followed).
Proof.
  unfold analyze_and_search.
  apply triple_bind_keeps; [keeps_step|]. intros _.
  apply triple_bind_keeps; [keeps_step|]. intros [attributes analysis_time_ms].
  apply triple_bind_keeps; [keeps_step|]. intros _.
  apply triple_bind_keeps; [keeps_step|]. intros _.
  apply triple_bind_keeps; [keeps_step|]. intros _.
  apply triple_bind_keeps; [keeps_step|]. intros _.
  apply triple_bind_keeps; [keeps_step|]. intros start_search_time.
  apply triple_bind_keeps; [apply keeps_search_stores, trivially_stable|].
  intros total_results.
  apply triple_bind_keeps; [keeps_step|]. intros _.
  apply triple_bind_keeps; [keeps_step|]. intros _.
  apply triple_bind_keeps; [keeps_step|]. intros _.
  apply triple_bind_keeps; [keeps_step|]. intros _.
  eapply triple_bind with (R := fun _ => settled env id).
  { eapply triple_conseq; [apply (update_settles COMPLETED eq_refl)|..];
      simpl; auto. intros _ w []. }
  intros _.
  eapply triple_bind with (R := fun _ => settled env id).
  { intros w Hw. simpl. apply (settled_same_files w); [reflexivity..|exact Hw]. }
  intros _.
  eapply triple_bind with (R := fun _ => settled env id).
  { intros w Hw. simpl. apply (settled_same_files w); [reflexivity..|exact Hw]. }
  intros _.
  eapply triple_bind with (R := fun _ => settled env id).
  { apply triple_lift; [auto|]. intros e w _ Hw. apply settled_record, Hw. }
  intros _. apply triple_ret. auto.
Qed.

(** [process_search] never raises, and it ends settled when its initial
    write goes through. *)
Lemma process_search_settles image stores :
  triple (fun w => io_ok (sys env) (io_ops w) = true)
         (process_search env image stores id)
         (fun _ => settled env id) (fun _ _ => False).
Proof.
  unfold process_search, process_search_body.
  eapply triple_bind with (R := fun _ w => io_ok (sys env) (io_ops w) = true).
  { intros w Hw. exact Hw. }
  intros _.
  eapply triple_try_except with (E' := fun _ => followed).
  2:{ intros e. apply fail_settles. }
  eapply triple_bind with (R := fun _ w => io_ok (sys env) (io_ops w) = true).
  { intros w Hw. exact Hw. }
  intros _.
  eapply triple_bind with (R := fun _ => followed).
  { intros w Hw. left. unfold initialize_search, mbind, M_bind, now, _save_state,
      written_files.
    simpl. rewrite Hw. eexists. split; [apply lookup_insert_eq | exact I]. }
  intros _.
  apply triple_bind_keeps; [keeps_step|]. intros _.
  apply triple_bind_keeps; [keeps_step|]. intros image_url.
  destruct (negb (truthy image_url)).
  - eapply triple_conseq; [apply fail_settles|..]; simpl; auto.
    intros _ w [].
  - apply analyze_and_search_settles.
Qed.

Lemma process_search_total image stores : total (process_search env image stores id).
Proof.
  unfold process_search. apply total_bind; [apply total_now|]. intros _.
  apply total_try_except. intros e.
  apply total_bind; [apply total_log_call|]. intros _ w.
  destruct (files w !! id) as [st|] eqn:E.
  - rewrite (update_search_status_eq (sys env) id FAILED w st E).
    exists tt. reflexivity.
  - rewrite (update_search_status_missing (sys env) id FAILED w E).
    exists tt. reflexivity.
Qed.

End PipelineSettles.

(** C2, as the code has it. However the collaborators' calls end (the
    image save, the analyzer, each store search and each repository call
    may return anything or raise), [process_search] returns normally; and
    when its initial write of the record went through and its last file
    operation (the read or the write of its last status update) goes
    through as well, the persisted record is terminal: ["completed"] or
    ["failed"]. *)
Theorem process_search_ends_terminal (env : SearchService.Env)
    (image : Models.UploadFile) (stores : list Models.StoreEnum)
    (search_id : string) (w : Runtime.World) :
  let sys := SearchService.sys env in
  let w' := snd (SearchService.process_search env image stores search_id w) in
  Runtime.io_ok sys (Runtime.io_ops w) = true ->
  Runtime.io_ok sys (Runtime.io_ops w' - 1) = true ->
  fst (SearchService.process_search env image stores search_id w) = Runtime.Ok tt /\
  exists state,
    Runtime.files w' !! search_id = Some state /\
    StateService.terminal (SearchState.status state).
Proof.
  intros sys w' H0 H1. split.
  - destruct (process_search_total env search_id image stores w) as [[] H].
    exact H.
  - pose proof (process_search_settles env search_id image stores w H0) as Hs.
    subst w'.
    destruct (SearchService.process_search env image stores search_id w)
      as [[a|e] w1]; [|destruct Hs].
    apply (settled_terminal env search_id w1 Hs H1).
Qed.

(* ================================================================== *)
(** * The pipeline on a working disk                                    *)
(* ================================================================== *)

(** Enter the continuation of a bind. *)
Ltac step_in := let a := fresh "a" in intros a; cbv beta; try clear a.

Section PipelineRuns.
Import Runtime StateService SearchService.

Variable env : Env.
Variable id : string.
Hypothesis disk : disk_works env.
Hypothesis repository : repository_answers env.

Lemma triple_pure_l {A} (phi : Prop) (P : World -> Prop) (m : M A) Q E :
  (phi -> triple P m Q E) -> triple (fun w => phi /\ P w) m Q E.
Proof. intros H w [Hphi Hw]. apply (H Hphi w Hw). Qed.

Lemma triple_pure_r {A} (phi : Prop) (P : World -> Prop) (m : M A) Q E :
  (phi -> triple P m Q E) -> triple (fun w => P w /\ phi) m Q E.
Proof. intros H w [Hw Hphi]. apply (H Hphi w Hw). Qed.

Lemma triple_exists_l {A X} (P : X -> World -> Prop) (m : M A) Q E :
  (forall x, triple (P x) m Q E) -> triple (fun w => exists x, P x w) m Q E.
Proof. intros H w [x Hw]. apply (H x w Hw). Qed.

Lemma runs_log_call state made c (E : Exn -> World -> Prop) :
  triple (at_ id state made) (log_call c)
         (fun _ => at_ id state (made ++ [untimed c])) E.
Proof.
  intros w [Hf Hc]. split; [exact Hf|]. simpl.
  rewrite map_app, Hc. reflexivity.
Qed.

Lemma runs_now state made (E : Exn -> World -> Prop) :
  triple (at_ id state made) (now (sys env))
         (fun _ => at_ id state made) E.
Proof. intros w Hw. exact Hw. Qed.

Lemma rewritten_works state' reads w :
  rewritten (sys env) id state' reads w =
  {| files := <[id := state']> (files w); cut_off := cut_off w ∖ {[id]};
     io_ops := S (S (io_ops w));
     clock_reads := (reads + clock_reads w)%nat;
     calls := calls w; background := background w |}.
Proof.
  unfold rewritten, written_files, written_cut_off. rewrite !disk. reflexivity.
Qed.

Lemma runs_update_store_status state made store status time_ms (E : Exn -> World -> Prop) :
  triple (at_ id state made)
         (update_store_status (sys env) id store status time_ms)
         (fun _ => at_ id (set_stores state
                             (update_first store (value status) time_ms
                                (SearchState.stores_searched state))) made)
         E.
Proof.
  intros w [Hf Hc]. rewrite (update_store_status_eq _ _ _ _ _ _ _ Hf).
  rewrite rewritten_works. split; [apply lookup_insert_eq | exact Hc].
Qed.

Lemma runs_update_attributes state made attributes (E : Exn -> World -> Prop) :
  triple (at_ id state made) (update_attributes (sys env) id attributes)
         (fun _ => at_ id (set_attributes state attributes) made)
         E.
Proof.
  intros w [Hf Hc]. rewrite (update_attributes_eq _ _ _ _ _ Hf).
  rewrite rewritten_works. split; [apply lookup_insert_eq | exact Hc].
Qed.

Lemma runs_update_result_count state made count (E : Exn -> World -> Prop) :
  triple (at_ id state made) (update_result_count (sys env) id count)
         (fun _ => at_ id (set_result_count state count) made)
         E.
Proof.
  intros w [Hf Hc]. rewrite (update_result_count_eq _ _ _ _ _ Hf).
  rewrite rewritten_works. split; [apply lookup_insert_eq | exact Hc].
Qed.

Lemma runs_update_search_status state made status (E : Exn -> World -> Prop) :
  is_terminal status = true ->
  triple (at_ id state made) (update_search_status (sys env) id status)
         (fun _ w => exists end_,
            at_ id (set_end (set_status state (value status)) end_) made w)
         E.
Proof.
  intros Ht w [Hf Hc]. rewrite (update_search_status_eq _ _ _ _ _ Hf), Ht.
  rewrite rewritten_works. eexists. split; [apply lookup_insert_eq | exact Hc].
Qed.

Lemma view_update_first store status time_ms entries :
  view (update_first store status time_ms entries)
  = set_first store status (view entries).
Proof.
  induction entries as [|e rest IH]; simpl; [reflexivity|].
  destruct (String.eqb (StoreState.name e) store); simpl; [reflexivity|].
  f_equal. exact IH.
Qed.

Lemma set_first_twice store a b v :
  set_first store b (set_first store a v) = set_first store b v.
Proof.
  induction v as [|[n s] rest IH]; simpl; [reflexivity|].
  destruct (String.eqb n store) eqn:E; simpl; rewrite E; [reflexivity|].
  f_equal. exact IH.
Qed.

(** The [except] block of the loop body, on a working disk. *)
Lemma runs_mark_store_failed state made i store_name (E : Exn -> World -> Prop) :
  triple (at_ id state made) (mark_store_failed env id i store_name)
         (fun _ => at_ id (set_stores state
                             (update_first store_name (value FAILED) 0
                                (SearchState.stores_searched state)))
                     ((made ++ [CallUpdateStoreStatus store_name (value FAILED) 0])
                      ++ [CallSaveStoreSearch store_name false]))
         E.
Proof.
  unfold mark_store_failed.
  eapply triple_bind; [apply runs_log_call|]. step_in.
  eapply triple_bind; [apply runs_update_store_status|]. step_in.
  eapply triple_bind; [apply runs_log_call|]. step_in.
  destruct repository as (_ & Hstore & _).
  destruct (Hstore i false) as [b Hb]. rewrite Hb.
  eapply triple_bind; [apply triple_lift_ok|]. step_in.
  apply triple_ret. auto.
Qed.

(** The loop over the stores, on a working disk: it never raises, returns
    the tally of the products returned, rewrites nothing but the
    sub-statuses, and makes the calls of one store after those of the
    store before. *)
Lemma runs_search_stores attributes start stores (E : Exn -> World -> Prop) :
  forall i total state made,
  triple (at_ id state made)
         (search_stores env id attributes start i stores total)
         (fun res w => exists state',
            at_ id state' (made ++ loop_calls env attributes i stores) w /\
            res = (total + tally env i stores)%Z /\
            state' = set_stores state (SearchState.stores_searched state') /\
            view (SearchState.stores_searched state')
              = verdicts env i stores (view (SearchState.stores_searched state)))
         E.
Proof.
  induction stores as [|store rest IH]; intros i total state made.
  - simpl. apply triple_ret. intros w Hw. exists state.
    rewrite app_nil_r, Z.add_0_r. repeat split; [apply Hw..|].
    destruct state; reflexivity.
  - simpl search_stores. set (n := Models.value store).
    eapply triple_bind with
      (R := fun searched w =>
              searched = search_store_result env i n /\
              at_ id (set_stores state
                        (update_first n (value PROCESSING) 0
                           (SearchState.stores_searched state)))
                  ((made ++ [CallUpdateStoreStatus n (value PROCESSING) 0])
                   ++ [CallSearchStore n attributes]) w).
    { apply triple_attempt.
      eapply triple_bind; [apply runs_log_call|]. step_in.
      eapply triple_bind; [apply runs_update_store_status|]. step_in.
      eapply triple_bind; [apply runs_log_call|]. step_in.
      apply triple_lift; intros; split; auto. }
    intros searched. apply triple_pure_l. intros ->.
    set (state1 := set_stores state _). set (made1 := (_ ++ _) ++ _).
    assert (Hcalls : forall tail,
      made ++ iteration_calls env attributes i n ++ tail
      = (((made1 ++ [CallUpdateStoreStatus n (verdict env i n) 0])
          ++ [CallSaveStoreSearch n
                (match search_store_result env i n with
                 | Ok _ => true | Raise _ => false end)]) ++ tail)).
    { intros tail. subst made1. unfold iteration_calls.
      rewrite <- !app_assoc. reflexivity. }
    assert (Hfinish : forall status time_ms made2 total',
      status = verdict env i n ->
      made2 = (made1 ++ [CallUpdateStoreStatus n status 0])
              ++ [CallSaveStoreSearch n
                    (match search_store_result env i n with
                     | Ok _ => true | Raise _ => false end)] ->
      total' = (total + found env i n)%Z ->
      triple (at_ id (set_stores state1
                        (update_first n status time_ms
                           (SearchState.stores_searched state1))) made2)
        (search_stores env id attributes start (S i) rest total')
        (fun res w => exists state',
           at_ id state' (made ++ loop_calls env attributes i (store :: rest)) w /\
           res = (total + tally env i (store :: rest))%Z /\
           state' = set_stores state (SearchState.stores_searched state') /\
           view (SearchState.stores_searched state')
             = verdicts env i (store :: rest)
                 (view (SearchState.stores_searched state)))
        E).
    { intros status time_ms made2 total' -> -> ->.
      eapply triple_conseq with (E' := E); [apply IH | | | ].
      { intros w Hw. exact Hw. }
      2:{ intros e w He. exact He. }
      intros res w (state' & Hat & -> & Hframe & Hview).
      exists state'.
      change (loop_calls env attributes i (store :: rest))
        with (iteration_calls env attributes i n
              ++ loop_calls env attributes (S i) rest).
      change (tally env i (store :: rest))
        with (found env i n + tally env (S i) rest)%Z.
      change (verdicts env i (store :: rest)
                (view (SearchState.stores_searched state)))
        with (verdicts env (S i) rest
                (set_first n (verdict env i n)
                   (view (SearchState.stores_searched state)))).
      rewrite Hcalls. repeat split.
      - apply Hat.
      - apply Hat.
      - lia.
      - rewrite Hframe at 1. reflexivity.
      - rewrite Hview. simpl. rewrite !view_update_first, set_first_twice.
        reflexivity. }
    destruct (search_store_result env i n) as [products|e] eqn:Eout.
    + eapply triple_bind with
        (R := fun total' w => exists time_ms,
                total' = (total + Z.of_nat (length products))%Z /\
                at_ id (set_stores state1
                          (update_first n (value COMPLETED) time_ms
                             (SearchState.stores_searched state1)))
                    ((made1 ++ [CallUpdateStoreStatus n (value COMPLETED) 0])
                     ++ [CallSaveStoreSearch n true]) w).
      { eapply triple_bind with
          (R := fun recorded w => exists time_ms,
                  (exists u, recorded = Ok u) /\
                  at_ id (set_stores state1
                            (update_first n (value COMPLETED) time_ms
                               (SearchState.stores_searched state1)))
                      ((made1 ++ [CallUpdateStoreStatus n (value COMPLETED) 0])
                       ++ [CallSaveStoreSearch n true]) w).
        { apply triple_attempt.
          eapply triple_bind; [apply runs_now|]. intros t; cbv beta.
          eapply triple_bind; [apply runs_log_call|]. step_in.
          eapply triple_bind; [apply runs_update_store_status|]. step_in.
          eapply triple_bind; [apply runs_log_call|]. step_in.
          destruct repository as (_ & Hstore & _).
          destruct (Hstore i true) as [b Hb]. rewrite Hb.
          eapply triple_bind; [apply triple_lift_ok|]. step_in.
          apply triple_ret. intros w Hw.
          exists (elapsed_ms start t). split; [eauto | exact Hw]. }
        intros recorded. apply triple_exists_l. intros time_ms.
        apply triple_pure_l. intros [u ->].
        apply triple_ret. intros w Hw. exists time_ms. split; [reflexivity|exact Hw]. }
      intros total'. apply triple_exists_l. intros time_ms.
      apply triple_pure_l. intros ->.
      apply Hfinish.
      * unfold verdict. rewrite Eout. reflexivity.
      * reflexivity.
      * unfold found. rewrite Eout. reflexivity.
    + eapply triple_bind with
        (R := fun total' w =>
                total' = total /\
                at_ id (set_stores state1
                          (update_first n (value FAILED) 0
                             (SearchState.stores_searched state1)))
                    ((made1 ++ [CallUpdateStoreStatus n (value FAILED) 0])
                     ++ [CallSaveStoreSearch n false]) w).
      { eapply triple_bind; [apply runs_mark_store_failed|]. step_in.
        apply triple_ret. intros w Hw. split; [reflexivity | exact Hw]. }
      intros total'. apply triple_pure_l. intros ->.
      apply Hfinish.
      * unfold verdict. rewrite Eout. reflexivity.
      * reflexivity.
      * unfold found. rewrite Eout. lia.
Qed.

Lemma runs_initialize_search made names (E : Exn -> World -> Prop) :
  triple (fun w => map untimed (calls w) = made)
         (initialize_search (sys env) id names)
         (fun _ w => exists start,
            at_ id {| SearchState.search_id := id;
                      SearchState.status := value PROCESSING;
                      SearchState.start_time := start;
                      SearchState.end_time := None;
                      SearchState.elapsed_time_ms := 0;
                      SearchState.stores_searched :=
                        map (fun store => {| StoreState.name := store;
                                             StoreState.status := value PROCESSING;
                                             StoreState.time_ms := 0 |}) names;
                      SearchState.attributes_recognized := [];
                      SearchState.result_count := 0 |} made w)
         E.
Proof.
  intros w Hw. unfold initialize_search, mbind, M_bind, now, _save_state,
    written_files.
  simpl. rewrite disk. eexists. split; [apply lookup_insert_eq | exact Hw].
Qed.

(** The whole of [process_search] when the image is saved and the
    analyzer answers: the search completes, with the analyzer's attributes,
    the tally of the products returned, and one verdict per store
    searched. *)
Lemma runs_process_search image stores image_url attributes analysis_time_ms
    made :
  save_image_result env = Ok (Some image_url) ->
  truthy (Some image_url) = true ->
  analyze_result env = Ok (attributes, analysis_time_ms) ->
  triple (fun w => map untimed (calls w) = made)
         (process_search env image stores id)
         (fun _ w => exists state,
            at_ id state (made ++ completed_calls env id stores image_url attributes) w /\
            SearchState.status state = value COMPLETED /\
            SearchState.attributes_recognized state = attributes /\
            SearchState.result_count state = tally env 0 stores /\
            view (SearchState.stores_searched state)
              = verdicts env 0 stores
                  (map (fun s => (Models.value s, value PROCESSING)) stores))
         (fun _ _ => False).
Proof.
  intros Himage Htruthy Hanalyze. unfold process_search, process_search_body.
  eapply triple_bind with (R := fun _ w => map untimed (calls w) = made).
  { intros w Hw. exact Hw. }
  step_in.
  eapply triple_try_except with (E' := fun _ _ => False); [|intros e w []].
  eapply triple_bind with
    (R := fun _ w => map untimed (calls w)
                     = made ++ [CallInitializeSearch id (map Models.value stores)]).
  { intros w Hw. simpl. rewrite map_app, Hw. reflexivity. }
  step_in.
  eapply triple_bind; [apply runs_initialize_search|]. step_in.
  apply triple_exists_l. intros start.
  eapply triple_bind; [apply runs_log_call|]. step_in.
  rewrite Himage.
  eapply triple_bind; [apply triple_lift_eq|]. intros x; cbv beta.
  apply triple_pure_l. intros ->.
  rewrite Htruthy. simpl negb. cbv iota. unfold analyze_and_search.
  eapply triple_bind; [apply runs_log_call|]. step_in.
  rewrite Hanalyze.
  eapply triple_bind; [apply triple_lift_eq|]. intros x; cbv beta.
  apply triple_pure_l. intros ->.
  eapply triple_bind; [apply runs_log_call|]. step_in.
  eapply triple_bind; [apply runs_update_attributes|]. step_in.
  eapply triple_bind; [apply runs_log_call|]. step_in.
  destruct repository as ([b1 Hb1] & _ & [b2 Hb2]). rewrite Hb1, Hb2.
  eapply triple_bind; [apply triple_lift_ok|]. step_in.
  eapply triple_bind; [apply runs_now|]. intros start_search_time; cbv beta.
  eapply triple_bind; [apply runs_search_stores|]. intros total; cbv beta.
  apply triple_exists_l. intros state'.
  apply triple_pure_r. intros (-> & Hframe & Hview).
  eapply triple_bind; [apply runs_now|]. step_in.
  eapply triple_bind; [apply runs_log_call|]. step_in.
  eapply triple_bind; [apply runs_update_result_count|]. step_in.
  eapply triple_bind; [apply runs_log_call|]. step_in.
  eapply triple_bind; [apply (runs_update_search_status _ _ COMPLETED _ eq_refl)|].
  step_in. apply triple_exists_l. intros end_.
  eapply triple_bind; [apply runs_now|]. step_in.
  eapply triple_bind; [apply runs_log_call|]. step_in.
  eapply triple_bind; [apply triple_lift_ok|]. step_in.
  apply triple_ret. intros w [Hf Hc]. eexists. split; [split; [exact Hf|]|].
  - rewrite Hc. unfold completed_calls. simpl.
    rewrite <- !app_assoc. reflexivity.
  - simpl. repeat split.
    + rewrite Hframe. reflexivity.
    + rewrite Hview. simpl. unfold view. rewrite !map_map. reflexivity.
Qed.

End PipelineRuns.

(* ================================================================== *)
(** * What a finished search shows                                      *)
(* ================================================================== *)

Section PipelineResults.
Import Runtime StateService SearchService.

Variable env : Env.
Variable id : string.
Hypothesis disk : disk_works env.

(** A search whose image is saved and whose analyzer answers completes. *)
Lemma process_search_completes image stores image_url attributes
    analysis_time_ms w :
  repository_answers env ->
  save_image_result env = Ok (Some image_url) ->
  truthy (Some image_url) = true ->
  analyze_result env = Ok (attributes, analysis_time_ms) ->
  fst (process_search env image stores id w) = Ok tt /\
  exists state,
    final_record env image stores id w = Some state /\
    SearchState.status state = value COMPLETED /\
    SearchState.attributes_recognized state = attributes /\
    SearchState.result_count state = tally env 0 stores /\
    view (SearchState.stores_searched state)
      = verdicts env 0 stores
          (map (fun s => (Models.value s, value PROCESSING)) stores) /\
    final_calls env image stores id w
      = map untimed (calls w)
        ++ completed_calls env id stores image_url attributes.
Proof.
  intros Hrepo Himage Htruthy Hanalyze.
  pose proof (runs_process_search env id disk Hrepo image stores image_url
                attributes analysis_time_ms (map untimed (calls w))
                Himage Htruthy Hanalyze w eq_refl) as H.
  unfold final_record, final_calls.
  destruct (process_search env image stores id w) as [[[]|e] w']; [|destruct H].
  destruct H as (state & [Hf Hc] & Hrest). split; [reflexivity|].
  exists state. simpl. repeat split; try apply Hrest; assumption.
Qed.

(** A search whose image is not saved, or whose analyzer raises, fails. *)
Lemma process_search_fails image stores w :
  (forall u, save_image_result env = Ok u -> truthy u = true ->
             exists e, analyze_result env = Raise e) ->
  exists state,
    final_record env image stores id w = Some state /\
    SearchState.status state = value FAILED.
Proof.
  intros Hfail. unfold final_record.
  assert (Hfailed : forall state made E,
    triple (at_ id state made)
      (log_call (CallUpdateSearchStatus (value FAILED));;
       update_search_status (sys env) id FAILED)
      (fun _ w' => exists state', files w' !! id = Some state' /\
                   SearchState.status state' = value FAILED) E).
  { intros state made E.
    eapply triple_bind; [apply runs_log_call; exact disk|]. step_in.
    intros w' Hw'.
    pose proof (runs_update_search_status env id disk _ _ FAILED E eq_refl
                  w' Hw') as H.
    destruct (update_search_status (sys env) id FAILED w') as [[[]|e] w''];
      [|exact H].
    destruct H as [end_ [Hf _]]. eexists. split; [exact Hf | reflexivity]. }
  assert (H : triple (fun _ => True) (process_search env image stores id)
    (fun _ w' => exists state', files w' !! id = Some state' /\
                 SearchState.status state' = value FAILED)
    (fun _ _ => False)).
  { unfold process_search, process_search_body.
    eapply triple_bind with (R := fun _ _ => True); [intros w0 _; exact I|].
    step_in.
    eapply triple_try_except with
      (E' := fun _ w' => exists state made, at_ id state made w').
    2:{ intros e. apply triple_exists_l. intros state.
        apply triple_exists_l. intros made. apply Hfailed. }
    eapply triple_bind with (R := fun _ _ => True); [intros w0 _; exact I|].
    step_in.
    eapply triple_bind with
      (R := fun _ w' => exists state made, at_ id state made w').
    { intros w0 _.
      pose proof (runs_initialize_search env id disk (map untimed (calls w0))
                    (map Models.value stores) (fun _ _ => False) w0 eq_refl) as Hi.
      destruct (initialize_search (sys env) id (map Models.value stores) w0)
        as [[[]|e] w1]; [|destruct Hi].
      destruct Hi as [start Hat]. eauto. }
    step_in. apply triple_exists_l. intros state.
    apply triple_exists_l. intros made.
    eapply triple_bind; [apply runs_log_call; exact disk|]. step_in.
    destruct (save_image_result env) as [u|e] eqn:Eimg.
    2:{ intros w0 Hw. simpl. eauto. }
    eapply triple_bind; [apply triple_lift_eq|]. intros x; cbv beta.
    apply triple_pure_l. intros ->.
    destruct (truthy u) eqn:Eu; simpl negb; cbv iota.
    2:{ apply Hfailed. }
    destruct (Hfail u eq_refl Eu) as [e He].
    unfold analyze_and_search. rewrite He.
    eapply triple_bind; [apply runs_log_call; exact disk|]. step_in.
    intros w0 Hw. simpl. eauto. }
  specialize (H w I).
  destruct (process_search env image stores id w) as [[[]|e] w']; [|destruct H].
  exact H.
Qed.

(** On pairwise distinct stores every entry gets the verdict of its own
    search. *)
Lemma verdicts_distinct stores :
  forall i pre,
  NoDup (map Models.value stores) ->
  (forall x, In x pre -> ~ In (fst x) (map Models.value stores)) ->
  verdicts env i stores
    (pre ++ map (fun s => (Models.value s, value PROCESSING)) stores)
  = pre ++ verdict_view env i stores.
Proof.
  induction stores as [|s rest IH]; intros i pre Hnd Hpre.
  - reflexivity.
  - change (map Models.value (s :: rest))
      with (Models.value s :: map Models.value rest) in Hnd.
    apply NoDup_cons in Hnd as [Hs Hnd]. rewrite list_elem_of_In in Hs.
    simpl.
    assert (Hset : forall status tail,
      set_first (Models.value s) status
        (pre ++ (Models.value s, value PROCESSING) :: tail)
      = pre ++ (Models.value s, status) :: tail).
    { intros status tail. clear IH. induction pre as [|[n st] pre IHp]; simpl.
      - rewrite String.eqb_refl. reflexivity.
      - destruct (String.eqb_spec n (Models.value s)) as [->|_].
        + exfalso. apply (Hpre (Models.value s, st)); [left; reflexivity|].
          left. reflexivity.
        + f_equal. apply IHp. intros x Hx. apply Hpre. right. exact Hx. }
    rewrite Hset.
    assert (Hre : forall (x : string * string) tail,
              pre ++ x :: tail = (pre ++ [x]) ++ tail).
    { intros x tail. rewrite <- app_assoc. reflexivity. }
    rewrite (Hre _ (map _ rest)), (Hre _ (verdict_view env (S i) rest)).
    rewrite IH; [reflexivity | exact Hnd |].
    intros x Hx. apply in_app_or in Hx as [Hx|[<-|[]]].
    + intros Hin. apply (Hpre x Hx). right. exact Hin.
    + exact Hs.
Qed.

Lemma completed_sum_verdicts stores :
  forall i entries,
  view entries = verdict_view env i stores ->
  completed_sum env i entries = tally env i stores.
Proof.
  induction stores as [|s rest IH]; intros i [|e entries] Hv;
    simpl in Hv; try discriminate Hv; [reflexivity|].
  injection Hv as Hn Hs Hrest. simpl. rewrite (IH _ _ Hrest), Hn, Hs.
  unfold verdict, found.
  destruct (search_store_result env i (Models.value s)); reflexivity.
Qed.

Lemma verdict_view_lookup stores :
  forall i j x,
  verdict_view env i stores !! j = Some x ->
  exists s, stores !! j = Some s /\
            x = (Models.value s, verdict env (i + j) (Models.value s)).
Proof.
  induction stores as [|s rest IH]; intros i j x H; [destruct j; discriminate H|].
  destruct j as [|j]; simpl in H.
  - injection H as <-. exists s. rewrite Nat.add_0_r. split; reflexivity.
  - destruct (IH (S i) j x H) as (s' & Hs' & ->). exists s'.
    split; [exact Hs'|]. replace (i + S j)%nat with (S i + j)%nat by lia.
    reflexivity.
Qed.

(** The status shown for a store is the verdict of the last search made
    for it. *)
Lemma find_set_first store status name v :
  snd <$> List.find (fun e => String.eqb (fst e) name) (set_first store status v)
  = if String.eqb store name
    then (fun _ => status) <$> List.find (fun e => String.eqb (fst e) name) v
    else snd <$> List.find (fun e => String.eqb (fst e) name) v.
Proof.
  induction v as [|[n s] rest IH]; simpl.
  - destruct (String.eqb store name); reflexivity.
  - destruct (String.eqb_spec n store) as [->|Hne]; simpl.
    + destruct (String.eqb store name); reflexivity.
    + destruct (String.eqb_spec n name) as [->|Hne'].
      * destruct (String.eqb_spec store name) as [->|_];
          [contradiction | reflexivity].
      * exact IH.
Qed.

Lemma shown_verdicts stores name :
  forall i v,
  snd <$> List.find (fun e => String.eqb (fst e) name) (verdicts env i stores v)
  = match snd <$> List.find (fun e => String.eqb (fst e) name) v with
    | Some status => last_verdict env i stores name (Some status)
    | None => None
    end.
Proof.
  induction stores as [|s rest IH]; intros i v; simpl.
  - destruct (snd <$> List.find _ v); reflexivity.
  - rewrite IH, find_set_first.
    destruct (String.eqb_spec (Models.value s) name) as [->|_].
    + destruct (List.find _ v); reflexivity.
    + reflexivity.
Qed.



Lemma searches_of_loop attributes stores :
  forall i,
  List.filter is_search (loop_calls env attributes i stores)
  = map (fun s => CallSearchStore (Models.value s) attributes) stores.
Proof.
  induction stores as [|s rest IH]; intros i; simpl; [reflexivity|].
  f_equal. apply IH.
Qed.

End PipelineResults.

(** C2, at a concrete input: a search over zalando on a working disk. *)
Lemma process_search_ends_terminal_witness :
  let env := Scenario.services Scenario.reliable Scenario.all_found in
  let w' := snd (SearchService.process_search env Scenario.jpeg
                   [Models.ZALANDO] "id-1" Runtime.empty_world) in
  Runtime.io_ok Scenario.reliable (Runtime.io_ops Runtime.empty_world) = true /\
  Runtime.io_ok Scenario.reliable (Runtime.io_ops w' - 1) = true /\
  exists state,
    Runtime.files w' !! "id-1" = Some state /\
    StateService.terminal (SearchState.status state).
Proof.
  intros env w'.
  assert (H0 : Runtime.io_ok Scenario.reliable
                 (Runtime.io_ops Runtime.empty_world) = true) by reflexivity.
  assert (H1 : Runtime.io_ok Scenario.reliable (Runtime.io_ops w' - 1) = true)
    by reflexivity.
  split; [exact H0|]. split; [exact H1|].
  exact (proj2 (process_search_ends_terminal env Scenario.jpeg [Models.ZALANDO]
                  "id-1" Runtime.empty_world H0 H1)).
Defined.

(** C2 as stated fails: when the write of the last status update fails at
    [open] (logged and swallowed by [_save_state]), the task ends normally
    and the record it persisted first is still ["processing"]. *)
Lemma lost_final_write_leaves_processing :
  let env := Scenario.services (Scenario.failing_at 10) Scenario.all_found in
  let w' := snd (SearchService.process_search env Scenario.jpeg
                   [Models.ZALANDO] "id-1" Runtime.empty_world) in
  Runtime.io_ok (SearchService.sys env) (Runtime.io_ops Runtime.empty_world) = true /\
  fst (SearchService.process_search env Scenario.jpeg [Models.ZALANDO] "id-1"
         Runtime.empty_world) = Runtime.Ok tt /\
  exists state,
    Runtime.files w' !! "id-1" = Some state /\
    SearchState.status state = "processing" /\
    ~ StateService.terminal (SearchState.status state).
Proof.
  intros env w'. split; [reflexivity|]. split; [vm_compute; reflexivity|].
  eexists. split; [vm_compute; reflexivity|]. split; [reflexivity|].
  intros [H|H]; discriminate H.
Qed.

(** X19. The result count of a completed search. On a working disk, with
    a repository that answers its calls (none of them raises), for a search
    over pairwise distinct stores whose record reaches ["completed"]:
    [result_count] is the sum, over the entries whose sub-status is
    ["completed"], of the number of products the search of that store
    returned; it is the tally of all the products returned; and every
    entry is ["completed"] when its search returned and ["failed"] when it
    raised, a failed store having contributed nothing. *)
Theorem result_count_sums_completed_stores (env : SearchService.Env)
    (image : Models.UploadFile) (stores : list Models.StoreEnum)
    (search_id : string) (w : Runtime.World) (state : SearchState.t) :
  SearchService.disk_works env ->
  SearchService.repository_answers env ->
  NoDup (map Models.value stores) ->
  SearchService.final_record env image stores search_id w = Some state ->
  SearchState.status state = "completed" ->
  SearchState.result_count state
    = SearchService.completed_sum env 0 (SearchState.stores_searched state) /\
  SearchState.result_count state = SearchService.tally env 0 stores /\
  (forall j e,
     SearchState.stores_searched state !! j = Some e ->
     exists s, stores !! j = Some s /\ StoreState.name e = Models.value s /\
       match SearchService.search_store_result env j (Models.value s) with
       | Runtime.Ok products => StoreState.status e = "completed"
       | Runtime.Raise _ =>
           StoreState.status e = "failed" /\
           SearchService.found env j (StoreState.name e) = 0%Z
       end).
Proof.
  intros Hdisk Hrepo Hnd Hfinal Hcompleted.
  destruct (SearchService.save_image_result env) as [u|ex] eqn:Eimg.
  2:{ destruct (process_search_fails env search_id Hdisk image stores w)
        as (st & Hst & Hfailed); [intros u Hu; rewrite Eimg in Hu; discriminate Hu|].
      rewrite Hfinal in Hst. injection Hst as <-.
      rewrite Hcompleted in Hfailed. discriminate Hfailed. }
  destruct (Runtime.truthy u) eqn:Eu.
  2:{ destruct (process_search_fails env search_id Hdisk image stores w)
        as (st & Hst & Hfailed).
      { intros u' Hu' Ht. rewrite Eimg in Hu'. injection Hu' as <-. congruence. }
      rewrite Hfinal in Hst. injection Hst as <-.
      rewrite Hcompleted in Hfailed. discriminate Hfailed. }
  destruct (SearchService.analyze_result env) as [[attributes ms]|ex] eqn:Ean.
  2:{ destruct (process_search_fails env search_id Hdisk image stores w)
        as (st & Hst & Hfailed); [intros; exists ex; exact Ean|].
      rewrite Hfinal in Hst. injection Hst as <-.
      rewrite Hcompleted in Hfailed. discriminate Hfailed. }
  destruct u as [image_url|]; [|discriminate Eu].
  destruct (process_search_completes env search_id Hdisk image stores image_url
              attributes ms w Hrepo Eimg Eu Ean)
    as (_ & st & Hst & _ & _ & Hcount & Hview & _).
  rewrite Hfinal in Hst. injection Hst as <-.
  pose proof (verdicts_distinct env stores 0 [] Hnd ltac:(intros x [])) as Hv.
  rewrite !app_nil_l in Hv. rewrite Hv in Hview.
  split; [|split].
  - rewrite Hcount. symmetry. apply completed_sum_verdicts. exact Hview.
  - exact Hcount.
  - intros j e Hj.
    assert (Hx : SearchService.view (SearchState.stores_searched state) !! j
                 = Some (StoreState.name e, StoreState.status e)).
    { unfold SearchService.view. rewrite list_lookup_fmap, Hj. reflexivity. }
    rewrite Hview in Hx.
    destruct (verdict_view_lookup env stores 0 j _ Hx) as (s & Hs & Heq).
    injection Heq as Hn Hst. exists s. split; [exact Hs|]. split; [exact Hn|].
    simpl in Hst. unfold SearchService.verdict in Hst.
    unfold SearchService.found. rewrite Hn.
    destruct (SearchService.search_store_result env j (Models.value s));
      [exact Hst | split; [exact Hst | reflexivity]].
Qed.

(** X19, at a concrete input: zalando and asos, the search of asos raises;
    the three products of zalando are counted. *)
Lemma result_count_sums_completed_stores_witness :
  let env := Scenario.services Scenario.reliable Scenario.second_raises in
  exists state,
    SearchService.final_record env Scenario.jpeg [Models.ZALANDO; Models.ASOS]
      "id-1" Runtime.empty_world = Some state /\
    SearchState.status state = "completed" /\
    SearchState.result_count state
      = SearchService.completed_sum env 0 (SearchState.stores_searched state) /\
    SearchState.result_count state = 3%Z.
Proof.
  intros env.
  assert (Hdisk : SearchService.disk_works env) by (intros n; reflexivity).
  assert (Hrepo : SearchService.repository_answers env).
  { split; [|split]; intros; eexists; reflexivity. }
  assert (Hnd : NoDup (map Models.value [Models.ZALANDO; Models.ASOS])).
  { simpl. apply NoDup_cons. split; [|apply NoDup_singleton].
    intros H. apply list_elem_of_singleton in H. discriminate H. }
  destruct (SearchService.final_record env Scenario.jpeg
              [Models.ZALANDO; Models.ASOS] "id-1" Runtime.empty_world)
    as [state|] eqn:Hfinal; [|vm_compute in Hfinal; discriminate Hfinal].
  assert (Hcompleted : SearchState.status state = "completed").
  { vm_compute in Hfinal. injection Hfinal as <-. reflexivity. }
  exists state. split; [reflexivity|]. split; [exact Hcompleted|].
  destruct (result_count_sums_completed_stores env Scenario.jpeg
              [Models.ZALANDO; Models.ASOS] "id-1" Runtime.empty_world state
              Hdisk Hrepo Hnd Hfinal Hcompleted) as (H1 & H2 & _).
  split; [exact H1 | exact H2].
Defined.

(** C3, on the code. Two searches that reach ["completed"] with a
    [result_count] that is not the sum over the stores whose sub-status is
    ["completed"].
    - A store requested twice, zalando and zalando, every collaborator
      answering: each search returns three products and [total_results] is
      6, while [update_store_status] rewrites the first entry named
      zalando both times: the record shows one entry ["completed"] and one
      still ["processing"], and the completed entries account for three
      products.
    - Zalando and asos, with an injected repository whose
      [save_store_search] raises after a search that succeeded:
      [total_results] was increased before the call, so the record counts
      the seven products of two stores that the handler then marks
      ["failed"]. *)
Theorem result_count_counts_unfinished_stores :
  let env := Scenario.services Scenario.reliable Scenario.all_found in
  let env' := Scenario.with_store_records env (Scenario.save_raises_for true) in
  (exists state,
     SearchService.final_record env Scenario.jpeg [Models.ZALANDO; Models.ZALANDO]
       "id-1" Runtime.empty_world = Some state /\
     SearchState.status state = "completed" /\
     SearchState.result_count state = 6%Z /\
     SearchService.view (SearchState.stores_searched state)
       = [("zalando", "completed"); ("zalando", "processing")] /\
     SearchService.completed_sum env 0 (SearchState.stores_searched state) = 3%Z) /\
  (exists state,
     SearchService.final_record env' Scenario.jpeg [Models.ZALANDO; Models.ASOS]
       "id-1" Runtime.empty_world = Some state /\
     SearchState.status state = "completed" /\
     SearchState.result_count state = 7%Z /\
     SearchService.view (SearchState.stores_searched state)
       = [("zalando", "failed"); ("asos", "failed")] /\
     SearchService.completed_sum env' 0 (SearchState.stores_searched state) = 0%Z).
Proof.
  intros env env'. split.
  - eexists. split; [vm_compute; reflexivity|]. repeat split.
  - eexists. split; [vm_compute; reflexivity|]. repeat split.
Qed.

(* ================================================================== *)
(** * One store's failure and the others                                *)
(* ================================================================== *)

Section PipelineIsolation.
Import Runtime StateService SearchService.

Variable env : Env.
Variable id : string.
Hypothesis disk : disk_works env.
Hypothesis repository : repository_answers env.

Lemma find_initial (stores : list Models.StoreEnum) (name status : string) :
  snd <$> List.find (fun e : string * string => String.eqb (fst e) name)
                    (map (fun s => (Models.value s, status)) stores)
  = if decide (name ∈ map Models.value stores) then Some status else None.
Proof.
  induction stores as [|s rest IH]; simpl.
  - destruct (decide (name ∈ [])) as [H|_]; [inversion H | reflexivity].
  - destruct (String.eqb_spec (Models.value s) name) as [E|Hne]; simpl.
    + rewrite decide_True; [reflexivity|]. rewrite E. left.
    + rewrite IH. destruct (decide (name ∈ map Models.value rest)) as [H|H].
      * rewrite decide_True; [reflexivity|]. right. exact H.
      * rewrite decide_False; [reflexivity|]. intros H'.
        apply elem_of_cons in H' as [E|H']; [congruence | contradiction].
Qed.

(** The status a finished search shows for a store: the verdict of the
    last search made for that store, whatever the other searches did. *)
Lemma final_shown_last_verdict image stores image_url attributes
    analysis_time_ms w name :
  save_image_result env = Ok (Some image_url) ->
  truthy (Some image_url) = true ->
  analyze_result env = Ok (attributes, analysis_time_ms) ->
  final_shown env image stores id w name
  = if decide (name ∈ map Models.value stores)
    then last_verdict env 0 stores name (Some (value PROCESSING))
    else None.
Proof.
  intros Himage Htruthy Hanalyze.
  destruct (process_search_completes env id disk image stores image_url
              attributes analysis_time_ms w repository Himage Htruthy Hanalyze)
    as (_ & state & Hfinal & _ & _ & _ & Hview & _).
  unfold final_shown. rewrite Hfinal. simpl. unfold shown.
  rewrite Hview, shown_verdicts, find_initial.
  destruct (decide _); reflexivity.
Qed.




End PipelineIsolation.



(** C4, on the code. Two searches in which the failure of one store
    search does not stay with that store.
    - A store requested twice, zalando and zalando, the second search
      raising: the handler marks the first entry named zalando, the one of
      the search that had returned three products and was ["completed"],
      as ["failed"]; the entry of the search that raised is never
      rewritten and is still ["processing"] when the search completes.
    - Zalando and asos, the search of zalando raising, with an injected
      repository whose [save_store_search] raises in the handler: the
      exception leaves the loop, asos is never searched and its entry
      stays ["processing"], and the whole search ends ["failed"]. *)
Theorem repeated_store_failure_is_not_isolated :
  let env := Scenario.services Scenario.reliable Scenario.second_raises in
  let env' := Scenario.with_store_records
                (Scenario.services Scenario.reliable Scenario.first_raises)
                (Scenario.save_raises_for false) in
  (exists state,
     SearchService.final_record env Scenario.jpeg [Models.ZALANDO; Models.ZALANDO]
       "id-1" Runtime.empty_world = Some state /\
     SearchState.status state = "completed" /\
     SearchState.result_count state = 3%Z /\
     SearchService.view (SearchState.stores_searched state)
       = [("zalando", "failed"); ("zalando", "processing")]) /\
  (exists state,
     SearchService.final_record env' Scenario.jpeg [Models.ZALANDO; Models.ASOS]
       "id-1" Runtime.empty_world = Some state /\
     SearchState.status state = "failed" /\
     SearchService.view (SearchState.stores_searched state)
       = [("zalando", "failed"); ("asos", "processing")] /\
     List.filter SearchService.is_search
       (SearchService.final_calls env' Scenario.jpeg [Models.ZALANDO; Models.ASOS]
          "id-1" Runtime.empty_world)
       = [Runtime.CallSearchStore "zalando" Scenario.red]).
Proof.
  intros env env'. split.
  - eexists. split; [vm_compute; reflexivity|]. repeat split.
  - eexists. split; [vm_compute; reflexivity|]. repeat split.
Qed.

(* ================================================================== *)
(** * The analyzer                                                      *)
(* ================================================================== *)

(** [analyze_clothing_image] never raises, and answers with no attribute
    when it has no key or when its request fails. *)
Lemma analyze_failure_is_empty (api_key : option string) (t0 t1 : Z)
    (request : Runtime.Result (list Models.AttributeRecognition)) :
  Runtime.truthy api_key = false \/ (exists e, request = Runtime.Raise e) ->
  exists ms,
    VisionService.analyze_clothing_image api_key t0 t1 request
    = Runtime.Ok ([], ms).
Proof.
  intros [Hkey | [e ->]]; unfold VisionService.analyze_clothing_image.
  - rewrite Hkey. simpl. eexists. reflexivity.
  - destruct (negb (Runtime.truthy api_key)); eexists; reflexivity.
Qed.

(** C7. When the analyzer of the search is [analyze_clothing_image] and it
    has no API key, or its request raises, it answers with the empty list;
    on a working disk, with the image saved and a repository that answers
    its calls, [process_search] then returns normally, [update_attributes]
    is called with the empty list, which is what the final record holds,
    every requested store is searched (with the empty list), and the search
    completes. *)
Theorem analyzer_failure_is_not_fatal (env : SearchService.Env)
    (image : Models.UploadFile) (stores : list Models.StoreEnum)
    (search_id : string) (w : Runtime.World) (image_url : string)
    (api_key : option string) (t0 t1 : Z)
    (request : Runtime.Result (list Models.AttributeRecognition)) :
  SearchService.disk_works env ->
  SearchService.repository_answers env ->
  SearchService.save_image_result env = Runtime.Ok (Some image_url) ->
  Runtime.truthy (Some image_url) = true ->
  SearchService.analyze_result env
    = VisionService.analyze_clothing_image api_key t0 t1 request ->
  Runtime.truthy api_key = false \/ (exists e, request = Runtime.Raise e) ->
  (exists ms, SearchService.analyze_result env = Runtime.Ok ([], ms)) /\
  fst (SearchService.process_search env image stores search_id w) = Runtime.Ok tt /\
  (exists state,
     SearchService.final_record env image stores search_id w = Some state /\
     SearchState.attributes_recognized state = [] /\
     SearchState.status state = "completed") /\
  SearchService.final_calls env image stores search_id w
    = map SearchService.untimed (Runtime.calls w)
      ++ SearchService.completed_calls env search_id stores image_url [] /\
  In (Runtime.CallUpdateAttributes [])
     (SearchService.completed_calls env search_id stores image_url []) /\
  List.filter SearchService.is_search
    (SearchService.completed_calls env search_id stores image_url [])
    = map (fun s => Runtime.CallSearchStore (Models.value s) []) stores.
Proof.
  intros Hdisk Hrepo Himage Htruthy Hanalyzer Hfailure.
  destruct (analyze_failure_is_empty api_key t0 t1 request Hfailure) as [ms Hms].
  rewrite Hms in Hanalyzer.
  destruct (process_search_completes env search_id Hdisk image stores image_url
              [] ms w Hrepo Himage Htruthy Hanalyzer)
    as (Hok & state & Hfinal & Hstatus & Hattrs & _ & _ & Hcalls).
  split; [exists ms; exact Hanalyzer|]. split; [exact Hok|].
  split; [exists state; repeat split; assumption|].
  split; [exact Hcalls|]. split.
  - unfold SearchService.completed_calls. simpl. tauto.
  - unfold SearchService.completed_calls.
    rewrite !List.filter_app, searches_of_loop. simpl. apply app_nil_r.
Qed.

(** C7, at a concrete input: no API key, stores zalando and asos. *)
Lemma analyzer_failure_is_not_fatal_witness :
  let env := Scenario.without_key
               (Scenario.services Scenario.reliable Scenario.all_found) in
  SearchService.disk_works env /\
  SearchService.repository_answers env /\
  Runtime.truthy None = false /\
  exists state,
    SearchService.final_record env Scenario.jpeg [Models.ZALANDO; Models.ASOS]
      "id-1" Runtime.empty_world = Some state /\
    SearchState.attributes_recognized state = [] /\
    SearchState.status state = "completed".
Proof.
  intros env.
  assert (Hdisk : SearchService.disk_works env) by (intros n; reflexivity).
  assert (Hrepo : SearchService.repository_answers env).
  { split; [|split]; intros; eexists; reflexivity. }
  split; [exact Hdisk|]. split; [exact Hrepo|]. split; [reflexivity|].
  exact (proj1 (proj2 (proj2 (analyzer_failure_is_not_fatal env Scenario.jpeg
    [Models.ZALANDO; Models.ASOS] "id-1" Runtime.empty_world "temp/id-1.jpg"
    None 0 1500000 (Runtime.Ok Scenario.red)
    Hdisk Hrepo eq_refl eq_refl eq_refl (or_introl eq_refl))))).
Defined.

(* ================================================================== *)
(** * The store searches run one after the other                        *)
(* ================================================================== *)

(** C8, on the code. For a search over zalando and asos with every
    collaborator answering, the calls [process_search] makes are these, in
    this order: the store asos is not marked ["processing"], let alone
    searched, before the search of zalando has returned and zalando has
    been marked ["completed"]; the time recorded for asos, measured from
    the start of the loop, includes the search of zalando. The loop awaits
    each [search_store] in turn: there is no fan-out. *)
Theorem store_searches_run_in_sequence :
  Runtime.calls
    (snd (SearchService.process_search
            (Scenario.services Scenario.reliable Scenario.all_found)
            Scenario.jpeg [Models.ZALANDO; Models.ASOS] "id-1"
            Runtime.empty_world))
  = [ Runtime.CallInitializeSearch "id-1" ["zalando"; "asos"];
      Runtime.CallSaveImage "id-1";
      Runtime.CallAnalyze "temp/id-1.jpg";
      Runtime.CallUpdateAttributes Scenario.red;
      Runtime.CallSaveAttributesBatch 1500;
      Runtime.CallUpdateStoreStatus "zalando" "processing" 0;
      Runtime.CallSearchStore "zalando" Scenario.red;
      Runtime.CallUpdateStoreStatus "zalando" "completed" 1000;
      Runtime.CallSaveStoreSearch "zalando" true;
      Runtime.CallUpdateStoreStatus "asos" "processing" 0;
      Runtime.CallSearchStore "asos" Scenario.red;
      Runtime.CallUpdateStoreStatus "asos" "completed" 2000;
      Runtime.CallSaveStoreSearch "asos" true;
      Runtime.CallUpdateResultCount 7;
      Runtime.CallUpdateSearchStatus "completed";
      Runtime.CallSaveSearchMetrics 7 ].
Proof. vm_compute. reflexivity. Qed.

(* ================================================================== *)
(** * The submission endpoint                                           *)
(* ================================================================== *)

Lemma in_types_spec (content_type : option string) :
  SearchService.in_types content_type = true <->
  content_type = Some "image/jpeg" \/ content_type = Some "image/png".
Proof.
  unfold SearchService.in_types, SearchService.valid_types.
  destruct content_type as [t|]; simpl.
  - rewrite !orb_true_iff, !String.eqb_eq. split.
    + intros [->|[->|H]]; [left | right | discriminate H]; reflexivity.
    + intros [H|H]; injection H as ->; auto.
  - split; [discriminate | intros [H|H]; discriminate H].
Qed.

(** C5. A submission whose content type is neither image/jpeg nor
    image/png, or whose payload is longer than 10 MiB, is answered with
    the error 400 and leaves the world as it was: no task is scheduled, no
    record is created, the clock is not even read. A submission of an
    accepted type whose payload is at most 10 MiB is answered with 202 and
    the fresh identifier, the status ["processing"], an estimate of 10
    seconds and a timestamp; its processing is scheduled as a background
    task, and no file is touched before the answer. *)
Theorem submission_is_validated_first (env : SearchService.Env)
    (image : Models.UploadFile) (stores : option (list Models.StoreEnum))
    (w : Runtime.World) :
  let ten_mib := (10 * 1024 * 1024)%Z in
  let accepted_type :=
    Models.content_type image = Some "image/jpeg" \/
    Models.content_type image = Some "image/png" in
  ((~ accepted_type \/
    (exists content, Models.read image = Some content /\
                     (ten_mib < Z.of_nat (length content))%Z)) ->
   exists detail,
     Router.create_search env image stores w
       = (Runtime.Raise (Runtime.HTTPException 400 detail), w) /\
     Router.respond (fst (Router.create_search env image stores w))
       = Router.Error 400 detail) /\
  (accepted_type ->
   forall content, Models.read image = Some content ->
   (Z.of_nat (length content) <= ten_mib)%Z ->
   exists body w',
     Router.create_search env image stores w = (Runtime.Ok body, w') /\
     Router.respond (fst (Router.create_search env image stores w))
       = Router.Json 202 body /\
     Models.search_id body = SearchService.uuid4 env /\
     Models.status body = "processing" /\
     Models.estimated_time_seconds body = 10%Z /\
     Models.timestamp body
       = Runtime.now_us (SearchService.sys env) (Runtime.clock_reads w) /\
     Runtime.files w' = Runtime.files w /\
     Runtime.background w'
       = Runtime.background w
         ++ [ {| Runtime.task_image := image;
                 Runtime.task_stores :=
                   match stores with
                   | Some (s :: l) => s :: l
                   | _ => Models.all_stores
                   end;
                 Runtime.task_search_id := SearchService.uuid4 env |} ]).
Proof.
  intros ten_mib accepted_type. split.
  - intros Hbad. unfold Router.create_search, SearchService.validate_image.
    destruct (SearchService.in_types (Models.content_type image)) eqn:Et; simpl.
    + destruct Hbad as [Hty | (content & Hread & Hlen)].
      * exfalso. apply Hty. apply in_types_spec. exact Et.
      * rewrite Hread. unfold SearchService.too_large.
        assert (Hlt : (10 * (1024 * 1024) <? Z.of_nat (length content))%Z = true).
        { apply Z.ltb_lt. unfold ten_mib in Hlen. lia. }
        rewrite Hlt. simpl. eexists. split; reflexivity.
    + eexists. split; reflexivity.
  - intros Hty content Hread Hlen.
    unfold Router.create_search, SearchService.validate_image.
    apply in_types_spec in Hty. rewrite Hty, Hread. simpl.
    unfold SearchService.too_large.
    assert (Hle : (10 * (1024 * 1024) <? Z.of_nat (length content))%Z = false).
    { apply Z.ltb_ge. unfold ten_mib in Hlen. lia. }
    rewrite Hle. simpl. eexists. eexists.
    split; [reflexivity|]. repeat split.
Qed.

(** C5, at concrete inputs: a PDF is rejected, a small JPEG accepted. *)
Lemma submission_is_validated_first_witness :
  let env := Scenario.services Scenario.reliable Scenario.all_found in
  (exists detail,
     Router.create_search env Scenario.pdf None Runtime.empty_world
     = (Runtime.Raise (Runtime.HTTPException 400 detail), Runtime.empty_world)) /\
  (exists body w',
     Router.create_search env Scenario.jpeg (Some [Models.ZALANDO])
       Runtime.empty_world = (Runtime.Ok body, w') /\
     Models.status body = "processing").
Proof.
  intros env. split.
  - destruct (proj1 (submission_is_validated_first env Scenario.pdf None
                       Runtime.empty_world)) as (detail & H & _).
    + left. intros [H|H]; discriminate H.
    + exists detail. exact H.
  - destruct (proj2 (submission_is_validated_first env Scenario.jpeg
                       (Some [Models.ZALANDO]) Runtime.empty_world)
                (or_introl eq_refl) _ eq_refl)
      as (body & w' & H & _ & _ & Hs & _).
    + simpl. lia.
    + exists body, w'. split; [exact H | exact Hs].
Defined.

(* ================================================================== *)
(** * The tests of the repository, replayed                             *)
(* ================================================================== *)

(** [test_validate_image_valid], [test_validate_image_invalid_type]. *)
Example test_validate_image_valid :
  SearchService.validate_image Scenario.jpeg = (true, EmptyString).
Proof. reflexivity. Qed.

Example test_validate_image_invalid_type :
  SearchService.validate_image Scenario.pdf
  = (false, "Invalid image format. Only JPEG/PNG accepted.").
Proof. reflexivity. Qed.

(** [test_process_search_image_save_failure]: when the image cannot be
    saved, the last call on the state service is
    [update_search_status(search_id, FAILED)], and the record says so. *)
Example test_process_search_image_save_failure :
  let env := SearchService.with_searches
               {| SearchService.sys := Scenario.reliable;
                  SearchService.uuid4 := "test-search-id";
                  SearchService.save_image_result := Runtime.Ok None;
                  SearchService.analyze_result := Runtime.Ok (Scenario.red, 1500%Z);
                  SearchService.search_store_result := Scenario.all_found;
                  SearchService.save_attributes_batch_result := Runtime.Ok true;
                  SearchService.save_store_search_result := fun _ _ => Runtime.Ok true;
                  SearchService.save_search_metrics_result := Runtime.Ok true |}
               (fun _ _ => Runtime.Ok []) in
  let w := snd (SearchService.process_search env Scenario.jpeg [Models.ZALANDO]
                  "test-search-id" Runtime.empty_world) in
  last (Runtime.calls w) = Some (Runtime.CallUpdateSearchStatus "failed") /\
  SearchState.status <$> (Runtime.files w !! "test-search-id") = Some "failed".
Proof. split; vm_compute; reflexivity. Qed.

(* ================================================================== *)
(** * Rate limiter: further properties                                  *)
(* ================================================================== *)

Section RateLimiterMore.
Import RateLimiter.

Variable cfg : Config.

Lemma count_length {A} (p : A -> bool) (l : list A) :
  (count p l <= length l)%nat.
Proof.
  unfold count. induction l as [|x l IH]; simpl; [lia|].
  destruct (p x); simpl; lia.
Qed.

Lemma prune_In (ws ts : Q) (l : list Q) : In ts (prune ws l) -> In ts l.
Proof. unfold prune. intros H. apply List.filter_In in H. apply H. Qed.

(** The two ways the block check ends. *)
Lemma blocked_cases (st : State) (ip : string) (now : Q) :
  (exists u, blocked_clients st !! ip = Some u /\ (now < u)%Q /\
     _is_client_blocked st ip now = ((true, py_int (u - now)), st)) \/
  ((blocked_clients st !! ip = None \/
    exists u, blocked_clients st !! ip = Some u /\ (u <= now)%Q) /\
   fst (_is_client_blocked st ip now) = (false, 0%Z) /\
   request_records (snd (_is_client_blocked st ip now)) = request_records st /\
   blocked_clients (snd (_is_client_blocked st ip now))
     = delete ip (blocked_clients st)).
Proof.
  unfold _is_client_blocked.
  destruct (blocked_clients st !! ip) as [u|] eqn:E.
  - destruct (Qle_bool u now) eqn:El.
    + right. apply Qle_bool_iff in El. simpl. repeat split. right. eauto.
    + left. exists u. repeat split.
      destruct (Qlt_le_dec now u) as [H|H]; [exact H|].
      apply Qle_bool_iff in H. congruence.
  - right. simpl. repeat split; [left; reflexivity|].
    symmetry. apply delete_id. exact E.
Qed.

(** [dispatch] on a rate-limited path, by the outcome of the block check
    and of the window check. *)
Lemma dispatch_cases (st : State) (a : Arrival) :
  let ip := client_ip (request a) in
  let pruned := prune (t_check a - inject_Z (window_size cfg)) (records_of st ip) in
  let limit := limit_for cfg (_is_authenticated (request a)) in
  _should_rate_limit (path (request a)) = true ->
  (exists u, blocked_clients st !! ip = Some u /\ (t_block a < u)%Q /\
     dispatch cfg st a = (TooManyRequests (py_int (u - t_block a)), st)) \/
  ((blocked_clients st !! ip = None \/
    exists u, blocked_clients st !! ip = Some u /\ (u <= t_block a)%Q) /\
   ((limit <= Z.of_nat (length pruned))%Z /\
    fst (dispatch cfg st a) = TooManyRequests (block_time cfg) /\
    (forall ip', records_of (snd (dispatch cfg st a)) ip'
                 = if decide (ip = ip') then pruned else records_of st ip') /\
    blocked_clients (snd (dispatch cfg st a))
      = <[ip := (t_check a + inject_Z (block_time cfg))%Q]>
          (delete ip (blocked_clients st))
    \/
    (Z.of_nat (length pruned) < limit)%Z /\
    fst (dispatch cfg st a) = Forwarded /\
    (forall ip', records_of (snd (dispatch cfg st a)) ip'
                 = if decide (ip = ip') then pruned ++ [t_record a]
                   else records_of st ip') /\
    blocked_clients (snd (dispatch cfg st a)) = delete ip (blocked_clients st))).
Proof.
  intros ip pruned limit Hp. unfold dispatch. rewrite Hp. fold ip.
  destruct (blocked_cases st ip (t_block a))
    as [(u & Hu & Hlt & E) | (Hnot & Hfst & Hrec & Hblk)].
  - left. exists u. rewrite E. repeat split; assumption.
  - right. split; [exact Hnot|].
    destruct (_is_client_blocked st ip (t_block a)) as [[blk ra] st1].
    simpl in Hfst, Hrec, Hblk. injection Hfst as -> ->.
    pose proof (check_spec cfg st1 ip (request a) (t_check a)) as Hc.
    destruct (_check_rate_limit cfg st1 ip (request a) (t_check a))
      as [[exc ra2] st2].
    simpl in Hc. destruct Hc as (Hexc & Hra & Hrec2 & Hblk2).
    assert (Hsame : forall ip', records_of st1 ip' = records_of st ip').
    { intros ip'. unfold records_of. rewrite Hrec. reflexivity. }
    rewrite Hsame in Hexc, Hrec2. fold pruned limit in Hexc, Hrec2.
    destruct exc; symmetry in Hexc.
    + left. apply Z.leb_le in Hexc. subst ra2. simpl.
      split; [exact Hexc|]. split; [reflexivity|]. split.
      * intros ip'. rewrite Hrec2, Hsame. reflexivity.
      * rewrite Hblk2, Hblk. reflexivity.
    + right. apply Z.leb_gt in Hexc. simpl.
      split; [exact Hexc|]. split; [reflexivity|]. split.
      * intros ip'. rewrite record_spec, !Hrec2.
        destruct (decide (ip = ip')) as [_|_]; [|apply Hsame].
        destruct (decide (ip = ip)); [reflexivity | contradiction].
      * unfold _record_request. destruct (dd_get _ _). simpl.
        rewrite Hblk2, Hblk. reflexivity.
Qed.

End RateLimiterMore.

Section RateLimiterClients.
Import RateLimiter.

Variable cfg : Config.

(** [dispatch] reads and writes the data of the client of the request
    only, and does to it what [client_step] says. *)
Lemma dispatch_view (st : State) (a : Arrival) :
  let ip := client_ip (request a) in
  let step := client_step cfg a (records_of st ip) (blocked_clients st !! ip) in
  fst (dispatch cfg st a) = fst step /\
  records_of (snd (dispatch cfg st a)) ip = fst (snd step) /\
  blocked_clients (snd (dispatch cfg st a)) !! ip = snd (snd step) /\
  (forall ip', ip' <> ip ->
     records_of (snd (dispatch cfg st a)) ip' = records_of st ip' /\
     blocked_clients (snd (dispatch cfg st a)) !! ip' = blocked_clients st !! ip').
Proof.
  intros ip step. subst step ip. unfold client_step.
  destruct (_should_rate_limit (path (request a))) eqn:Hp.
  2:{ unfold dispatch. rewrite Hp. simpl. repeat split. }
  destruct (dispatch_cases cfg st a Hp)
    as [(u & Hu & Hlt & E) | (Hnot & Hcheck)];
    set (ip := client_ip (request a)) in *.
  - rewrite E, Hu. simpl.
    assert (El : Qle_bool u (t_block a) = false).
    { destruct (Qle_bool u (t_block a)) eqn:El; [|reflexivity].
      apply Qle_bool_iff in El. lra. }
    rewrite El. simpl. repeat split. exact Hu.
  - set (pruned := prune (t_check a - inject_Z (window_size cfg)) (records_of st ip)) in *.
    set (limit := limit_for cfg (_is_authenticated (request a))) in *.
    assert (Hb : forall X : Response * (list Q * option Q),
      match blocked_clients st !! ip with
      | Some u => if Qle_bool u (t_block a) then X
                  else (TooManyRequests (py_int (u - t_block a)),
                        (records_of st ip, blocked_clients st !! ip))
      | None => X
      end = X).
    { intros X. destruct Hnot as [-> | (u & -> & Hle)]; [reflexivity|].
      apply Qle_bool_iff in Hle. rewrite Hle. reflexivity. }
    rewrite Hb.
    destruct Hcheck as [(Hlim & Hr & Hrec & Hblk) | (Hlim & Hr & Hrec & Hblk)].
    + apply Z.leb_le in Hlim. rewrite Hlim. simpl. rewrite Hr, Hrec, Hblk.
      split; [reflexivity|]. split; [destruct (decide (ip = ip)); congruence|].
      split; [apply lookup_insert_eq|]. intros ip' Hne. rewrite Hrec.
      destruct (decide (ip = ip')); [congruence|]. split; [reflexivity|].
      rewrite lookup_insert_ne, lookup_delete_ne by congruence. reflexivity.
    + apply Z.leb_gt in Hlim. rewrite Hlim. simpl. rewrite Hr, Hrec, Hblk.
      split; [reflexivity|]. split; [destruct (decide (ip = ip)); congruence|].
      split; [apply lookup_delete_eq|]. intros ip' Hne. rewrite Hrec.
      destruct (decide (ip = ip')); [congruence|]. split; [reflexivity|].
      rewrite lookup_delete_ne by congruence. reflexivity.
Qed.

End RateLimiterClients.

(** X1. The stored timestamps of a client never outnumber the larger of
    the two limits: whatever requests a fresh limiter has handled, and
    whatever the clock did, the list kept for a client holds at most
    [max 0 (max anonymous_limit authenticated_limit)] timestamps. *)
Theorem stored_timestamps_are_bounded (cfg : RateLimiter.Config)
    (arrivals : list RateLimiter.Arrival) (ip : string) :
  (Z.of_nat (length (RateLimiter.records_of
                       (RateLimiter.state_after cfg RateLimiter.init arrivals) ip))
   <= Z.max 0 (Z.max (RateLimiter.anonymous_limit cfg)
                     (RateLimiter.authenticated_limit cfg)))%Z.
Proof.
  set (B := Z.max 0 (Z.max (RateLimiter.anonymous_limit cfg)
                           (RateLimiter.authenticated_limit cfg))).
  unfold RateLimiter.state_after.
  assert (H : forall st log,
    (forall ip', (Z.of_nat (length (RateLimiter.records_of st ip')) <= B)%Z) ->
    forall ip', (Z.of_nat (length (RateLimiter.records_of
                   (fst (RateLimiter.run cfg st log arrivals)) ip')) <= B)%Z).
  { induction arrivals as [|a rest IH]; intros st log Hst; simpl; [exact Hst|].
    destruct (dispatch_view cfg st a) as (_ & Hrec & _ & Hother).
    destruct (RateLimiter.dispatch cfg st a) as [r st1]. simpl in *.
    apply IH. intros ip'.
    destruct (decide (ip' = RateLimiter.client_ip (RateLimiter.request a)))
      as [->|Hne]; [|destruct (Hother ip' Hne) as [-> _]; apply Hst].
    rewrite Hrec. unfold RateLimiter.client_step.
    set (l := RateLimiter.records_of st _).
    set (pruned := RateLimiter.prune _ l).
    assert (Hp : (Z.of_nat (length pruned) <= B)%Z).
    { pose proof (count_length (fun timestamp => Qltb (RateLimiter.t_check a
                    - inject_Z (RateLimiter.window_size cfg)) timestamp) l) as Hc.
      specialize (Hst (RateLimiter.client_ip (RateLimiter.request a))).
      fold l in Hst. subst pruned. unfold RateLimiter.prune. unfold count in Hc.
      lia. }
    assert (Hlimit : (RateLimiter.limit_for cfg (RateLimiter._is_authenticated
                        (RateLimiter.request a)) <= B)%Z).
    { unfold RateLimiter.limit_for, B.
      destruct (RateLimiter._is_authenticated _); lia. }
    pose proof (Hst (RateLimiter.client_ip (RateLimiter.request a))) as Hl.
    fold l in Hl.
    destruct (RateLimiter._should_rate_limit _); [|exact Hl].
    destruct (RateLimiter.blocked_clients st !! _) as [u|];
      [destruct (Qle_bool u _); [|exact Hl]|];
      (destruct (_ <=? _)%Z eqn:El; simpl; [exact Hp|];
       apply Z.leb_gt in El; rewrite length_app; simpl; lia). }
  apply H. intros ip'. apply Z.le_max_l.
Qed.

(** X2. Clients do not interfere: the answers a limiter gives to the
    requests of one client, within a sequence of requests of any clients,
    are the answers it gives to that client's requests alone, from any
    state that holds the same timestamps and block entry for that client;
    so for a fresh limiter. *)
Theorem clients_do_not_interfere (cfg : RateLimiter.Config) (ip : string)
    (arrivals : list RateLimiter.Arrival) (st st' : RateLimiter.State) :
  RateLimiter.records_of st ip = RateLimiter.records_of st' ip ->
  RateLimiter.blocked_clients st !! ip = RateLimiter.blocked_clients st' !! ip ->
  RateLimiter.responses_of cfg st ip arrivals
  = RateLimiter.responses cfg st'
      (List.filter
         (fun a => String.eqb (RateLimiter.client_ip (RateLimiter.request a)) ip)
         arrivals).
Proof.
  revert st st'.
  induction arrivals as [|a rest IH]; intros st st' Hr Hb; simpl; [reflexivity|].
  destruct (dispatch_view cfg st a) as (Hf & Hrec & Hblk & Hother).
  destruct (RateLimiter.dispatch cfg st a) as [r st1] eqn:E. simpl in *.
  destruct (String.eqb_spec (RateLimiter.client_ip (RateLimiter.request a)) ip)
    as [Hip|Hne].
  - simpl. destruct (dispatch_view cfg st' a) as (Hf' & Hrec' & Hblk' & _).
    destruct (RateLimiter.dispatch cfg st' a) as [r' st1'] eqn:E'. simpl in *.
    rewrite Hip in *. rewrite <- Hr, <- Hb in Hf', Hrec', Hblk'.
    f_equal; [congruence|]. apply IH; congruence.
  - destruct (Hother ip ltac:(congruence)) as [H1 H2].
    apply IH; congruence.
Qed.

(** X2, at a concrete input: a fresh limiter with one request per hour; the
    second request of the first client is rejected, whether or not another
    client's request comes in between. *)
Lemma clients_do_not_interfere_witness :
  RateLimiter.responses_of one_per_hour RateLimiter.init "10.0.0.7"
    [anon_at 0; other_at 1; anon_at 2]
  = RateLimiter.responses one_per_hour RateLimiter.init [anon_at 0; anon_at 2].
Proof.
  exact (clients_do_not_interfere one_per_hour "10.0.0.7"
           [anon_at 0; other_at 1; anon_at 2] RateLimiter.init RateLimiter.init
           eq_refl eq_refl).
Defined.

(** X3. A blocked client stays blocked: from a state where [ip] is blocked
    until [u], whatever requests of whatever clients are handled, as long
    as those of [ip] come before [u] the block entry and the stored
    timestamps of [ip] stay as they are and no request of [ip] is
    accepted. *)
Theorem blocked_client_stays_blocked (cfg : RateLimiter.Config)
    (st : RateLimiter.State) (arrivals : list RateLimiter.Arrival)
    (ip : string) (u : Q) :
  RateLimiter.blocked_clients st !! ip = Some u ->
  (forall a, In a arrivals ->
     RateLimiter.client_ip (RateLimiter.request a) = ip ->
     (RateLimiter.t_block a < u)%Q) ->
  RateLimiter.blocked_clients (RateLimiter.state_after cfg st arrivals) !! ip
    = Some u /\
  RateLimiter.records_of (RateLimiter.state_after cfg st arrivals) ip
    = RateLimiter.records_of st ip /\
  RateLimiter.ts_of ip (snd (RateLimiter.run cfg st [] arrivals)) = [].
Proof.
  unfold RateLimiter.state_after.
  assert (H : forall log,
    RateLimiter.blocked_clients st !! ip = Some u ->
    (forall a, In a arrivals ->
       RateLimiter.client_ip (RateLimiter.request a) = ip ->
       (RateLimiter.t_block a < u)%Q) ->
    RateLimiter.blocked_clients (fst (RateLimiter.run cfg st log arrivals)) !! ip
      = Some u /\
    RateLimiter.records_of (fst (RateLimiter.run cfg st log arrivals)) ip
      = RateLimiter.records_of st ip /\
    RateLimiter.ts_of ip (snd (RateLimiter.run cfg st log arrivals))
      = RateLimiter.ts_of ip log).
  { revert st. induction arrivals as [|a rest IH]; intros st log Hb Hall; simpl.
    - repeat split. exact Hb.
    - destruct (dispatch_view cfg st a) as (Hf & Hrec & Hblk & Hother).
      destruct (RateLimiter.dispatch cfg st a) as [r st1]. simpl in *.
      assert (Hstep : RateLimiter.blocked_clients st1 !! ip = Some u /\
                      RateLimiter.records_of st1 ip = RateLimiter.records_of st ip /\
                      RateLimiter.ts_of ip (RateLimiter.accepted_of a r) = []).
      { destruct (decide (ip = RateLimiter.client_ip (RateLimiter.request a)))
          as [Hip|Hne].
        - subst ip. unfold RateLimiter.client_step in Hf, Hrec, Hblk.
          unfold RateLimiter.accepted_of.
          destruct (RateLimiter._should_rate_limit _) eqn:Hp.
          + rewrite Hb in Hf, Hrec, Hblk.
            assert (El : Qle_bool u (RateLimiter.t_block a) = false).
            { destruct (Qle_bool u (RateLimiter.t_block a)) eqn:El; [|reflexivity].
              apply Qle_bool_iff in El.
              specialize (Hall a (or_introl eq_refl) eq_refl). lra. }
            rewrite El in Hf, Hrec, Hblk. simpl in *. subst r.
            repeat split; assumption.
          + simpl in *. subst r. rewrite Hblk, Hrec. repeat split. exact Hb.
        - destruct (Hother ip Hne) as [H1 H2]. rewrite H1, H2.
          split; [exact Hb|]. split; [reflexivity|].
          unfold RateLimiter.accepted_of, RateLimiter.ts_of.
          destruct r; [|reflexivity].
          destruct (RateLimiter._should_rate_limit _); [|reflexivity].
          simpl. destruct (String.eqb_spec
                             (RateLimiter.client_ip (RateLimiter.request a)) ip);
            [congruence | reflexivity]. }
      destruct Hstep as (Hb1 & Hr1 & Hacc).
      destruct (IH st1 (log ++ RateLimiter.accepted_of a r) Hb1) as (H1 & H2 & H3).
      { intros a' Ha'. apply Hall. right. exact Ha'. }
      split; [exact H1|]. split; [congruence|].
      rewrite H3, ts_of_app, Hacc. apply app_nil_r. }
  intros Hb Hall. exact (H [] Hb Hall).
Qed.

(** X3, at a concrete input: the client blocked until second 3601 sends
    requests at seconds 2 and 100, another client one at second 50. *)
Lemma blocked_client_stays_blocked_witness :
  let arrivals := [anon_at 2; other_at 50; anon_at 100] in
  RateLimiter.blocked_clients blocked_until_3601 !! "10.0.0.7"
    = Some (1 + inject_Z 3600)%Q /\
  RateLimiter.blocked_clients
    (RateLimiter.state_after one_per_hour blocked_until_3601 arrivals) !! "10.0.0.7"
    = Some (1 + inject_Z 3600)%Q /\
  RateLimiter.ts_of "10.0.0.7"
    (snd (RateLimiter.run one_per_hour blocked_until_3601 [] arrivals)) = [].
Proof.
  intros arrivals.
  assert (Hb : RateLimiter.blocked_clients blocked_until_3601 !! "10.0.0.7"
               = Some (1 + inject_Z 3600)%Q) by (vm_compute; reflexivity).
  assert (Hall : forall a, In a arrivals ->
            RateLimiter.client_ip (RateLimiter.request a) = "10.0.0.7" ->
            (RateLimiter.t_block a < 1 + inject_Z 3600)%Q).
  { intros a [<-|[<-|[<-|[]]]] _; vm_compute; reflexivity. }
  split; [exact Hb|].
  destruct (blocked_client_stays_blocked one_per_hour blocked_until_3601
              arrivals "10.0.0.7" (1 + inject_Z 3600) Hb Hall) as (H1 & _ & H3).
  split; [exact H1 | exact H3].
Defined.

(* ================================================================== *)
(** * Rate limiter: what holds after a sequence of requests             *)
(* ================================================================== *)

Section RateLimiterRuns.
Import RateLimiter.

Variable cfg : Config.

Lemma prune_all_old (ws : Q) (l : list Q) :
  (forall ts, In ts l -> (ts <= ws)%Q) -> prune ws l = [].
Proof.
  unfold prune. induction l as [|x l IH]; intros H; simpl; [reflexivity|].
  assert (E : Qltb ws x = false).
  { apply Qltb_ge. apply H. left. reflexivity. }
  rewrite E. apply IH. intros ts Hts. apply H. right. exact Hts.
Qed.

Lemma length_prune (ws : Q) (l : list Q) :
  length (prune ws l) = count (Qltb ws) l.
Proof. reflexivity. Qed.

Lemma block_covers_later (last last' : Q) (st : State) :
  (last <= last')%Q -> block_covers cfg last st -> block_covers cfg last' st.
Proof.
  intros Hle [H1 H2]. split; [|exact H2].
  intros ip ts Hts. specialize (H1 ip ts Hts). lra.
Qed.

Lemma block_covers_init (last : Q) : block_covers cfg last init.
Proof. split; [intros ip ts [] | intros ip u ts H; discriminate H]. Qed.

(** One request keeps [block_covers], on a clock that does not run
    backwards. *)
Lemma dispatch_block_covers (last : Q) (st : State) (a : Arrival) :
  block_covers cfg last st ->
  (last <= t_block a)%Q -> (t_block a <= t_check a)%Q ->
  (t_check a <= t_record a)%Q ->
  block_covers cfg (t_record a) (snd (dispatch cfg st a)).
Proof.
  intros Hc H1 H2 H3.
  destruct (_should_rate_limit (path (request a))) eqn:Hp.
  2:{ unfold dispatch. rewrite Hp. simpl.
      apply (block_covers_later last); [lra | exact Hc]. }
  destruct (dispatch_cases cfg st a Hp)
    as [(u & Hu & Hlt & E) | (Hnot & [(Hlim & Hr & Hrec & Hblk) |
                                     (Hlim & Hr & Hrec & Hblk)])];
    cbv zeta in *.
  - rewrite E. simpl. apply (block_covers_later last); [lra | exact Hc].
  - destruct Hc as [Hc1 Hc2]. split.
    + intros ip ts. rewrite Hrec.
      destruct (decide (client_ip (request a) = ip)) as [<-|Hne]; intros Hts.
      * apply prune_In in Hts. specialize (Hc1 _ _ Hts). lra.
      * specialize (Hc1 _ _ Hts). lra.
    + intros ip u ts. rewrite Hrec, Hblk.
      destruct (decide (client_ip (request a) = ip)) as [<-|Hne].
      * rewrite lookup_insert_eq. intros Hu Hts. injection Hu as <-.
        apply prune_In in Hts. specialize (Hc1 _ _ Hts). lra.
      * rewrite lookup_insert_ne, lookup_delete_ne by exact Hne.
        apply Hc2.
  - destruct Hc as [Hc1 Hc2]. split.
    + intros ip ts. rewrite Hrec.
      destruct (decide (client_ip (request a) = ip)) as [<-|Hne]; intros Hts.
      * apply in_app_or in Hts as [Hts | [<- | []]]; [|lra].
        apply prune_In in Hts. specialize (Hc1 _ _ Hts). lra.
      * specialize (Hc1 _ _ Hts). lra.
    + intros ip u ts. rewrite Hrec, Hblk.
      destruct (decide (client_ip (request a) = ip)) as [<-|Hne].
      * rewrite lookup_delete_eq. intros Hu. discriminate Hu.
      * rewrite lookup_delete_ne by exact Hne. apply Hc2.
Qed.

(** The three invariants, up to the next request. *)
Lemma run_to_next (a : Arrival) (arrivals : list Arrival) :
  forall (last : Q) (st : State) (log : list Accepted),
  synced cfg last st log -> quota_ok cfg log -> block_covers cfg last st ->
  clock_monotone last (arrivals ++ [a]) ->
  exists last',
    synced cfg last' (fst (run cfg st log arrivals)) (snd (run cfg st log arrivals)) /\
    block_covers cfg last' (fst (run cfg st log arrivals)) /\
    (last' <= t_block a)%Q /\ (t_block a <= t_check a)%Q /\
    (t_check a <= t_record a)%Q.
Proof.
  induction arrivals as [|x rest IH]; intros last st log Hs Hq Hc Hm; simpl in *.
  - exists last. destruct Hm as (H1 & H2 & H3 & _). auto.
  - destruct Hm as (H1 & H2 & H3 & Hm).
    destruct (dispatch_invariant cfg last st log x Hs Hq H1 H2 H3) as [Hs' Hq'].
    pose proof (dispatch_block_covers last st x Hc H1 H2 H3) as Hc'.
    destruct (dispatch cfg st x) as [r st']. simpl in *.
    apply (IH (t_record x) st' _ Hs' Hq' Hc' Hm).
Qed.

(** The state of a run does not depend on the log it started with. *)
Lemma run_state (arrivals : list Arrival) :
  forall st log, fst (run cfg st log arrivals) = state_after cfg st arrivals.
Proof.
  unfold state_after.
  induction arrivals as [|x rest IH]; intros st log; simpl; [reflexivity|].
  destruct (dispatch cfg st x) as [r st']. rewrite (IH st' (log ++ _)).
  symmetry. apply IH.
Qed.

End RateLimiterRuns.

(** X4. A block gives way to a fresh window: when the block time is at
    least the window, limits are positive and the clock never runs
    backwards, the first request of a client at or after the end of its
    block is forwarded, whatever the limiter handled before. *)
Theorem request_after_block_is_accepted (cfg : RateLimiter.Config)
    (arrivals : list RateLimiter.Arrival) (a : RateLimiter.Arrival)
    (start u : Q) :
  let st := RateLimiter.state_after cfg RateLimiter.init arrivals in
  RateLimiter.clock_monotone start (arrivals ++ [a]) ->
  (RateLimiter.window_size cfg <= RateLimiter.block_time cfg)%Z ->
  (0 < RateLimiter.limit_for cfg
         (RateLimiter._is_authenticated (RateLimiter.request a)))%Z ->
  RateLimiter.blocked_clients st
    !! RateLimiter.client_ip (RateLimiter.request a) = Some u ->
  (u <= RateLimiter.t_block a)%Q ->
  fst (RateLimiter.dispatch cfg st a) = RateLimiter.Forwarded.
Proof.
  intros st Hm Hwb Hlim Hu Hle.
  destruct (run_to_next cfg a arrivals start RateLimiter.init []
              (synced_init cfg start) (quota_ok_nil cfg)
              (block_covers_init cfg start) Hm)
    as (last & _ & [Hc1 Hc2] & H1 & H2 & H3).
  rewrite run_state in Hc1, Hc2. fold st in Hc1, Hc2.
  destruct (RateLimiter._should_rate_limit
              (RateLimiter.path (RateLimiter.request a))) eqn:Hp.
  2:{ unfold RateLimiter.dispatch. rewrite Hp. reflexivity. }
  destruct (dispatch_cases cfg st a Hp)
    as [(u' & Hu' & Hlt & _) | (_ & [(Hover & _) | (_ & Hr & _)])];
    cbv zeta in *.
  - rewrite Hu in Hu'. injection Hu' as <-. lra.
  - exfalso. rewrite prune_all_old in Hover; [simpl in Hover; lia|].
    intros ts Hts. specialize (Hc2 _ _ _ Hu Hts).
    assert (Hq : (inject_Z (RateLimiter.window_size cfg)
                  <= inject_Z (RateLimiter.block_time cfg))%Q).
    { rewrite <- Zle_Qle. exact Hwb. }
    lra.
  - exact Hr.
Qed.

(** X4, at a concrete input: one request per hour; the client is accepted
    at second 0, blocked at second 1 until second 3601, and accepted again
    at second 3601. *)
Lemma request_after_block_is_accepted_witness :
  RateLimiter.clock_monotone 0 ([anon_at 0; anon_at 1] ++ [anon_at 3601]) /\
  fst (RateLimiter.dispatch one_per_hour
         (RateLimiter.state_after one_per_hour RateLimiter.init
            [anon_at 0; anon_at 1])
         (anon_at 3601)) = RateLimiter.Forwarded.
Proof.
  assert (Hm : RateLimiter.clock_monotone 0
                 ([anon_at 0; anon_at 1] ++ [anon_at 3601])).
  { simpl. unfold Qle. simpl. lia. }
  split; [exact Hm|].
  apply (request_after_block_is_accepted one_per_hour [anon_at 0; anon_at 1]
           (anon_at 3601) 0 (1 + inject_Z 3600) Hm).
  - simpl. lia.
  - simpl. lia.
  - vm_compute. reflexivity.
  - vm_compute. intros H. discriminate H.
Defined.

(** X5. The limit is enforced exactly: after any requests handled on a
    clock that never runs backwards, a request on a limited path of a client
    that is not blocked (no block entry, or an expired one) is forwarded
    exactly when the requests of that client accepted in the
    [window_size] seconds before it are fewer than the limit of its
    class. *)
Theorem accepted_exactly_under_quota (cfg : RateLimiter.Config)
    (arrivals : list RateLimiter.Arrival) (a : RateLimiter.Arrival) (start : Q) :
  let ip := RateLimiter.client_ip (RateLimiter.request a) in
  let st := RateLimiter.state_after cfg RateLimiter.init arrivals in
  let log := snd (RateLimiter.run cfg RateLimiter.init [] arrivals) in
  RateLimiter.clock_monotone start (arrivals ++ [a]) ->
  RateLimiter._should_rate_limit (RateLimiter.path (RateLimiter.request a)) = true ->
  (RateLimiter.blocked_clients st !! ip = None \/
   exists u, RateLimiter.blocked_clients st !! ip = Some u /\
             (u <= RateLimiter.t_block a)%Q) ->
  (fst (RateLimiter.dispatch cfg st a) = RateLimiter.Forwarded <->
   (Z.of_nat (count (Qltb (RateLimiter.t_check a
                           - inject_Z (RateLimiter.window_size cfg)))
                    (RateLimiter.ts_of ip log))
    < RateLimiter.limit_for cfg
        (RateLimiter._is_authenticated (RateLimiter.request a)))%Z).
Proof.
  intros ip st log Hm Hp Hfree.
  destruct (run_to_next cfg a arrivals start RateLimiter.init []
              (synced_init cfg start) (quota_ok_nil cfg)
              (block_covers_init cfg start) Hm)
    as (last & Hs & _ & H1 & H2 & H3).
  rewrite run_state in Hs. fold st log in Hs. subst ip.
  rewrite <- (Hs (RateLimiter.client_ip (RateLimiter.request a))) by lra.
  rewrite <- length_prune.
  destruct (dispatch_cases cfg st a Hp)
    as [(u & Hu & Hlt & _) | (_ & [(Hover & Hr & _) | (Hunder & Hr & _)])];
    cbv zeta in *.
  - exfalso. destruct Hfree as [Hn | (u' & Hu' & Hle)]; rewrite Hu in *;
      [discriminate Hn|]. injection Hu' as <-. lra.
  - rewrite Hr. split; [discriminate | lia].
  - rewrite Hr. split; [intros _; exact Hunder | reflexivity].
Qed.

(** X5, at a concrete input: one request per hour; the second request of
    the second is not forwarded, one accepted request lying in its
    window. *)
Lemma accepted_exactly_under_quota_witness :
  RateLimiter.clock_monotone 0 ([anon_at 0] ++ [anon_at 1]) /\
  (fst (RateLimiter.dispatch one_per_hour
          (RateLimiter.state_after one_per_hour RateLimiter.init [anon_at 0])
          (anon_at 1)) = RateLimiter.Forwarded <->
   (Z.of_nat (count (Qltb (1 - inject_Z 3600))
                (RateLimiter.ts_of "10.0.0.7"
                   (snd (RateLimiter.run one_per_hour RateLimiter.init []
                           [anon_at 0]))))
    < 1)%Z).
Proof.
  assert (Hm : RateLimiter.clock_monotone 0 ([anon_at 0] ++ [anon_at 1])).
  { simpl. unfold Qle. simpl. lia. }
  split; [exact Hm|].
  apply (accepted_exactly_under_quota one_per_hour [anon_at 0] (anon_at 1) 0 Hm).
  - reflexivity.
  - left. vm_compute. reflexivity.
Defined.

(* ================================================================== *)
(** * Rate limiter: the client address                                  *)
(* ================================================================== *)

Section ClientAddress.
Import RateLimiter.

Lemma first_field_no_comma (s : string) : has_comma (first_field s) = false.
Proof.
  induction s as [|c rest IH]; simpl; [reflexivity|].
  destruct (Ascii.eqb c ",") eqn:E; simpl; [reflexivity|].
  rewrite E. exact IH.
Qed.

Lemma first_field_prefix (s rest : string) :
  has_comma s = false -> first_field (s +:+ String "," rest) = s.
Proof.
  induction s as [|c s' IH]; simpl; [reflexivity|].
  intros H. apply orb_false_iff in H as [E H]. rewrite E. f_equal. apply IH, H.
Qed.

Lemma first_field_id (s : string) : has_comma s = false -> first_field s = s.
Proof.
  induction s as [|c s' IH]; simpl; [reflexivity|].
  intros H. apply orb_false_iff in H as [E H]. rewrite E. f_equal. apply IH, H.
Qed.

Lemma lstrip_no_comma (s : string) :
  has_comma s = false -> has_comma (lstrip s) = false.
Proof.
  induction s as [|c rest IH]; simpl; [reflexivity|].
  intros H. destruct (isspace c); [|exact H].
  apply orb_false_iff in H as [_ H]. apply IH, H.
Qed.

Lemma rstrip_no_comma (s : string) :
  has_comma s = false -> has_comma (rstrip s) = false.
Proof.
  induction s as [|c rest IH]; simpl; [reflexivity|].
  intros H. apply orb_false_iff in H as [E H]. specialize (IH H).
  destruct (rstrip rest) as [|d r].
  - destruct (isspace c); simpl; [reflexivity|]. rewrite E. reflexivity.
  - change (has_comma (String c (String d r)))
      with (Ascii.eqb c "," || has_comma (String d r)).
    rewrite E, IH. reflexivity.
Qed.

Lemma lstrip_starts (s : string) : starts_with_space (lstrip s) = false.
Proof.
  induction s as [|c rest IH]; simpl; [reflexivity|].
  destruct (isspace c) eqn:E; [exact IH|]. simpl. exact E.
Qed.

Lemma rstrip_starts (s : string) :
  starts_with_space s = false -> starts_with_space (rstrip s) = false.
Proof.
  destruct s as [|c rest]; simpl; [reflexivity|].
  intros E. destruct (rstrip rest); [rewrite E|]; simpl; exact E.
Qed.

Lemma rstrip_ends (s : string) : ends_with_space (rstrip s) = false.
Proof.
  induction s as [|c rest IH]; simpl; [reflexivity|].
  destruct (rstrip rest) as [|d r].
  - destruct (isspace c) eqn:E; simpl; [reflexivity | exact E].
  - exact IH.
Qed.

Lemma lstrip_id (s : string) : starts_with_space s = false -> lstrip s = s.
Proof. destruct s as [|c rest]; simpl; [reflexivity|]. intros ->. reflexivity. Qed.

Lemma rstrip_id (s : string) : ends_with_space s = false -> rstrip s = s.
Proof.
  induction s as [|c rest IH]; simpl; [reflexivity|].
  destruct rest as [|d r].
  - simpl. intros ->. reflexivity.
  - intros H. rewrite (IH H). reflexivity.
Qed.

End ClientAddress.

(** X6. The address taken from a non-empty [X-Forwarded-For] header holds
    no comma and neither begins nor ends with whitespace; it is what
    precedes the first comma, the entries after it and the connection's
    own address playing no part; and an address of that form is taken as
    it is. *)
Theorem forwarded_address_is_first_entry (header : string)
    (client_host : option string) :
  header <> EmptyString ->
  let ip := RateLimiter._get_client_ip (Some header) client_host in
  RateLimiter.has_comma ip = false /\
  RateLimiter.starts_with_space ip = false /\
  RateLimiter.ends_with_space ip = false /\
  (RateLimiter.has_comma header = false ->
   forall (rest : string) (host' : option string),
     RateLimiter._get_client_ip (Some (header +:+ String "," rest)) host' = ip) /\
  (ip <> EmptyString ->
   forall host' : option string,
     RateLimiter._get_client_ip (Some ip) host' = ip).
Proof.
  intros Hne. destruct header as [|c h]; [congruence|].
  unfold RateLimiter._get_client_ip, RateLimiter.strip. cbv zeta.
  set (f := RateLimiter.first_field (String c h)).
  assert (Hc : RateLimiter.has_comma (RateLimiter.rstrip (RateLimiter.lstrip f))
               = false).
  { apply rstrip_no_comma, lstrip_no_comma, first_field_no_comma. }
  assert (Hs : RateLimiter.starts_with_space
                 (RateLimiter.rstrip (RateLimiter.lstrip f)) = false).
  { apply rstrip_starts, lstrip_starts. }
  assert (He : RateLimiter.ends_with_space
                 (RateLimiter.rstrip (RateLimiter.lstrip f)) = false).
  { apply rstrip_ends. }
  split; [exact Hc|]. split; [exact Hs|]. split; [exact He|]. split.
  - intros Hno rest host'.
    change (String c h +:+ String "," rest)
      with (String c (h +:+ String "," rest)).
    cbv beta iota.
    change (String c (h +:+ String "," rest))
      with (String c h +:+ String "," rest).
    rewrite (first_field_prefix (String c h) rest Hno).
    subst f. rewrite (first_field_id _ Hno). reflexivity.
  - intros Hip host'.
    destruct (RateLimiter.rstrip (RateLimiter.lstrip f)) as [|d r] eqn:E;
      [congruence|].
    rewrite (first_field_id _ Hc), (lstrip_id _ Hs), (rstrip_id _ He).
    reflexivity.
Qed.

(** X6, at a concrete input: a header of two entries with blanks around
    the first. *)
Lemma forwarded_address_is_first_entry_witness :
  RateLimiter._get_client_ip (Some " 203.0.113.9 , 10.0.0.1") (Some "10.0.0.2")
    = "203.0.113.9" /\
  RateLimiter.has_comma "203.0.113.9" = false /\
  (forall host' : option string,
     RateLimiter._get_client_ip (Some "203.0.113.9") host' = "203.0.113.9").
Proof.
  assert (Hne : " 203.0.113.9 , 10.0.0.1" <> EmptyString) by discriminate.
  pose proof (forwarded_address_is_first_entry " 203.0.113.9 , 10.0.0.1"
                (Some "10.0.0.2") Hne) as (H1 & _ & _ & _ & H5).
  split; [reflexivity|]. split; [exact H1|].
  apply H5. discriminate.
Defined.

(* ================================================================== *)
(** * The state store: reading back                                     *)
(* ================================================================== *)

Section StateStoreReads.
Import Runtime StateService.

Variable sys : Sys.

Lemma get_search_status_found search_id state w :
  files w !! search_id = Some state ->
  io_ok sys (io_ops w) = true ->
  get_search_status sys search_id w
  = (Ok (Some (response_of state (now_us sys (clock_reads w)))),
     {| files := files w; cut_off := cut_off w; io_ops := S (io_ops w);
        clock_reads := S (clock_reads w); calls := calls w;
        background := background w |}).
Proof.
  intros Hf Hio. unfold get_search_status, mbind, M_bind, _load_state.
  rewrite Hf, Hio. reflexivity.
Qed.

Lemma get_search_status_unreadable search_id state w :
  files w !! search_id = Some state ->
  io_ok sys (io_ops w) = false ->
  get_search_status sys search_id w
  = (Ok None,
     {| files := files w; cut_off := cut_off w; io_ops := S (io_ops w);
        clock_reads := clock_reads w; calls := calls w;
        background := background w |}).
Proof.
  intros Hf Hio. unfold get_search_status, mbind, M_bind, _load_state.
  rewrite Hf, Hio. reflexivity.
Qed.

Lemma get_search_status_missing search_id w :
  files w !! search_id = None ->
  get_search_status sys search_id w = (Ok None, w).
Proof.
  intros Hf. unfold get_search_status, mbind, M_bind, _load_state.
  rewrite Hf. reflexivity.
Qed.

Hypothesis disk : forall n, io_ok sys n = true.

Lemma rewritten_on_disk search_id state' reads w :
  rewritten sys search_id state' reads w =
  {| files := <[search_id := state']> (files w);
     cut_off := cut_off w ∖ {[search_id]};
     io_ops := S (S (io_ops w));
     clock_reads := (reads + clock_reads w)%nat;
     calls := calls w; background := background w |}.
Proof.
  unfold rewritten, written_files, written_cut_off. rewrite !disk. reflexivity.
Qed.

Lemma read_after_rewrite search_id state' reads w (m : M unit) :
  m w = (Ok tt, rewritten sys search_id state' reads w) ->
  files (snd (m w)) !! search_id = Some state' /\
  exists timestamp,
    fst ((m;; get_search_status sys search_id) w)
    = Ok (Some (response_of state' timestamp)).
Proof.
  intros H. unfold mbind at 1. unfold M_bind at 1. rewrite H.
  rewrite rewritten_on_disk. split; [apply lookup_insert_eq|].
  erewrite get_search_status_found;
    [eexists; reflexivity | apply lookup_insert_eq | apply disk].
Qed.

Lemma update_first_commute s1 s2 a b ta tb (entries : list StoreState.t) :
  s1 <> s2 ->
  update_first s1 a ta (update_first s2 b tb entries)
  = update_first s2 b tb (update_first s1 a ta entries).
Proof.
  intros Hne. induction entries as [|e rest IH]; simpl; [reflexivity|].
  destruct (String.eqb_spec (StoreState.name e) s2) as [E2|N2];
    destruct (String.eqb_spec (StoreState.name e) s1) as [E1|N1]; simpl.
  - congruence.
  - rewrite (proj2 (String.eqb_neq _ _) N1), (proj2 (String.eqb_eq _ _) E2).
    reflexivity.
  - rewrite (proj2 (String.eqb_eq _ _) E1), (proj2 (String.eqb_neq _ _) N2).
    reflexivity.
  - rewrite (proj2 (String.eqb_neq _ _) N1), (proj2 (String.eqb_neq _ _) N2).
    f_equal. exact IH.
Qed.

Lemma update_first_twice s a b ta tb (entries : list StoreState.t) :
  update_first s b tb (update_first s a ta entries)
  = update_first s b tb entries.
Proof.
  induction entries as [|e rest IH]; simpl; [reflexivity|].
  destruct (String.eqb (StoreState.name e) s) eqn:E; simpl; rewrite E;
    [reflexivity|]. f_equal. exact IH.
Qed.

(** Two store updates in a row, on a working disk. *)
Lemma two_store_updates search_id state w s1 st1 t1 s2 st2 t2 :
  files w !! search_id = Some state ->
  snd ((update_store_status sys search_id s1 st1 t1;;
        update_store_status sys search_id s2 st2 t2) w)
  = {| files :=
         <[search_id :=
             set_stores state
               (update_first s2 (value st2) t2
                  (update_first s1 (value st1) t1
                     (SearchState.stores_searched state)))]> (files w);
       cut_off := cut_off w ∖ {[search_id]} ∖ {[search_id]};
       io_ops := S (S (S (S (io_ops w))));
       clock_reads := clock_reads w; calls := calls w;
       background := background w |}.
Proof.
  intros Hf. unfold mbind at 1. unfold M_bind at 1.
  rewrite (update_store_status_eq sys _ _ _ _ _ _ Hf), rewritten_on_disk.
  erewrite update_store_status_eq by apply lookup_insert_eq.
  rewrite rewritten_on_disk. simpl. rewrite insert_insert_eq. reflexivity.
Qed.

End StateStoreReads.

(** X7. The status route: it answers with the record's fields when the
    record exists and its file can be read, and with the error 404
    otherwise, an unreadable file being taken for a missing one; it never
    changes a record. *)
Theorem status_route_answers (env : SearchService.Env) (search_id : string)
    (w : Runtime.World) :
  let sys := SearchService.sys env in
  let r := Router.get_search_status env search_id w in
  let readable :=
    exists state, Runtime.files w !! search_id = Some state /\
                  Runtime.io_ok sys (Runtime.io_ops w) = true in
  Runtime.files (snd r) = Runtime.files w /\
  (readable ->
   exists state,
     Runtime.files w !! search_id = Some state /\
     fst r = Runtime.Ok (StateService.response_of state
                           (Runtime.now_us sys (Runtime.clock_reads w)))) /\
  (~ readable ->
   fst r = Runtime.Raise
             (Runtime.HTTPException 404
                ("Search with ID " +:+ search_id +:+ " not found"))).
Proof.
  intros sys r readable. subst r readable.
  unfold Router.get_search_status, SearchService.get_search_status.
  unfold mbind, Runtime.M_bind. fold sys.
  destruct (Runtime.files w !! search_id) as [state|] eqn:Hf.
  - destruct (Runtime.io_ok sys (Runtime.io_ops w)) eqn:Hio.
    + rewrite (get_search_status_found sys _ _ _ Hf Hio). simpl.
      split; [reflexivity|]. split.
      * intros _. exists state. split; reflexivity.
      * intros Hn. exfalso. apply Hn. exists state. split; reflexivity.
    + rewrite (get_search_status_unreadable sys _ _ _ Hf Hio). simpl.
      split; [reflexivity|]. split; [|reflexivity].
      intros (state' & _ & H). discriminate H.
  - rewrite (get_search_status_missing sys _ _ Hf). simpl.
    split; [reflexivity|]. split; [|reflexivity].
    intros (state' & H & _). discriminate H.
Qed.

(** X7, at a concrete input: the world holding the fresh record of the
    scenario; its identifier is found, another one is not. *)
Lemma status_route_answers_witness :
  let env := Scenario.services Scenario.reliable Scenario.all_found in
  (exists state,
     Runtime.files Scenario.fresh_world !! "id-1" = Some state /\
     fst (Router.get_search_status env "id-1" Scenario.fresh_world)
     = Runtime.Ok (StateService.response_of state
                     (Runtime.now_us Scenario.reliable
                        (Runtime.clock_reads Scenario.fresh_world)))) /\
  fst (Router.get_search_status env "id-2" Scenario.fresh_world)
  = Runtime.Raise (Runtime.HTTPException 404 "Search with ID id-2 not found").
Proof.
  intros env. split.
  - apply (proj1 (proj2 (status_route_answers env "id-1" Scenario.fresh_world))).
    exists Scenario.fresh_record. split; vm_compute; reflexivity.
  - apply (proj2 (proj2 (status_route_answers env "id-2" Scenario.fresh_world))).
    intros (state & H & _). vm_compute in H. discriminate H.
Defined.

(** X8. On a working disk a write is read back: after an update of an
    existing record, the stored record has the updated field and every
    other field as it was, and [get_search_status] answers with the fields
    of that record. A terminal status comes with the end time, the clock
    reading of the update, and the elapsed time
    [int((end_time - start_time).total_seconds() * 1000)], computed in
    double precision as [elapsed_ms] does. After [initialize_search] the
    record is a fresh one, whatever was stored under the identifier
    before. *)
Theorem updates_are_read_back (sys : Runtime.Sys) (search_id : string)
    (state : SearchState.t) (w : Runtime.World) :
  let shows (m : Runtime.M unit) (state' : SearchState.t) :=
    Runtime.files (snd (m w)) !! search_id = Some state' /\
    exists timestamp,
      fst ((m;; StateService.get_search_status sys search_id) w)
      = Runtime.Ok (Some (StateService.response_of state' timestamp)) in
  (forall n, Runtime.io_ok sys n = true) ->
  Runtime.files w !! search_id = Some state ->
  (forall count,
     shows (StateService.update_result_count sys search_id count)
           (StateService.set_result_count state count)) /\
  (forall attributes,
     shows (StateService.update_attributes sys search_id attributes)
           (StateService.set_attributes state attributes)) /\
  (forall store status time_ms,
     shows (StateService.update_store_status sys search_id store status time_ms)
           (StateService.set_stores state
              (StateService.update_first store (StateService.value status) time_ms
                 (SearchState.stores_searched state)))) /\
  shows (StateService.update_search_status sys search_id StateService.PROCESSING)
        (StateService.set_status state "processing") /\
  (forall status, StateService.is_terminal status = true ->
     shows (StateService.update_search_status sys search_id status)
           (StateService.set_end
              (StateService.set_status state (StateService.value status))
              (Runtime.now_us sys (Runtime.clock_reads w)))) /\
  (forall stores,
     shows (StateService.initialize_search sys search_id stores)
           {| SearchState.search_id := search_id;
              SearchState.status := "processing";
              SearchState.start_time := Runtime.now_us sys (Runtime.clock_reads w);
              SearchState.end_time := None;
              SearchState.elapsed_time_ms := 0;
              SearchState.stores_searched :=
                map (fun store => {| StoreState.name := store;
                                     StoreState.status := "processing";
                                     StoreState.time_ms := 0 |}) stores;
              SearchState.attributes_recognized := [];
              SearchState.result_count := 0 |}).
Proof.
  intros shows disk Hf. subst shows. cbv beta.
  split; [|split; [|split; [|split; [|split]]]].
  - intros count. eapply read_after_rewrite; [exact disk|].
    apply update_result_count_eq, Hf.
  - intros attributes. eapply read_after_rewrite; [exact disk|].
    apply update_attributes_eq, Hf.
  - intros store status time_ms. eapply read_after_rewrite; [exact disk|].
    apply update_store_status_eq, Hf.
  - eapply read_after_rewrite; [exact disk|].
    apply (update_search_status_eq sys search_id StateService.PROCESSING w state Hf).
  - intros status Ht. eapply read_after_rewrite; [exact disk|].
    rewrite (update_search_status_eq sys search_id status w state Hf), Ht.
    reflexivity.
  - intros stores.
    unfold mbind at 1. unfold Runtime.M_bind at 1.
    unfold StateService.initialize_search, mbind, Runtime.M_bind, Runtime.now,
      StateService._save_state, StateService.written_files.
    cbv beta iota. simpl Runtime.io_ops.
    rewrite disk. split; [apply lookup_insert_eq|].
    erewrite get_search_status_found;
      [eexists; reflexivity | apply lookup_insert_eq | apply disk].
Qed.

(** X8, at a concrete input: the fresh record of the scenario, written at
    second 0, and its completion at the next clock reading, second 1. *)
Lemma updates_are_read_back_witness :
  (exists timestamp,
     fst ((StateService.update_result_count Scenario.reliable "id-1" 7;;
           StateService.get_search_status Scenario.reliable "id-1")
            Scenario.fresh_world)
     = Runtime.Ok (Some (StateService.response_of
                           (StateService.set_result_count Scenario.fresh_record 7)
                           timestamp))) /\
  Runtime.files
    (snd (StateService.update_search_status Scenario.reliable "id-1"
            StateService.COMPLETED Scenario.fresh_world)) !! "id-1"
  = Some (StateService.set_end
            (StateService.set_status Scenario.fresh_record "completed") 1000000).
Proof.
  assert (Hd : forall n, Runtime.io_ok Scenario.reliable n = true)
    by (intros n; reflexivity).
  assert (Hf : Runtime.files Scenario.fresh_world !! "id-1"
               = Some Scenario.fresh_record) by (vm_compute; reflexivity).
  pose proof (updates_are_read_back Scenario.reliable "id-1"
                Scenario.fresh_record Scenario.fresh_world Hd Hf)
    as (H1 & _ & _ & _ & H5 & _).
  split; [exact (proj2 (H1 7%Z))|].
  exact (proj1 (H5 StateService.COMPLETED eq_refl)).
Defined.

(** X9. Sub-status updates of different stores do not depend on their
    order, and of two updates of one store the later one wins: on a working
    disk, two calls of [update_store_status] for different stores leave the
    same world in either order, and two calls for the same store leave the
    record the second one alone would leave. *)
Theorem store_updates_commute (sys : Runtime.Sys) (search_id : string)
    (state : SearchState.t) (w : Runtime.World)
    (s1 s2 : string) (st1 st2 : StateService.SearchStatus) (t1 t2 : Z) :
  (forall n, Runtime.io_ok sys n = true) ->
  Runtime.files w !! search_id = Some state ->
  (s1 <> s2 ->
   snd ((StateService.update_store_status sys search_id s1 st1 t1;;
         StateService.update_store_status sys search_id s2 st2 t2) w)
   = snd ((StateService.update_store_status sys search_id s2 st2 t2;;
           StateService.update_store_status sys search_id s1 st1 t1) w)) /\
  Runtime.files
    (snd ((StateService.update_store_status sys search_id s1 st1 t1;;
           StateService.update_store_status sys search_id s1 st2 t2) w))
  = Runtime.files
      (snd (StateService.update_store_status sys search_id s1 st2 t2 w)).
Proof.
  intros disk Hf. split.
  - intros Hne. rewrite !(two_store_updates sys disk _ _ _ _ _ _ _ _ _ Hf).
    rewrite (update_first_commute s2 s1) by congruence. reflexivity.
  - rewrite (two_store_updates sys disk _ _ _ _ _ _ _ _ _ Hf).
    rewrite (update_store_status_eq sys _ _ _ _ _ _ Hf), rewritten_on_disk
      by exact disk.
    simpl. rewrite update_first_twice. reflexivity.
Qed.

(** X9, at a concrete input: zalando completed and asos failed, in either
    order, on the fresh record of the scenario. *)
Lemma store_updates_commute_witness :
  snd ((StateService.update_store_status Scenario.reliable "id-1" "zalando"
          StateService.COMPLETED 2000;;
        StateService.update_store_status Scenario.reliable "id-1" "asos"
          StateService.FAILED 0) Scenario.fresh_world)
  = snd ((StateService.update_store_status Scenario.reliable "id-1" "asos"
            StateService.FAILED 0;;
          StateService.update_store_status Scenario.reliable "id-1" "zalando"
            StateService.COMPLETED 2000) Scenario.fresh_world).
Proof.
  assert (Hd : forall n, Runtime.io_ok Scenario.reliable n = true)
    by (intros n; reflexivity).
  assert (Hf : Runtime.files Scenario.fresh_world !! "id-1"
               = Some Scenario.fresh_record) by (vm_compute; reflexivity).
  apply (proj1 (store_updates_commute Scenario.reliable "id-1"
                  Scenario.fresh_record Scenario.fresh_world
                  "zalando" "asos" StateService.COMPLETED StateService.FAILED
                  2000 0 Hd Hf)).
  discriminate.
Defined.

(* ================================================================== *)
(** * A search touches its own record only                              *)
(* ================================================================== *)

Section OtherRecords.
Import Runtime StateService SearchService.

Variable env : Env.
Variable other : string.
Variable kept : option SearchState.t.

Local Abbreviation untouched := (fun w : World => files w !! other = kept).

Lemma other_log_call c : keeps untouched (log_call c).
Proof. intros w Hw. exact Hw. Qed.

Lemma other_now : keeps untouched (now (sys env)).
Proof. intros w Hw. exact Hw. Qed.

Lemma other_rewritten search_id state state' reads w :
  search_id <> other -> files w !! search_id = Some state ->
  untouched w -> untouched (rewritten (sys env) search_id state' reads w).
Proof.
  intros Hne Hf Hw.
  destruct (rewritten_lookup (sys env) search_id state' reads w state other Hf)
    as [E|[E _]]; [rewrite E; exact Hw | congruence].
Qed.

Lemma other_update_store_status search_id store status time_ms :
  search_id <> other ->
  keeps untouched (update_store_status (sys env) search_id store status time_ms).
Proof.
  intros Hne w Hw. destruct (files w !! search_id) as [state|] eqn:E.
  - rewrite (update_store_status_eq _ _ _ _ _ _ _ E).
    apply (other_rewritten search_id state); assumption.
  - rewrite (update_store_status_missing (sys env) _ _ _ _ _ E). exact Hw.
Qed.

Lemma other_update_attributes search_id attributes :
  search_id <> other ->
  keeps untouched (update_attributes (sys env) search_id attributes).
Proof.
  intros Hne w Hw. destruct (files w !! search_id) as [state|] eqn:E.
  - rewrite (update_attributes_eq _ _ _ _ _ E).
    apply (other_rewritten search_id state); assumption.
  - rewrite (update_attributes_missing (sys env) _ _ _ E). exact Hw.
Qed.

Lemma other_update_result_count search_id count :
  search_id <> other ->
  keeps untouched (update_result_count (sys env) search_id count).
Proof.
  intros Hne w Hw. destruct (files w !! search_id) as [state|] eqn:E.
  - rewrite (update_result_count_eq _ _ _ _ _ E).
    apply (other_rewritten search_id state); assumption.
  - rewrite (update_result_count_missing (sys env) _ _ _ E). exact Hw.
Qed.

Lemma other_update_search_status search_id status :
  search_id <> other ->
  keeps untouched (update_search_status (sys env) search_id status).
Proof.
  intros Hne w Hw. destruct (files w !! search_id) as [state|] eqn:E.
  - rewrite (update_search_status_eq _ _ _ _ _ E).
    destruct (is_terminal status);
      apply (other_rewritten search_id state); assumption.
  - rewrite (update_search_status_missing (sys env) _ _ _ E). exact Hw.
Qed.

Lemma other_initialize_search search_id names :
  search_id <> other ->
  keeps untouched (initialize_search (sys env) search_id names).
Proof.
  intros Hne w Hw. unfold initialize_search, mbind, M_bind, now, _save_state,
    written_files.
  simpl. destruct (io_ok (sys env) (io_ops w)).
  - rewrite lookup_insert_ne by exact Hne. exact Hw.
  - destruct (opened (sys env) (io_ops w)); [|exact Hw].
    rewrite lookup_delete_ne by exact Hne. exact Hw.
Qed.

Lemma keeps_try_except {A} (I : World -> Prop) (m : M A) (h : Exn -> M A) :
  keeps I m -> (forall e, keeps I (h e)) -> keeps I (try_except m h).
Proof.
  intros Hm Hh. apply triple_try_except with (E' := fun _ => I); assumption.
Qed.

Ltac other_step Hne :=
  lazymatch goal with
  | |- keeps _ (mbind _ _) => apply keeps_bind; [|intros]
  | |- keeps _ (mret _) => apply keeps_ret
  | |- keeps _ (lift _) => apply keeps_lift
  | |- keeps _ (attempt _) => apply keeps_attempt
  | |- keeps _ (try_except _ _) => apply keeps_try_except; [|intros]
  | |- keeps _ (log_call _) => apply other_log_call
  | |- keeps _ (now _) => apply other_now
  | |- keeps _ (initialize_search _ _ _) =>
      apply other_initialize_search; exact Hne
  | |- keeps _ (update_store_status _ _ _ _ _) =>
      apply other_update_store_status; exact Hne
  | |- keeps _ (update_attributes _ _ _) =>
      apply other_update_attributes; exact Hne
  | |- keeps _ (update_result_count _ _ _) =>
      apply other_update_result_count; exact Hne
  | |- keeps _ (update_search_status _ _ _) =>
      apply other_update_search_status; exact Hne
  | |- keeps _ (match ?x with Ok _ => _ | Raise _ => _ end) => destruct x
  | |- keeps _ (let '(_, _) := ?x in _) => destruct x
  | |- keeps _ (if ?b then _ else _) => destruct b
  end.

Lemma other_mark_store_failed search_id i store_name :
  search_id <> other ->
  keeps untouched (mark_store_failed env search_id i store_name).
Proof. intros Hne. unfold mark_store_failed. repeat other_step Hne. Qed.

Lemma other_search_stores search_id attributes start stores :
  search_id <> other ->
  forall i total,
  keeps untouched (search_stores env search_id attributes start i stores total).
Proof.
  intros Hne. induction stores as [|store rest IH]; intros i total; simpl.
  - apply keeps_ret.
  - apply keeps_bind; [repeat other_step Hne|]. intros searched.
    apply keeps_bind; [|intros; apply IH].
    destruct searched as [products|e].
    + apply keeps_bind; [repeat other_step Hne|]. intros recorded.
      destruct recorded; repeat other_step Hne.
      apply other_mark_store_failed, Hne.
    + repeat other_step Hne. apply other_mark_store_failed, Hne.
Qed.

Lemma other_process_search image stores search_id :
  search_id <> other ->
  keeps untouched (process_search env image stores search_id).
Proof.
  intros Hne. unfold process_search, process_search_body, analyze_and_search.
  repeat (other_step Hne || (apply other_search_stores; exact Hne)).
Qed.

Lemma other_run_tasks (tasks : list Task) :
  (forall task, In task tasks -> task_search_id task <> other) ->
  keeps untouched (Router.run_tasks env tasks).
Proof.
  induction tasks as [|task rest IH]; intros Hne; simpl.
  - apply keeps_ret.
  - apply keeps_bind.
    + apply keeps_attempt, other_process_search, Hne. left. reflexivity.
    + intros _. apply IH. intros t Ht. apply Hne. right. exact Ht.
Qed.

End OtherRecords.

(** X10. A search touches its own record only: whatever the collaborators
    and the disk do, [process_search] leaves the record of every other
    identifier as it found it (present with the same content, or absent),
    and so does running any number of scheduled searches of other
    identifiers. *)
Theorem search_touches_own_record_only (env : SearchService.Env)
    (image : Models.UploadFile) (stores : list Models.StoreEnum)
    (search_id other : string) (tasks : list Runtime.Task) (w : Runtime.World) :
  search_id <> other ->
  (forall task, In task tasks -> Runtime.task_search_id task <> other) ->
  Runtime.files (snd (SearchService.process_search env image stores search_id w))
    !! other = Runtime.files w !! other /\
  Runtime.files (snd (Router.run_tasks env tasks w)) !! other
    = Runtime.files w !! other.
Proof.
  intros Hne Htasks. split.
  - apply (keeps_snd (fun w' => Runtime.files w' !! other = Runtime.files w !! other)
             _ w); [|reflexivity].
    apply other_process_search, Hne.
  - apply (keeps_snd (fun w' => Runtime.files w' !! other = Runtime.files w !! other)
             _ w); [|reflexivity].
    apply other_run_tasks, Htasks.
Qed.

(** X10, at a concrete input: a search under another identifier leaves
    the fresh record of the scenario as it is. *)
Lemma search_touches_own_record_only_witness :
  let env := Scenario.services Scenario.reliable Scenario.all_found in
  Runtime.files
    (snd (SearchService.process_search env Scenario.jpeg [Models.MODIVO] "id-2"
            Scenario.fresh_world)) !! "id-1"
  = Runtime.files Scenario.fresh_world !! "id-1".
Proof.
  intros env.
  refine (proj1 (search_touches_own_record_only env Scenario.jpeg
                   [Models.MODIVO] "id-2" "id-1" [] Scenario.fresh_world _ _)).
  - discriminate.
  - intros task [].
Defined.

(* ================================================================== *)
(** * A search that fails                                               *)
(* ================================================================== *)

Section PipelineFails.
Import Runtime StateService SearchService.

Variable env : Env.
Variable id : string.
Hypothesis disk : disk_works env.

Lemma analysed_dec :
  analysed env \/
  ((exists e, save_image_result env = Raise e) \/
   (exists u, save_image_result env = Ok u /\ truthy u = false) \/
   (exists url e, save_image_result env = Ok (Some url) /\
                  truthy (Some url) = true /\ analyze_result env = Raise e)).
Proof.
  unfold analysed.
  destruct (save_image_result env) as [u|e]; [|right; left; eauto].
  destruct (truthy u) eqn:Eu; [|right; right; left; eauto].
  destruct u as [url|]; [|discriminate Eu].
  destruct (analyze_result env) as [[attributes t]|e'].
  - left. eauto 10.
  - right. right. right. eauto 10.
Qed.

(** The search that fails, on a working disk: the record is the initial
    one with the status ["failed"] and an end time, and the calls are
    [failed_calls]. *)
Lemma runs_failing image stores made :
  ~ analysed env ->
  triple (fun w => map untimed (calls w) = made)
         (process_search env image stores id)
         (fun _ w => exists start end_,
            at_ id (set_end (set_status (initial_record id stores start)
                               (value FAILED)) end_)
                (made ++ failed_calls env id stores) w)
         (fun _ _ => False).
Proof.
  intros Hnot. unfold process_search, process_search_body.
  eapply triple_bind with (R := fun _ w => map untimed (calls w) = made).
  { intros w Hw. exact Hw. }
  step_in.
  set (pre := [CallInitializeSearch id (map Models.value stores); CallSaveImage id]).
  assert (Hfailed : forall start E,
    triple (at_ id (initial_record id stores start)
                (made ++ pre ++ analyze_calls env))
      (log_call (CallUpdateSearchStatus (value FAILED));;
       update_search_status (sys env) id FAILED)
      (fun _ w => exists start end_,
         at_ id (set_end (set_status (initial_record id stores start)
                            (value FAILED)) end_)
             (made ++ failed_calls env id stores) w) E).
  { intros start E.
    eapply triple_bind; [apply runs_log_call; exact disk|]. step_in.
    eapply triple_conseq with (E' := E);
      [eapply (runs_update_search_status env id disk _ _ FAILED E eq_refl)
      | intros w Hw; exact Hw | | intros e w He; exact He].
    intros _ w [end_ Hat]. exists start, end_.
    unfold failed_calls. fold pre.
    replace (made ++ pre ++ analyze_calls env
                  ++ [CallUpdateSearchStatus (value FAILED)])
      with ((made ++ pre ++ analyze_calls env)
            ++ [untimed (CallUpdateSearchStatus (value FAILED))]); [exact Hat|].
    rewrite <- !app_assoc. reflexivity. }
  eapply triple_try_except with
    (E' := fun _ w => exists start,
             at_ id (initial_record id stores start)
                 (made ++ pre ++ analyze_calls env) w).
  2:{ intros e. apply triple_exists_l. intros start. apply Hfailed. }
  eapply triple_bind with
    (R := fun _ w => map untimed (calls w)
                     = made ++ [CallInitializeSearch id (map Models.value stores)]).
  { intros w Hw. simpl. rewrite map_app, Hw. reflexivity. }
  step_in.
  eapply triple_bind; [apply runs_initialize_search; exact disk|]. step_in.
  apply triple_exists_l. intros start.
  change (triple
    (at_ id (initial_record id stores start)
         (made ++ [CallInitializeSearch id (map Models.value stores)]))
    (log_call (CallSaveImage id);;
     image_url ← lift (save_image_result env);
     (if negb (truthy image_url)
      then log_call (CallUpdateSearchStatus (value FAILED));;
           update_search_status (sys env) id FAILED
      else analyze_and_search env stores id (default EmptyString image_url)))
    (fun _ w => exists start0 end_,
       at_ id (set_end (set_status (initial_record id stores start0)
                          (value FAILED)) end_)
           (made ++ failed_calls env id stores) w)
    (fun _ w => exists start0,
       at_ id (initial_record id stores start0)
           (made ++ pre ++ analyze_calls env) w)).
  eapply triple_bind; [apply runs_log_call; exact disk|]. step_in.
  assert (Hpre : (made ++ [CallInitializeSearch id (map Models.value stores)])
                 ++ [untimed (CallSaveImage id)] = made ++ pre).
  { rewrite <- app_assoc. reflexivity. }
  rewrite Hpre. unfold analyze_calls in *.
  destruct (save_image_result env) as [u|e] eqn:Eimg.
  2:{ intros w0 Hw. simpl. exists start. exact Hw. }
  eapply triple_bind; [apply triple_lift_eq|]. intros x; cbv beta.
  apply triple_pure_l. intros ->.
  destruct (truthy u) eqn:Eu; simpl negb; cbv iota.
  2:{ apply Hfailed. }
  destruct u as [url|]; [|discriminate Eu].
  destruct (analyze_result env) as [[attributes t]|e] eqn:Ean.
  { exfalso. apply Hnot. exists url, attributes, t. auto. }
  unfold analyze_and_search. rewrite Ean.
  eapply triple_bind; [apply runs_log_call; exact disk|]. step_in.
  intros w0 Hw. simpl. exists start. rewrite <- app_assoc in Hw. exact Hw.
Qed.

Lemma failed_calls_no_search stores :
  List.filter is_search (failed_calls env id stores) = [].
Proof.
  unfold failed_calls, analyze_calls.
  destruct (save_image_result env) as [u|e]; [|reflexivity].
  destruct (truthy u); reflexivity.
Qed.

End PipelineFails.

(** X11. The outcome of a search is settled before any store is searched.
    On a working disk, a search completes exactly when its image is saved
    and its analyzer answers (the repository answering every call
    thereafter), whatever the store searches do; otherwise it returns
    normally with the record ["failed"] and no store is searched: every
    sub-status is still ["processing"] with no time, no attribute is
    recorded and the result count is 0. *)
Theorem outcome_is_settled_before_the_stores (env : SearchService.Env)
    (image : Models.UploadFile) (stores : list Models.StoreEnum)
    (search_id : string) (w : Runtime.World) :
  let record := SearchService.final_record env image stores search_id w in
  let made := SearchService.final_calls env image stores search_id w in
  SearchService.disk_works env ->
  (SearchService.repository_answers env ->
   ((exists state, record = Some state /\ SearchState.status state = "completed")
    <-> SearchService.analysed env)) /\
  (~ SearchService.analysed env ->
   fst (SearchService.process_search env image stores search_id w) = Runtime.Ok tt /\
   made = map SearchService.untimed (Runtime.calls w)
          ++ SearchService.failed_calls env search_id stores /\
   List.filter SearchService.is_search made
     = List.filter SearchService.is_search
         (map SearchService.untimed (Runtime.calls w)) /\
   exists state,
     record = Some state /\
     SearchState.status state = "failed" /\
     SearchService.view (SearchState.stores_searched state)
       = map (fun s => (Models.value s, "processing")) stores /\
     (forall e, In e (SearchState.stores_searched state) ->
                StoreState.time_ms e = 0%Z) /\
     SearchState.attributes_recognized state = [] /\
     SearchState.result_count state = 0%Z).
Proof.
  intros record made disk.
  assert (Hfail : ~ SearchService.analysed env ->
    fst (SearchService.process_search env image stores search_id w) = Runtime.Ok tt /\
    made = map SearchService.untimed (Runtime.calls w)
           ++ SearchService.failed_calls env search_id stores /\
    exists state,
      record = Some state /\
      SearchState.status state = "failed" /\
      SearchService.view (SearchState.stores_searched state)
        = map (fun s => (Models.value s, "processing")) stores /\
      (forall e, In e (SearchState.stores_searched state) ->
                 StoreState.time_ms e = 0%Z) /\
      SearchState.attributes_recognized state = [] /\
      SearchState.result_count state = 0%Z).
  { intros Hnot.
    pose proof (runs_failing env search_id disk image stores
                  (map SearchService.untimed (Runtime.calls w)) Hnot w eq_refl) as H.
    subst record made. unfold SearchService.final_record, SearchService.final_calls.
    destruct (SearchService.process_search env image stores search_id w)
      as [[[]|e] w']; [|destruct H].
    destruct H as (start & end_ & Hf & Hc). simpl.
    split; [reflexivity|]. split; [exact Hc|].
    eexists. split; [exact Hf|]. simpl. split; [reflexivity|].
    split; [|split; [|split; reflexivity]].
    - unfold SearchService.view. rewrite !map_map. reflexivity.
    - intros e He. apply in_map_iff in He as (n & <- & _). reflexivity. }
  split.
  - intros Hrepo. split.
    + intros (state & Hrec & Hst).
      destruct (analysed_dec env) as [Ha | Hn]; [exact Ha|].
      assert (Hnot : ~ SearchService.analysed env).
      { intros (url & a & t & H1 & H2 & H3).
        destruct Hn as [[e He] | [(u & Hu & Ht) | (url' & e & _ & _ & He)]];
          congruence. }
      destruct (Hfail Hnot) as (_ & _ & state' & Hrec' & Hst' & _).
      rewrite Hrec in Hrec'. injection Hrec' as <-.
      rewrite Hst in Hst'. discriminate Hst'.
    + intros (url & a & t & H1 & H2 & H3).
      destruct (process_search_completes env search_id disk image stores url a t w
                  Hrepo H1 H2 H3) as (_ & state & Hrec & Hst & _).
      exists state. split; [exact Hrec | exact Hst].
  - intros Hnot. destruct (Hfail Hnot) as (Hok & Hmade & Hstate).
    split; [exact Hok|]. split; [exact Hmade|]. split; [|exact Hstate].
    rewrite Hmade, List.filter_app, failed_calls_no_search, app_nil_r.
    reflexivity.
Qed.

(** X11, at a concrete input: the image cannot be written; the search over
    two stores fails and neither store is searched. *)
Lemma outcome_is_settled_before_the_stores_witness :
  let env := App.get_search_service App.unwritable Scenario.jpeg "id-1" in
  SearchService.disk_works env /\
  ~ SearchService.analysed env /\
  List.filter SearchService.is_search
    (SearchService.final_calls env Scenario.jpeg [Models.ZALANDO; Models.ASOS]
       "id-1" Runtime.empty_world) = [] /\
  exists state,
    SearchService.final_record env Scenario.jpeg [Models.ZALANDO; Models.ASOS]
      "id-1" Runtime.empty_world = Some state /\
    SearchState.status state = "failed" /\
    SearchService.view (SearchState.stores_searched state)
      = [("zalando", "processing"); ("asos", "processing")].
Proof.
  intros env.
  assert (Hd : SearchService.disk_works env) by (intros n; reflexivity).
  assert (Hn : ~ SearchService.analysed env).
  { intros (url & a & t & H & _). discriminate H. }
  split; [exact Hd|]. split; [exact Hn|].
  destruct (proj2 (outcome_is_settled_before_the_stores env Scenario.jpeg
                     [Models.ZALANDO; Models.ASOS] "id-1" Runtime.empty_world Hd)
              Hn) as (_ & _ & Hs & state & Hrec & Hst & Hview & _).
  split; [exact Hs|]. exists state. split; [exact Hrec|].
  split; [exact Hst | exact Hview].
Defined.

(* ================================================================== *)
(** * The simulated scraper                                             *)
(* ================================================================== *)

Section Scraper.
Import ScraperService.

Lemma result_count_bounds (store : string) :
  (1 <= result_count store <= 4)%nat.
Proof.
  unfold result_count.
  destruct (String.eqb store "zalando"); [lia|].
  destruct (String.eqb store "modivo"); [lia|].
  destruct (String.eqb store "asos"); lia.
Qed.

Lemma result_count_enum (s : Models.StoreEnum) :
  (2 <= result_count (Models.value s) <= 4)%nat.
Proof. destruct s; vm_compute; lia. Qed.

Lemma simulated_length store attributes :
  length (_simulate_search_results store attributes) = result_count store.
Proof.
  unfold _simulate_search_results. rewrite length_map, length_seq. reflexivity.
Qed.

Lemma alt_colors_two (color : string) : length (take 2 (alt_colors color)) = 2%nat.
Proof. unfold alt_colors. destruct (negb (String.eqb color "blue")); reflexivity. Qed.

(** The dictionary comprehension over [zip(stores, results)]. *)
Lemma comprehension_lookup {V} (g : string -> V) (stores : list string)
    (store : string) :
  forall d : gmap string V,
  fold_left (fun d sr => <[fst sr := snd sr]> d) (combine stores (map g stores)) d
    !! store
  = if decide (store ∈ stores) then Some (g store) else d !! store.
Proof.
  induction stores as [|x rest IH]; intros d.
  - rewrite decide_False; [reflexivity|]. intros H. inversion H.
  - change (fold_left (fun d sr => <[fst sr := snd sr]> d)
              (combine (x :: rest) (map g (x :: rest))) d)
      with (fold_left (fun d sr => <[fst sr := snd sr]> d)
              (combine rest (map g rest)) (<[x := g x]> d)).
    rewrite IH. destruct (decide (store ∈ rest)) as [Hin|Hnot].
    + rewrite decide_True; [reflexivity|]. right. exact Hin.
    + destruct (decide (x = store)) as [->|Hne].
      * rewrite lookup_insert_eq, decide_True; [reflexivity|]. left.
      * rewrite lookup_insert_ne by exact Hne.
        rewrite decide_False; [reflexivity|]. intros H.
        apply elem_of_cons in H as [E|H]; [congruence | contradiction].
Qed.

End Scraper.

(** X12. What the simulated scraper returns: for every store name and
    every list of attributes, between one and four products (three for
    zalando, two for modivo, four for asos, one for any other name), each
    of them of that store, with a colour, a pattern and a cut (those
    recognized first under these names, or the defaults ["unknown"],
    ["solid"] and ["regular"]), the brand recognized if any, and exactly
    two alternatives. *)
Theorem simulated_results_shape (store : string)
    (attributes : list Models.AttributeRecognition) :
  let products := ScraperService._simulate_search_results store attributes in
  length products = ScraperService.result_count store /\
  (1 <= length products <= 4)%nat /\
  (store <> "zalando" -> store <> "modivo" -> store <> "asos" ->
   length products = 1%nat) /\
  (forall p, In p products ->
     Models.store p = store /\
     Models.color (Models.attributes p)
       = Some (default "unknown" (ScraperService.first_value "color" attributes)) /\
     Models.pattern (Models.attributes p)
       = Some (default "solid" (ScraperService.first_value "pattern" attributes)) /\
     Models.cut (Models.attributes p)
       = Some (default "regular" (ScraperService.first_value "cut" attributes)) /\
     Models.brand (Models.attributes p)
       = ScraperService.first_value "brand" attributes /\
     length (Models.alternatives p) = 2%nat).
Proof.
  intros products. subst products. rewrite simulated_length.
  split; [reflexivity|]. split; [apply result_count_bounds|]. split.
  - intros H1 H2 H3. unfold ScraperService.result_count.
    rewrite (proj2 (String.eqb_neq _ _) H1), (proj2 (String.eqb_neq _ _) H2),
      (proj2 (String.eqb_neq _ _) H3). reflexivity.
  - intros p Hp. unfold ScraperService._simulate_search_results in Hp.
    apply in_map_iff in Hp as (i & <- & _). simpl.
    repeat split. rewrite length_map. apply alt_colors_two.
Qed.

(** X12, at a concrete input: a store that is none of the three, and the
    colour red recognized. *)
Lemma simulated_results_shape_witness :
  length (ScraperService._simulate_search_results "reserved" Scenario.red) = 1%nat /\
  (forall p,
     In p (ScraperService._simulate_search_results "reserved" Scenario.red) ->
     Models.store p = "reserved" /\
     Models.color (Models.attributes p) = Some "red" /\
     Models.pattern (Models.attributes p) = Some "solid").
Proof.
  destruct (simulated_results_shape "reserved" Scenario.red)
    as (_ & _ & Hone & Hall).
  split.
  - apply Hone; discriminate.
  - intros p Hp. destruct (Hall p Hp) as (H1 & H2 & H3 & _).
    split; [exact H1|]. split; [exact H2 | exact H3].
Defined.

(** X13. [search_multiple_stores] answers with one entry per store
    requested, however often the store is listed, holding the results of
    that store; a store that was not requested has no entry. *)
Theorem multiple_stores_one_entry_each (stores : list string)
    (attributes : list Models.AttributeRecognition) (search_id store : string) :
  ScraperService.search_multiple_stores stores attributes search_id !! store
  = if decide (store ∈ stores)
    then Some (ScraperService._simulate_search_results store attributes)
    else None.
Proof.
  unfold ScraperService.search_multiple_stores. cbv zeta.
  rewrite (comprehension_lookup
             (fun store => ScraperService.search_store store attributes search_id)).
  destruct (decide (store ∈ stores)); reflexivity.
Qed.

(* ================================================================== *)
(** * A search with the services of the application                     *)
(* ================================================================== *)

Section Wired.
Import Runtime StateService SearchService.

Variable o : App.Outside.
Variable image : Models.UploadFile.
Variable id : string.

Local Abbreviation wired := (App.get_search_service o image id).

Lemma wired_repository : repository_answers wired.
Proof.
  unfold repository_answers. simpl. split; [|split].
  - unfold SearchRepository.save_attributes_batch.
    destruct (App.recognized o); [eauto|].
    destruct (negb (App.pool o)); [eauto|].
    destruct (App.attributes_transaction o); eauto.
  - intros i performed. unfold SearchRepository.save_store_search.
    destruct (negb (App.pool o)); [eauto|].
    destruct (App.execute_store o i performed); eauto.
  - unfold SearchRepository.save_search_metrics.
    destruct (negb (App.pool o)); [eauto|].
    destruct (App.execute_metrics o); eauto.
Qed.

Lemma wired_analysis :
  exists analysis_time_ms,
    analyze_result wired = Ok (App.recognized o, analysis_time_ms).
Proof.
  simpl. unfold App.recognized.
  destruct (App.analysis o) as [[attributes t]|e] eqn:E; [eauto|].
  exfalso. unfold App.analysis, VisionService.analyze_clothing_image in E.
  destruct (negb (truthy (App.api_key o))); [discriminate E|].
  destruct (App.vision_request o); discriminate E.
Qed.

Lemma wired_saved :
  App.stored o = true ->
  exists image_url,
    save_image_result wired = Ok (Some image_url) /\
    truthy (Some image_url) = true.
Proof.
  intros Hs. simpl. unfold save_image. rewrite Hs. simpl.
  eexists. split; reflexivity.
Qed.

Lemma wired_verdict (i : nat) (store : string) :
  verdict wired i store = value COMPLETED.
Proof. reflexivity. Qed.

Lemma wired_tally (stores : list Models.StoreEnum) :
  forall i, tally wired i stores = App.simulated_total stores.
Proof.
  unfold App.simulated_total.
  induction stores as [|s rest IH]; intros i; simpl; [reflexivity|].
  rewrite IH. unfold found. simpl.
  unfold ScraperService.search_store. rewrite simulated_length. lia.
Qed.

Lemma simulated_total_bounds (stores : list Models.StoreEnum) :
  (2 * Z.of_nat (length stores) <= App.simulated_total stores
   <= 4 * Z.of_nat (length stores))%Z.
Proof.
  unfold App.simulated_total.
  induction stores as [|s rest IH]; simpl; [lia|].
  pose proof (result_count_enum s). lia.
Qed.

Lemma last_verdict_completed (name : string) (stores : list Models.StoreEnum) :
  forall i acc,
  acc = Some (value COMPLETED) \/ In name (map Models.value stores) ->
  last_verdict wired i stores name acc = Some (value COMPLETED).
Proof.
  induction stores as [|s rest IH]; intros i acc H; simpl.
  - destruct H as [H|[]]. exact H.
  - apply IH. destruct (String.eqb_spec (Models.value s) name) as [E|Hne].
    + left. reflexivity.
    + destruct H as [H|[H|H]]; [left; exact H | contradiction | right; exact H].
Qed.

End Wired.

(** X14. A search with the services as the application builds them (no
    bucket, the simulated scraper, the repository that swallows its
    errors): on a working disk, when the image is written, the search
    returns normally and completes, whatever the analyzer, the database
    and the clock do; the record holds what the analyzer recognized, shows
    ["completed"] for every store requested, and counts the simulated
    products of the stores as listed, between two and four per store. *)
Theorem wired_search_completes (o : App.Outside) (image : Models.UploadFile)
    (stores : list Models.StoreEnum) (search_id : string) (w : Runtime.World) :
  let env := App.get_search_service o image search_id in
  (forall n, Runtime.io_ok (App.out_sys o) n = true) ->
  App.stored o = true ->
  fst (SearchService.process_search env image stores search_id w) = Runtime.Ok tt /\
  (forall s, In s stores ->
     SearchService.final_shown env image stores search_id w (Models.value s)
     = Some "completed") /\
  exists state,
    SearchService.final_record env image stores search_id w = Some state /\
    SearchState.status state = "completed" /\
    SearchState.attributes_recognized state = App.recognized o /\
    SearchState.result_count state = App.simulated_total stores /\
    (2 * Z.of_nat (length stores) <= SearchState.result_count state
     <= 4 * Z.of_nat (length stores))%Z.
Proof.
  intros env disk Hstored.
  assert (Hdisk : SearchService.disk_works env) by exact disk.
  pose proof (wired_repository o image search_id) as Hrepo.
  destruct (wired_analysis o image search_id) as [t Han].
  destruct (wired_saved o image search_id Hstored) as (url & Himg & Htruthy).
  destruct (process_search_completes env search_id Hdisk image stores url
              (App.recognized o) t w Hrepo Himg Htruthy Han)
    as (Hok & state & Hrec & Hst & Hattr & Hcount & _).
  split; [exact Hok|]. split.
  - intros s Hs.
    rewrite (final_shown_last_verdict env search_id Hdisk Hrepo image stores url
               (App.recognized o) t w (Models.value s) Himg Htruthy Han).
    rewrite decide_True by (apply list_elem_of_In, in_map, Hs).
    apply last_verdict_completed. right. apply in_map, Hs.
  - exists state. split; [exact Hrec|]. split; [exact Hst|].
    split; [exact Hattr|]. rewrite Hcount. subst env. rewrite wired_tally.
    split; [reflexivity | apply simulated_total_bounds].
Qed.

(** X14, at a concrete input: a development machine, the three stores;
    nine products are counted. *)
Lemma wired_search_completes_witness :
  let env := App.get_search_service App.development Scenario.jpeg "id-1" in
  exists state,
    SearchService.final_record env Scenario.jpeg Models.all_stores "id-1"
      Runtime.empty_world = Some state /\
    SearchState.status state = "completed" /\
    SearchState.result_count state = 9%Z.
Proof.
  intros env.
  destruct (wired_search_completes App.development Scenario.jpeg
              Models.all_stores "id-1" Runtime.empty_world
              (fun n => eq_refl) eq_refl)
    as (_ & _ & state & Hrec & Hst & _ & Hcount & _).
  exists state. split; [exact Hrec|]. split; [exact Hst | exact Hcount].
Defined.

(* ================================================================== *)
(** * From the submission to the status                                 *)
(* ================================================================== *)

Lemma search_id_stable (id : string) :
  StateService.stable (fun state => SearchState.search_id state = id).
Proof. intros state H. repeat split; intros; exact H. Qed.

(** X15. From the submission to the status, on a working disk: a valid
    submission under a fresh identifier is answered with that identifier;
    until the scheduled task has run the status route answers 404 for it;
    once the task has run the route answers with the record of that
    identifier, in a terminal status. *)
Theorem submitted_search_is_found_once_processed (env : SearchService.Env)
    (image : Models.UploadFile) (stores : option (list Models.StoreEnum))
    (w : Runtime.World) :
  let id := SearchService.uuid4 env in
  SearchService.disk_works env ->
  fst (SearchService.validate_image image) = true ->
  Runtime.files w !! id = None ->
  Runtime.background w = [] ->
  exists body w1,
    Router.create_search env image stores w = (Runtime.Ok body, w1) /\
    Models.search_id body = id /\
    fst (Router.get_search_status env id w1)
      = Runtime.Raise (Runtime.HTTPException 404
                         ("Search with ID " +:+ id +:+ " not found")) /\
    exists resp,
      fst (Router.get_search_status env id
             (snd (Router.run_tasks env (Runtime.background w1) w1)))
        = Runtime.Ok resp /\
      StateService.resp_search_id resp = id /\
      StateService.terminal (StateService.resp_status resp).
Proof.
  intros id disk Hvalid Hfresh Hbg.
  unfold Router.create_search.
  destruct (SearchService.validate_image image) as [is_valid message].
  simpl in Hvalid. subst is_valid. simpl negb. cbv iota.
  set (requested := match stores with
                    | Some (s :: l) => s :: l
                    | _ => Models.all_stores
                    end).
  unfold mbind, Runtime.M_bind, Router.add_task, SearchService.get_timestamp,
    Runtime.now, mret, Runtime.M_ret. simpl.
  eexists. eexists. split; [reflexivity|]. split; [reflexivity|].
  rewrite Hbg. simpl app.
  set (w1 := {| Runtime.files := Runtime.files w;
                Runtime.cut_off := Runtime.cut_off w;
                Runtime.io_ops := Runtime.io_ops w;
                Runtime.clock_reads := S (Runtime.clock_reads w);
                Runtime.calls := Runtime.calls w;
                Runtime.background :=
                  [{| Runtime.task_image := image;
                      Runtime.task_stores := requested;
                      Runtime.task_search_id := SearchService.uuid4 env |}] |}).
  split.
  - unfold Router.get_search_status, SearchService.get_search_status.
    unfold mbind, Runtime.M_bind.
    rewrite (get_search_status_missing (SearchService.sys env) id w1 Hfresh).
    reflexivity.
  - simpl Router.run_tasks. unfold mbind at 1. unfold Runtime.M_bind at 1.
    unfold Runtime.attempt.
    pose proof (process_search_settles env id image requested w1 (disk _)) as Hs.
    pose proof (keeps_process_search_body env
                  (fun state => SearchState.search_id state = id)
                  (search_id_stable id) image requested id
                  (fun _ => eq_refl) w1 (disk _)) as Hk.
    fold id.
    destruct (SearchService.process_search env image requested id w1)
      as [[[]|e] w2]; [|destruct Hs].
    simpl.
    destruct (settled_terminal env id w2 Hs (disk _)) as (state & Hf & Hterm).
    destruct Hk as [(state' & Hf' & Hid)|(Hn & _)]; [|congruence].
    rewrite Hf in Hf'. injection Hf' as <-.
    unfold Router.get_search_status, SearchService.get_search_status.
    unfold mbind, Runtime.M_bind.
    rewrite (get_search_status_found (SearchService.sys env) id state w2 Hf (disk _)).
    simpl. eexists. split; [reflexivity|]. split; [exact Hid | exact Hterm].
Qed.

(** X15, at a concrete input: a small JPEG submitted to the services of
    the scenario, in an empty world. *)
Lemma submitted_search_is_found_once_processed_witness :
  let env := Scenario.services Scenario.reliable Scenario.all_found in
  exists body w1,
    Router.create_search env Scenario.jpeg None Runtime.empty_world
      = (Runtime.Ok body, w1) /\
    exists resp,
      fst (Router.get_search_status env "id-1"
             (snd (Router.run_tasks env (Runtime.background w1) w1)))
        = Runtime.Ok resp /\
      StateService.terminal (StateService.resp_status resp).
Proof.
  intros env.
  destruct (submitted_search_is_found_once_processed env Scenario.jpeg None
              Runtime.empty_world (fun n => eq_refl) eq_refl eq_refl eq_refl)
    as (body & w1 & Hc & _ & _ & resp & Hr & _ & Ht).
  exists body, w1. split; [exact Hc|]. exists resp. split; [exact Hr | exact Ht].
Defined.

(* ================================================================== *)
(** * Rate limiter: a burst of requests                                 *)
(* ================================================================== *)

Section RateLimiterBurst.
Import RateLimiter.

Variable cfg : Config.
Variable ip : string.
Variable auth : bool.

(** A request of the client [ip] in the class [auth] on a limited path. *)
Local Abbreviation of_class := (fun x : Arrival =>
  client_ip (request x) = ip /\ _is_authenticated (request x) = auth /\
  _should_rate_limit (path (request x)) = true).

Lemma prune_all_new (ws : Q) (l : list Q) :
  (forall ts, In ts l -> (ws < ts)%Q) -> prune ws l = l.
Proof.
  unfold prune. induction l as [|x l IH]; intros H; simpl; [reflexivity|].
  rewrite (proj2 (Qltb_lt ws x) (H x (or_introl eq_refl))).
  f_equal. apply IH. intros ts Hts. apply H. right. exact Hts.
Qed.

Lemma responses_app (l1 l2 : list Arrival) :
  forall st,
  responses cfg st (l1 ++ l2)
  = responses cfg st l1 ++ responses cfg (state_after cfg st l1) l2.
Proof.
  induction l1 as [|x rest IH]; intros st; simpl; [reflexivity|].
  unfold state_after. simpl.
  destruct (dispatch cfg st x) as [r st']. simpl. f_equal.
  rewrite run_state. apply IH.
Qed.

Lemma state_after_cons (st : State) (x : Arrival) (rest : list Arrival) :
  state_after cfg st (x :: rest)
  = state_after cfg (snd (dispatch cfg st x)) rest.
Proof.
  unfold state_after. simpl. destruct (dispatch cfg st x) as [r st']. simpl.
  apply run_state.
Qed.

(** As long as the limit is not reached, the requests of a burst within
    one window are forwarded and recorded. *)
Lemma burst_accepted (T : Q) (arrivals : list Arrival) :
  forall (st : State),
  (forall x, In x arrivals ->
     of_class x /\ (t_check x <= T)%Q /\
     (T - inject_Z (window_size cfg) < t_record x)%Q) ->
  (forall ts, In ts (records_of st ip) ->
     (T - inject_Z (window_size cfg) < ts)%Q) ->
  blocked_clients st !! ip = None ->
  (Z.of_nat (length (records_of st ip) + length arrivals) <= limit_for cfg auth)%Z ->
  responses cfg st arrivals = repeat Forwarded (length arrivals) /\
  records_of (state_after cfg st arrivals) ip
    = records_of st ip ++ map t_record arrivals /\
  blocked_clients (state_after cfg st arrivals) !! ip = None.
Proof.
  induction arrivals as [|x rest IH]; intros st Hall Hl Hb Hlen.
  - simpl. rewrite app_nil_r. repeat split. exact Hb.
  - destruct (Hall x (or_introl eq_refl)) as ((Hip & Hauth & Hp) & Hx & Hrec).
    destruct (dispatch_view cfg st x) as (Hf & Hr & Hblk & _).
    rewrite Hip in Hf, Hr, Hblk. unfold client_step in Hf, Hr, Hblk.
    rewrite Hp, Hb, Hauth in Hf, Hr, Hblk.
    rewrite prune_all_new in Hf, Hr, Hblk
      by (intros ts Hts; specialize (Hl ts Hts); lra).
    assert (Hlt : (limit_for cfg auth <=? Z.of_nat (length (records_of st ip)))%Z
                  = false).
    { apply Z.leb_gt. simpl in Hlen. lia. }
    rewrite Hlt in Hf, Hr, Hblk. simpl in Hf, Hr, Hblk.
    rewrite state_after_cons. simpl responses.
    destruct (dispatch cfg st x) as [r st']. simpl in *. subst r.
    destruct (IH st') as (H1 & H2 & H3).
    + intros y Hy. apply Hall. right. exact Hy.
    + rewrite Hr. intros ts Hts. apply in_app_or in Hts as [Hts|[<-|[]]];
        [apply Hl, Hts | exact Hrec].
    + exact Hblk.
    + rewrite Hr, length_app. simpl. lia.
    + rewrite H1, H2, H3, Hr, <- app_assoc. repeat split.
Qed.

End RateLimiterBurst.

(** X16. A burst is cut at the limit: when a fresh limiter receives, on
    limited paths (the submission and the status route alike), as many
    requests of one client in one class as its limit and then one more,
    all within one window of the last, it forwards the former and rejects
    the latter with the block time. *)
Theorem burst_is_cut_at_the_limit (cfg : RateLimiter.Config) (ip : string)
    (auth : bool) (arrivals : list RateLimiter.Arrival) (a : RateLimiter.Arrival) :
  (forall x, In x (arrivals ++ [a]) ->
     RateLimiter.client_ip (RateLimiter.request x) = ip /\
     RateLimiter._is_authenticated (RateLimiter.request x) = auth /\
     RateLimiter._should_rate_limit (RateLimiter.path (RateLimiter.request x)) = true) ->
  (forall x, In x arrivals ->
     (RateLimiter.t_check x <= RateLimiter.t_check a)%Q /\
     (RateLimiter.t_check a - inject_Z (RateLimiter.window_size cfg)
      < RateLimiter.t_record x)%Q) ->
  Z.of_nat (length arrivals) = RateLimiter.limit_for cfg auth ->
  RateLimiter.responses cfg RateLimiter.init (arrivals ++ [a])
  = repeat RateLimiter.Forwarded (length arrivals)
    ++ [RateLimiter.TooManyRequests (RateLimiter.block_time cfg)].
Proof.
  intros Hclass Htimes Hlen.
  destruct (burst_accepted cfg ip auth (RateLimiter.t_check a) arrivals
              RateLimiter.init) as (H1 & H2 & H3).
  - intros x Hx. split; [apply Hclass, in_or_app; left; exact Hx|].
    apply Htimes, Hx.
  - intros ts [].
  - reflexivity.
  - change (RateLimiter.records_of RateLimiter.init ip) with (@nil Q).
    simpl length. lia.
  - change (RateLimiter.records_of RateLimiter.init ip) with (@nil Q) in H2.
    rewrite responses_app, H1. f_equal. simpl.
    destruct (Hclass a) as (Hip & Hauth & Hp);
      [apply in_or_app; right; left; reflexivity|].
    destruct (dispatch_view cfg (RateLimiter.state_after cfg RateLimiter.init arrivals) a)
      as (Hf & _).
    rewrite Hip in Hf. unfold RateLimiter.client_step in Hf.
    rewrite Hp, H3, Hauth, H2 in Hf. simpl app in Hf.
    rewrite prune_all_new in Hf.
    2:{ intros ts Hts. apply in_map_iff in Hts as (x & <- & Hx).
        apply Htimes, Hx. }
    rewrite length_map in Hf.
    rewrite (proj2 (Z.leb_le _ _)) in Hf by lia. simpl in Hf.
    destruct (RateLimiter.dispatch cfg _ a) as [r st']. simpl in Hf. subst r.
    reflexivity.
Qed.

(** X16, at a concrete input: a limit of two requests in ten seconds; a
    submission and a status poll are forwarded, the next poll is
    rejected. *)
Lemma burst_is_cut_at_the_limit_witness :
  let cfg := {| RateLimiter.anonymous_limit := 2;
                RateLimiter.authenticated_limit := 3;
                RateLimiter.window_size := 10;
                RateLimiter.block_time := 5 |} in
  RateLimiter.responses cfg RateLimiter.init ([anon_at 1; poll_at 2] ++ [poll_at 3])
  = repeat RateLimiter.Forwarded 2 ++ [RateLimiter.TooManyRequests 5].
Proof.
  intros cfg.
  apply (burst_is_cut_at_the_limit cfg "10.0.0.7" false [anon_at 1; poll_at 2]
           (poll_at 3)).
  - intros x [<-|[<-|[<-|[]]]]; repeat split.
  - intros x [<-|[<-|[]]]; split; vm_compute; (reflexivity || discriminate).
  - reflexivity.
Defined.

(* ================================================================== *)
(** * The times of a search                                             *)
(* ================================================================== *)

Lemma update_first_In store status time_ms entries e :
  In e (StateService.update_first store status time_ms entries) ->
  In e entries \/ StoreState.time_ms e = time_ms.
Proof.
  induction entries as [|x rest IH]; simpl; [intros []|].
  destruct (String.eqb (StoreState.name x) store).
  - intros [<-|H]; [right; reflexivity | left; right; exact H].
  - intros [<-|H]; [left; left; reflexivity|].
    destruct (IH H) as [H'|H']; [left; right; exact H' | right; exact H'].
Qed.

(** Rounding to the nearest float keeps the order of the numbers that are
    not negative. *)
Lemma Qcompare_cases (a b : Q) :
  match Qcompare a b with
  | Eq => (a == b)%Q
  | Lt => (a < b)%Q
  | Gt => (b < a)%Q
  end.
Proof.
  destruct (Qcompare a b) eqn:C.
  - apply Qeq_alt. exact C.
  - apply Qlt_alt. exact C.
  - apply Qgt_alt. exact C.
Qed.

Lemma round_half_even_near (x : Q) :
  (Qfloor x <= round_half_even x <= Qfloor x + 1)%Z.
Proof.
  unfold round_half_even.
  destruct (Qcompare (x - inject_Z (Qfloor x)) (1 # 2)); [|lia|lia].
  destruct (Z.even (Qfloor x)); lia.
Qed.

Lemma round_half_even_mono (x y : Q) :
  (x <= y)%Q -> (round_half_even x <= round_half_even y)%Z.
Proof.
  intros Hxy. pose proof (Qfloor_resp_le x y Hxy) as Hf.
  pose proof (round_half_even_near x) as Hx.
  pose proof (round_half_even_near y) as Hy.
  destruct (Z.eq_dec (Qfloor x) (Qfloor y)) as [E|N]; [|lia].
  clear Hx Hy. unfold round_half_even. rewrite <- E.
  set (f := Qfloor x) in *.
  pose proof (Qcompare_cases (x - inject_Z f) (1 # 2)) as Cx.
  pose proof (Qcompare_cases (y - inject_Z f) (1 # 2)) as Cy.
  destruct (Qcompare (x - inject_Z f) (1 # 2));
    destruct (Qcompare (y - inject_Z f) (1 # 2));
    try (destruct (Z.even f); lia); try lia; exfalso; lra.
Qed.

Lemma round_half_even_ge (a : Z) (x : Q) :
  (inject_Z a <= x)%Q -> (a <= round_half_even x)%Z.
Proof.
  intros H. pose proof (round_half_even_near x) as Hx.
  pose proof (Qfloor_resp_le _ _ H) as Hf. rewrite Qfloor_Z in Hf. lia.
Qed.

Lemma round_half_even_le (b : Z) (x : Q) :
  (x <= inject_Z b)%Q -> (round_half_even x <= b)%Z.
Proof.
  intros H. pose proof (round_half_even_near x) as Hx.
  pose proof (Qfloor_resp_le _ _ H) as Hf. rewrite Qfloor_Z in Hf.
  destruct (Z.eq_dec (Qfloor x) b) as [E|N]; [|lia].
  unfold round_half_even. rewrite E.
  assert (Hx0 : (x - inject_Z b <= 0)%Q) by lra.
  pose proof (Qcompare_cases (x - inject_Z b) (1 # 2)) as C.
  destruct (Qcompare (x - inject_Z b) (1 # 2)); [lra | lia | lra].
Qed.

Lemma two_pow_pos (e : Z) : (0 < 2 ^ e)%Q.
Proof. apply Qpower_0_lt. reflexivity. Qed.

Lemma two_pow_succ (e : Z) : (2 ^ (e + 1) == 2 * 2 ^ e)%Q.
Proof. rewrite Qpower_plus by discriminate. simpl. ring. Qed.

Lemma two_pow_Z (k : Z) : (0 <= k)%Z -> (inject_Z (2 ^ k) == 2 ^ k)%Q.
Proof. intros Hk. apply (Zpower_Qpower 2 k Hk). Qed.

Lemma two_pow_log2 (n : Z) :
  (0 < n)%Z ->
  (2 ^ Z.log2 n <= inject_Z n)%Q /\ (inject_Z n < 2 * 2 ^ Z.log2 n)%Q.
Proof.
  intros Hn. destruct (Z.log2_spec n Hn) as [H1 H2].
  pose proof (Z.log2_nonneg n) as H0.
  rewrite <- two_pow_succ.
  rewrite <- !two_pow_Z by lia. rewrite <- Zle_Qle, <- Zlt_Qlt.
  split; [exact H1|]. replace (Z.log2 n + 1)%Z with (Z.succ (Z.log2 n)) by lia.
  exact H2.
Qed.

Lemma exponent_spec (q : Q) :
  (0 < q)%Q -> (2 ^ exponent q <= q)%Q /\ (q < 2 ^ (exponent q + 1))%Q.
Proof.
  intros Hq. unfold exponent.
  set (a := Z.log2 (Qnum q)). set (b := Z.log2 (Z.pos (Qden q))).
  assert (Hn : (0 < Qnum q)%Z).
  { unfold Qlt in Hq. simpl in Hq. lia. }
  destruct (two_pow_log2 (Qnum q) Hn) as [Ha1 Ha2].
  destruct (two_pow_log2 (Z.pos (Qden q)) ltac:(lia)) as [Hb1 Hb2].
  fold a in Ha1, Ha2. fold b in Hb1, Hb2.
  pose proof (two_pow_pos a) as Pa. pose proof (two_pow_pos b) as Pb.
  assert (Hd : (0 < inject_Z (Z.pos (Qden q)))%Q).
  { rewrite <- (Zlt_Qlt 0). lia. }
  assert (Eq1 : (q * inject_Z (Z.pos (Qden q)) == inject_Z (Qnum q))%Q).
  { destruct q as [n d]. unfold Qeq. simpl.
    rewrite ?Pos.mul_1_r, ?Z.mul_1_r. reflexivity. }
  assert (Ee : (2 ^ (a - b) * 2 ^ b == 2 ^ a)%Q).
  { rewrite <- Qpower_plus by discriminate.
    replace (a - b + b)%Z with a by lia. reflexivity. }
  set (N := inject_Z (Qnum q)) in *. set (D := inject_Z (Z.pos (Qden q))) in *.
  set (PA := (2 ^ a)%Q) in *. set (PB := (2 ^ b)%Q) in *.
  set (S := (2 ^ (a - b))%Q) in *.
  destruct (Qle_bool S q) eqn:C.
  - apply Qle_bool_iff in C. split; [exact C|].
    rewrite two_pow_succ. fold S.
    (* q * D = N < 2 PA = 2 S PB <= 2 S D *)
    apply Qnot_le_lt. intros H.
    assert (H1 : (2 * S * D <= q * D)%Q).
    { apply Qmult_le_compat_r; [exact H | lra]. }
    assert (H2 : (2 * S * PB <= 2 * S * D)%Q).
    { apply Qmult_le_l; [|exact Hb1]. pose proof (two_pow_pos (a - b)). fold S in H0. lra. }
    lra.
  - assert (C' : (q < S)%Q).
    { apply Qnot_le_lt. intros H. apply Qle_bool_iff in H. congruence. }
    split.
    + assert (E2 : (2 * 2 ^ (a - b - 1) == S)%Q).
      { rewrite <- two_pow_succ. replace (a - b - 1 + 1)%Z with (a - b)%Z by lia.
        reflexivity. }
      set (T := (2 ^ (a - b - 1))%Q) in *.
      (* T * 2 PB = PA <= N = q D < q * 2 PB *)
      apply Qnot_lt_le. intros H.
      assert (H1 : (q * (2 * PB) < T * (2 * PB))%Q).
      { apply Qmult_lt_compat_r; [lra | exact H]. }
      assert (H2 : (q * D <= q * (2 * PB))%Q).
      { apply Qmult_le_l; [exact Hq | lra]. }
      assert (H3 : (T * (2 * PB) == PA)%Q).
      { rewrite <- Ee, <- E2. ring. }
      lra.
    + replace (a - b - 1 + 1)%Z with (a - b)%Z by lia. exact C'.
Qed.

Lemma exponent_mono (p q : Q) :
  (0 < p)%Q -> (p <= q)%Q -> (exponent p <= exponent q)%Z.
Proof.
  intros Hp Hpq.
  destruct (exponent_spec p Hp) as [H1 _].
  destruct (exponent_spec q ltac:(lra)) as [_ H2].
  assert (H : (2 ^ exponent p < 2 ^ (exponent q + 1))%Q) by lra.
  apply Qpower_lt_compat_l_inv in H; [lia | reflexivity].
Qed.

Lemma round_positive_bounds (q : Q) :
  (0 < q)%Q ->
  (2 ^ exponent q <= round_positive q)%Q /\
  (round_positive q <= 2 ^ (exponent q + 1))%Q.
Proof.
  intros Hq. destruct (exponent_spec q Hq) as [H1 H2]. unfold round_positive.
  set (e := exponent q) in *.
  pose proof (two_pow_pos (52 - e)) as Pc. pose proof (two_pow_pos (e - 52)) as Pu.
  assert (E1 : (2 ^ e * 2 ^ (52 - e) == inject_Z (2 ^ 52))%Q).
  { rewrite <- Qpower_plus by discriminate.
    replace (e + (52 - e))%Z with 52%Z by lia. reflexivity. }
  assert (E2 : (2 ^ (e + 1) * 2 ^ (52 - e) == inject_Z (2 ^ 53))%Q).
  { rewrite <- Qpower_plus by discriminate.
    replace (e + 1 + (52 - e))%Z with 53%Z by lia. reflexivity. }
  assert (L : (2 ^ 52 <= round_half_even (q * 2 ^ (52 - e)))%Z).
  { apply round_half_even_ge. rewrite <- E1.
    apply Qmult_le_compat_r; [exact H1 | lra]. }
  assert (U : (round_half_even (q * 2 ^ (52 - e)) <= 2 ^ 53)%Z).
  { apply round_half_even_le. rewrite <- E2.
    apply Qmult_le_compat_r; lra. }
  set (m := round_half_even (q * 2 ^ (52 - e))) in *.
  assert (E3 : (inject_Z (2 ^ 52) * 2 ^ (e - 52) == 2 ^ e)%Q).
  { rewrite two_pow_Z by lia. rewrite <- Qpower_plus by discriminate.
    replace (52 + (e - 52))%Z with e by lia. reflexivity. }
  assert (E4 : (inject_Z (2 ^ 53) * 2 ^ (e - 52) == 2 ^ (e + 1))%Q).
  { rewrite two_pow_Z by lia. rewrite <- Qpower_plus by discriminate.
    replace (53 + (e - 52))%Z with (e + 1)%Z by lia. reflexivity. }
  rewrite <- E3, <- E4. split; apply Qmult_le_compat_r; try lra;
    rewrite <- Zle_Qle; assumption.
Qed.

Lemma round_positive_mono (p q : Q) :
  (0 < p)%Q -> (p <= q)%Q -> (round_positive p <= round_positive q)%Q.
Proof.
  intros Hp Hpq. pose proof (exponent_mono p q Hp Hpq) as He.
  destruct (Z.eq_dec (exponent p) (exponent q)) as [E|N].
  - unfold round_positive. rewrite E.
    pose proof (two_pow_pos (52 - exponent q)) as Pc.
    pose proof (two_pow_pos (exponent q - 52)) as Pu.
    apply Qmult_le_compat_r; [|lra]. rewrite <- Zle_Qle.
    apply round_half_even_mono. apply Qmult_le_compat_r; [exact Hpq | lra].
  - destruct (round_positive_bounds p Hp) as [_ H1].
    destruct (round_positive_bounds q ltac:(lra)) as [H2 _].
    assert (H : (2 ^ (exponent p + 1) <= 2 ^ exponent q)%Q).
    { apply Qpower_le_compat_l; [lia | discriminate]. }
    lra.
Qed.

Lemma binary64_nonneg (q : Q) : (0 <= q)%Q -> (0 <= binary64 q)%Q.
Proof.
  intros Hq. unfold binary64. pose proof (Qcompare_cases q 0) as C.
  destruct (Qcompare q 0).
  - lra.
  - lra.
  - destruct (round_positive_bounds q C) as [H _].
    pose proof (two_pow_pos (exponent q)). lra.
Qed.

Lemma binary64_mono (p q : Q) :
  (0 <= p)%Q -> (p <= q)%Q -> (binary64 p <= binary64 q)%Q.
Proof.
  intros Hp Hpq. unfold binary64 at 1. pose proof (Qcompare_cases p 0) as C.
  destruct (Qcompare p 0).
  - apply binary64_nonneg. lra.
  - lra.
  - unfold binary64. pose proof (Qcompare_cases q 0) as C'.
    destruct (Qcompare q 0); [lra | lra |].
    apply round_positive_mono; assumption.
Qed.

Lemma elapsed_ms_diag (t : Z) : Runtime.elapsed_ms t t = 0%Z.
Proof. unfold Runtime.elapsed_ms. rewrite Z.sub_diag. reflexivity. Qed.

(** The rounding shows: a whole second is 1000 ms, and so is 1.001 s, the
    product of the float nearest to 1.001 with 1000 falling just below
    1001. *)
Example elapsed_ms_of_a_second :
  Runtime.elapsed_ms 0 1000000 = 1000%Z /\
  Runtime.elapsed_ms 0 1001000 = 1000%Z /\
  Runtime.elapsed_ms 0 1002000 = 1002%Z.
Proof. vm_compute. repeat split. Qed.

Lemma elapsed_ms_mono (a b c d : Z) :
  (c <= a)%Z -> (a <= b)%Z -> (b <= d)%Z ->
  (0 <= Runtime.elapsed_ms a b <= Runtime.elapsed_ms c d)%Z.
Proof.
  intros H1 H2 H3. unfold Runtime.elapsed_ms.
  assert (D : forall x y : Z, (0 <= x <= y)%Z ->
    (0 <= inject_Z x / inject_Z 1000000)%Q /\
    (inject_Z x / inject_Z 1000000 <= inject_Z y / inject_Z 1000000)%Q).
  { intros x y [Hx Hy]. rewrite Zle_Qle in Hx, Hy. unfold Qdiv. split.
    - apply Qmult_le_0_compat; [exact Hx | discriminate].
    - apply Qmult_le_compat_r; [exact Hy | discriminate]. }
  destruct (D (b - a) (d - c))%Z as [D1 D2]; [lia|].
  pose proof (binary64_nonneg _ D1) as F1.
  pose proof (binary64_mono _ _ D1 D2) as F2.
  assert (G1 : (0 <= binary64 (inject_Z (b - a) / inject_Z 1000000) * inject_Z 1000)%Q).
  { apply Qmult_le_0_compat; [exact F1 | discriminate]. }
  assert (G2 : (binary64 (inject_Z (b - a) / inject_Z 1000000) * inject_Z 1000
                <= binary64 (inject_Z (d - c) / inject_Z 1000000) * inject_Z 1000)%Q).
  { apply Qmult_le_compat_r; [exact F2 | discriminate]. }
  pose proof (binary64_nonneg _ G1) as K1.
  pose proof (binary64_mono _ _ G1 G2) as K2.
  split.
  - rewrite (py_int_floor _ K1). rewrite <- (Qfloor_Z 0).
    apply Qfloor_resp_le. exact K1.
  - apply py_int_mono; assumption.
Qed.

Section PipelineTimes.
Import Runtime StateService SearchService.

Variable env : Env.
Variable id : string.
Hypothesis disk : disk_works env.
Hypothesis clock :
  forall n m, (n <= m)%nat -> (now_us (sys env) n <= now_us (sys env) m)%Z.

(** [c0] is the clock reading [initialize_search] took. *)
Variable c0 : nat.

(** A time measured between two readings taken from [c0] on and before
    the [n]-th. *)
Local Abbreviation ok_time := (fun (n : nat) (t : Z) =>
  exists a k, (c0 <= a)%nat /\ (a <= k)%nat /\ (k < n)%nat /\
              t = elapsed_ms (now_us (sys env) a) (now_us (sys env) k)).

Local Abbreviation timed := (fun (n : nat) (state : SearchState.t) =>
  SearchState.start_time state = now_us (sys env) c0 /\ (c0 < n)%nat /\
  forall e, In e (SearchState.stores_searched state) ->
            ok_time n (StoreState.time_ms e)).

(** The record is there, its times were measured before the next reading,
    and at least [a] readings were taken. *)
Local Abbreviation measured := (fun (a : nat) (w : World) =>
  (a <= clock_reads w)%nat /\
  exists state, files w !! id = Some state /\ timed (clock_reads w) state).

(** No store took longer than the search. *)
Local Abbreviation bounded := (fun (w : World) =>
  exists state, files w !! id = Some state /\
    (0 <= SearchState.elapsed_time_ms state)%Z /\
    forall e, In e (SearchState.stores_searched state) ->
      (0 <= StoreState.time_ms e <= SearchState.elapsed_time_ms state)%Z).

Lemma ok_time_mono n m t : (n <= m)%nat -> ok_time n t -> ok_time m t.
Proof.
  intros Hle (a & k & H1 & H2 & H3 & Ht). exists a, k.
  repeat split; try assumption. lia.
Qed.

Lemma ok_time_zero n : (c0 < n)%nat -> ok_time n 0%Z.
Proof.
  intros H. exists c0, c0. repeat split; try lia.
  symmetry. apply elapsed_ms_diag.
Qed.

Lemma timed_mono n m state : (n <= m)%nat -> timed n state -> timed m state.
Proof.
  intros Hle (H1 & H2 & H3). split; [exact H1|]. split; [lia|].
  intros e He. apply (ok_time_mono n); [exact Hle | apply H3, He].
Qed.

Lemma times_log_call a c : keeps (measured a) (log_call c).
Proof. intros w Hw. exact Hw. Qed.

Lemma times_now a : keeps (measured a) (now (sys env)).
Proof.
  intros w (Ha & state & Hf & Ht). simpl. split; [lia|].
  exists state. split; [exact Hf|]. apply (timed_mono (clock_reads w)); [lia | exact Ht].
Qed.

Lemma times_weaken a b w : (b <= a)%nat -> measured a w -> measured b w.
Proof. intros Hle [Ha H]. split; [lia | exact H]. Qed.

Lemma times_rewritten a state state' reads w :
  files w !! id = Some state ->
  (a <= clock_reads w)%nat ->
  timed (reads + clock_reads w) state' ->
  measured a (rewritten (sys env) id state' reads w).
Proof.
  intros Hf Ha Ht. unfold rewritten, written_files. rewrite !disk. simpl.
  split; [lia|].
  exists state'. split; [apply lookup_insert_eq | exact Ht].
Qed.

Lemma times_update_store_status a store status t (E : Exn -> World -> Prop) :
  triple (fun w => measured a w /\ ok_time (clock_reads w) t)
         (update_store_status (sys env) id store status t)
         (fun _ => measured a) E.
Proof.
  intros w [(Ha & state & Hf & H1 & H2 & H3) Hok].
  rewrite (update_store_status_eq _ _ _ _ _ _ _ Hf).
  apply (times_rewritten a state); [exact Hf | exact Ha|].
  simpl. split; [exact H1|]. split; [exact H2|].
  intros e He. apply update_first_In in He as [He| ->]; [apply H3, He | exact Hok].
Qed.

Lemma times_update_store_status_0 a store status :
  keeps (measured a) (update_store_status (sys env) id store status 0).
Proof.
  intros w Hw.
  apply (times_update_store_status a store status 0 (fun _ => measured a) w).
  split; [exact Hw|]. destruct Hw as (_ & state & _ & _ & H2 & _).
  apply ok_time_zero, H2.
Qed.

Lemma times_update_attributes a attributes :
  keeps (measured a) (update_attributes (sys env) id attributes).
Proof.
  intros w (Ha & state & Hf & Ht).
  rewrite (update_attributes_eq _ _ _ _ _ Hf).
  apply (times_rewritten a state); [exact Hf | exact Ha | exact Ht].
Qed.

Lemma times_update_result_count a count :
  keeps (measured a) (update_result_count (sys env) id count).
Proof.
  intros w (Ha & state & Hf & Ht).
  rewrite (update_result_count_eq _ _ _ _ _ Hf).
  apply (times_rewritten a state); [exact Hf | exact Ha | exact Ht].
Qed.

(** A terminal status closes the record with an elapsed time that bounds
    every time measured before. *)
Lemma times_update_search_status a status (E : Exn -> World -> Prop) :
  is_terminal status = true ->
  triple (measured a) (update_search_status (sys env) id status)
         (fun _ w => bounded w /\ measured a w) E.
Proof.
  intros Hterm w (Ha & state & Hf & H1 & H2 & H3).
  rewrite (update_search_status_eq _ _ _ _ _ Hf), Hterm.
  split.
  - unfold rewritten, written_files. rewrite !disk. simpl. eexists.
    split; [apply lookup_insert_eq|]. simpl. rewrite H1. split.
    + apply (elapsed_ms_mono _ _ (now_us (sys env) c0)
               (now_us (sys env) (clock_reads w))).
      * lia.
      * apply clock. lia.
      * lia.
    + intros e He. destruct (H3 e He) as (x & k & Hx & Hk & Hn & ->).
      apply elapsed_ms_mono; apply clock; lia.
  - apply (times_rewritten a state); [exact Hf | exact Ha|].
    simpl. split; [exact H1|]. split; [lia|].
    intros e He. apply (ok_time_mono (clock_reads w)); [lia | apply H3, He].
Qed.

Lemma closed_log_call a c :
  keeps (fun w => bounded w /\ measured a w) (log_call c).
Proof. intros w Hw. exact Hw. Qed.

Lemma closed_now a :
  keeps (fun w => bounded w /\ measured a w) (now (sys env)).
Proof.
  intros w [Hb Hm]. split; [exact Hb|]. apply (times_now a w Hm).
Qed.

Ltac times_step :=
  lazymatch goal with
  | |- keeps _ (mbind _ _) => apply keeps_bind; [|intros]
  | |- keeps _ (mret _) => apply keeps_ret
  | |- keeps _ (lift _) => apply keeps_lift
  | |- keeps _ (attempt _) => apply keeps_attempt
  | |- keeps _ (log_call _) => apply times_log_call
  | |- keeps _ (now _) => apply times_now
  | |- keeps _ (update_store_status _ _ _ _ 0) =>
      apply times_update_store_status_0
  | |- keeps _ (update_attributes _ _ _) => apply times_update_attributes
  | |- keeps _ (update_result_count _ _ _) => apply times_update_result_count
  end.

Lemma times_mark_store_failed a i store_name :
  keeps (measured a) (mark_store_failed env id i store_name).
Proof. unfold mark_store_failed. repeat times_step. Qed.

(** The loop keeps the times measured, [start] being the reading [a]. *)
Lemma times_search_stores a attributes stores :
  (c0 <= a)%nat ->
  forall i total,
  keeps (measured (S a))
        (search_stores env id attributes (now_us (sys env) a) i stores total).
Proof.
  intros Hca. induction stores as [|store rest IH]; intros i total; simpl.
  - apply keeps_ret.
  - apply keeps_bind; [repeat times_step|]. intros searched.
    apply keeps_bind; [|intros; apply IH].
    destruct searched as [products|e].
    + apply keeps_bind.
      * apply keeps_attempt.
        eapply triple_bind with
          (R := fun t w => measured (S a) w /\
                  ok_time (clock_reads w)
                    (elapsed_ms (now_us (sys env) a) t)).
        { intros w Hw. split; [apply (times_now (S a) w Hw)|].
          destruct Hw as (Ha & _). simpl.
          exists a, (clock_reads w). repeat split; lia. }
        intros t.
        eapply triple_bind with
          (R := fun _ w => measured (S a) w /\
                  ok_time (clock_reads w)
                    (elapsed_ms (now_us (sys env) a) t)).
        { intros w Hw. exact Hw. }
        step_in.
        eapply triple_bind; [apply times_update_store_status|]. step_in.
        fold_keeps. repeat times_step.
      * intros recorded. destruct recorded; repeat times_step.
        apply times_mark_store_failed.
    + repeat times_step. apply times_mark_store_failed.
Qed.


Lemma times_start stores attributes :
  triple (measured 0)
    (start_search_time ← now (sys env);
     search_stores env id attributes start_search_time 0 stores 0)
    (fun _ => measured 0) (fun _ => measured 0).
Proof.
  eapply triple_bind with
    (R := fun start w => exists a, start = now_us (sys env) a /\
                         (c0 <= a)%nat /\ measured (S a) w)
    (E := fun _ => measured 0).
  { intros w (_ & state & Hf & H1 & H2 & H3). simpl.
    exists (clock_reads w). split; [reflexivity|]. split; [lia|].
    split; [lia|]. exists state. split; [exact Hf|].
    split; [exact H1|]. split; [lia|].
    intros e He. apply (ok_time_mono (clock_reads w)); [lia | apply H3, He]. }
  intros start. apply triple_exists_l. intros a.
  apply triple_pure_l. intros ->. apply triple_pure_l. intros Hca.
  eapply triple_conseq;
    [apply (times_search_stores a attributes stores Hca 0 0%Z)
    | intros w Hw; exact Hw
    | intros r w Hw; apply (times_weaken (S a)); [lia | exact Hw]
    | intros e w Hw; apply (times_weaken (S a)); [lia | exact Hw]].
Qed.

Lemma times_analyze_and_search stores image_url :
  triple (measured 0)
         (analyze_and_search env stores id image_url)
         (fun _ => bounded)
         (fun _ => measured 0).
Proof.
  unfold analyze_and_search.
  eapply triple_bind; [apply times_log_call|]. step_in.
  eapply triple_bind; [apply keeps_lift|]. intros [attributes analysis_time_ms].
  eapply triple_bind; [apply times_log_call|]. step_in.
  eapply triple_bind; [apply times_update_attributes|]. step_in.
  eapply triple_bind; [apply times_log_call|]. step_in.
  eapply triple_bind; [apply keeps_lift|]. step_in.
  change (triple (measured 0)
    ((start_search_time ← now (sys env);
      search_stores env id attributes start_search_time 0 stores 0) ≫=
     (fun total_results =>
        _ ← now (sys env);
        log_call (CallUpdateResultCount total_results);;
        update_result_count (sys env) id total_results;;
        log_call (CallUpdateSearchStatus (value COMPLETED));;
        update_search_status (sys env) id COMPLETED;;
        _ ← now (sys env);
        log_call (CallSaveSearchMetrics total_results);;
        _ ← lift (save_search_metrics_result env);
        mret tt))
    (fun _ => bounded) (fun _ => measured 0)).
eapply triple_bind; [apply times_start|]. intros total; cbv beta.
  eapply triple_bind; [apply times_now|]. step_in.
  eapply triple_bind; [apply times_log_call|]. step_in.
  eapply triple_bind; [apply times_update_result_count|]. step_in.
  eapply triple_bind; [apply times_log_call|]. step_in.
  eapply triple_bind;
    [apply (times_update_search_status 0 COMPLETED _ eq_refl)|]. step_in.
  eapply triple_conseq with
    (P' := fun w => bounded w /\ measured 0 w)
    (Q' := fun _ w => bounded w /\ measured 0 w)
    (E' := fun _ w => bounded w /\ measured 0 w);
    [ | intros w Hw; exact Hw | intros a w [Hb _]; exact Hb
      | intros e w [_ Hm]; exact Hm].
  fold_keeps.
  apply keeps_bind; [apply closed_now|]. intros _.
  apply keeps_bind; [apply closed_log_call|]. intros _.
  apply keeps_bind; [apply keeps_lift|]. intros _.
  apply keeps_ret.
Qed.

Lemma times_fail (E : Exn -> World -> Prop) :
  triple (measured 0)
         (log_call (CallUpdateSearchStatus (value FAILED));;
          update_search_status (sys env) id FAILED)
         (fun _ => bounded) E.
Proof.
  eapply triple_bind with (R := fun _ => measured 0);
    [intros w Hw; exact Hw|]. step_in.
  eapply triple_conseq;
    [apply (times_update_search_status 0 FAILED E eq_refl)
    | intros w Hw; exact Hw | intros a w [Hb _]; exact Hb
    | intros e w He; exact He].
Qed.

(** The whole search, [c0] being the reading after the one it starts
    with. *)
Lemma times_process_search image stores :
  triple (fun w => S (clock_reads w) = c0)
         (process_search env image stores id)
         (fun _ => bounded) (fun _ _ => False).
Proof.
  unfold process_search, process_search_body.
  eapply triple_bind with (R := fun _ w => clock_reads w = c0).
  { intros w Hw. exact Hw. }
  step_in.
  eapply triple_try_except with (E' := fun _ => measured 0).
  2:{ intros e. apply times_fail. }
  eapply triple_bind with (R := fun _ w => clock_reads w = c0).
  { intros w Hw. exact Hw. }
  step_in.
  eapply triple_bind with (R := fun _ => measured 0).
  { intros w Hw. unfold initialize_search, mbind, M_bind, now, _save_state,
      written_files.
    simpl. rewrite disk. split; [lia|]. eexists.
    split; [apply lookup_insert_eq|]. simpl.
    split; [rewrite Hw; reflexivity|]. split; [lia|].
    intros e He. apply in_map_iff in He as (n & <- & _). simpl.
    apply ok_time_zero. lia. }
  step_in.
  eapply triple_bind; [apply times_log_call|]. step_in.
  eapply triple_bind; [apply keeps_lift|]. intros image_url; cbv beta.
  destruct (negb (truthy image_url)).
  - apply times_fail.
  - apply times_analyze_and_search.
Qed.

End PipelineTimes.

(** X17. No store takes longer than the search: on a working disk and a
    clock that never runs backwards, whatever the collaborators do, the
    record [process_search] leaves has an elapsed time that is not
    negative, and the time of every store is between 0 and that elapsed
    time. *)
Theorem store_times_are_bounded (env : SearchService.Env)
    (image : Models.UploadFile) (stores : list Models.StoreEnum)
    (search_id : string) (w : Runtime.World) :
  SearchService.disk_works env ->
  (forall n m, (n <= m)%nat ->
     (Runtime.now_us (SearchService.sys env) n
      <= Runtime.now_us (SearchService.sys env) m)%Z) ->
  exists state,
    SearchService.final_record env image stores search_id w = Some state /\
    (0 <= SearchState.elapsed_time_ms state)%Z /\
    forall e, In e (SearchState.stores_searched state) ->
      (0 <= StoreState.time_ms e <= SearchState.elapsed_time_ms state)%Z.
Proof.
  intros disk clock.
  pose proof (times_process_search env search_id disk clock
                (S (Runtime.clock_reads w)) image stores w eq_refl) as H.
  unfold SearchService.final_record.
  destruct (SearchService.process_search env image stores search_id w)
    as [[a|e] w']; [exact H | destruct H].
Qed.

(** X17, at a concrete input: the three stores with the services of the
    scenario, the clock advancing one second per reading. *)
Lemma store_times_are_bounded_witness :
  let env := Scenario.services Scenario.reliable Scenario.all_found in
  exists state,
    SearchService.final_record env Scenario.jpeg Models.all_stores "id-1"
      Runtime.empty_world = Some state /\
    (0 <= SearchState.elapsed_time_ms state)%Z /\
    forall e, In e (SearchState.stores_searched state) ->
      (0 <= StoreState.time_ms e <= SearchState.elapsed_time_ms state)%Z.
Proof.
  intros env.
  apply (store_times_are_bounded env Scenario.jpeg Models.all_stores "id-1"
           Runtime.empty_world).
  - intros n. reflexivity.
  - intros n m H. simpl. lia.
Defined.

(* ================================================================== *)
(** * A search whose record cannot be written                           *)
(* ================================================================== *)

Section LostRecord.
Import Runtime StateService SearchService.

Variable env : Env.
Variable id : string.
Variable stored_files : gmap string SearchState.t.
Variable cut_files : gset string.
Hypothesis no_record : stored_files !! id = None.

Local Abbreviation unwritten :=
  (fun w : World => files w = stored_files /\ cut_off w = cut_files).












End LostRecord.


